(** * ClearCore driver: a shallow embedding of [src/lib/clearcore.ts]

    The driver talks a line based, semicolon separated protocol to a motion
    controller.  This development embeds

    - the JavaScript primitives the driver relies on ([parseInt], [trim],
      [split], [join], [slice], the 32-bit [<<] and [|], template-literal
      rendering of numbers),
    - the command dispatcher [sendCommand], as a state machine over the
      promise chain [commandQueue], the listeners registered on the parser and
      on the port, the timers, and the log of what the transport observed,
    - the domain operations built on top of it.

    Strings are [string]s of 8-bit code units; numbers that the driver only
    ever uses as integers are [Z]; the result of [parseInt] is a [number]
    which is either [NaN] or an integer.

    The driver runs on one event loop.  A run of the driver is a list of
    [event]s: a caller calls [sendCommand], the loop runs a promise job, the
    parser emits a line, the port emits an error, a write callback reports an
    error, a timer fires, a flush completes.  Each callback of the source is
    a function on the state of the driver, and [step] dispatches an event to
    the callbacks registered for it.  The transport is the log [port] of the
    calls made on it; [flush] and [write] of the serial port start their
    operation and report its end through a callback, in a later turn. *)

From Stdlib Require Import ZArith String Ascii List Bool Lia Permutation.
From Stdlib Require Import Numbers.DecimalString Numbers.DecimalPos.
Import ListNotations.

Open Scope string_scope.
Open Scope Z_scope.

(* ================================================================= *)
(** * JavaScript primitives *)

Module Js.

(** [ToInt32]: reduction modulo 2^32 into the signed range. *)
Definition ToInt32 (z : Z) : Z :=
  let m := z mod 2 ^ 32 in
  if 2 ^ 31 <=? m then m - 2 ^ 32 else m.

(** [a << b]: the shift count is [ToUint32 b & 31]. *)
Definition shl (a b : Z) : Z :=
  ToInt32 (Z.shiftl (ToInt32 a) (Z.land b 31)).

(** [a | b] on 32-bit operands. *)
Definition bor (a b : Z) : Z :=
  ToInt32 (Z.lor (ToInt32 a) (ToInt32 b)).

(** The result of [parseInt]. *)
Inductive number : Type :=
| NaN
| Num (z : Z).

Definition number_eqb (a b : number) : bool :=
  match a, b with
  | Num x, Num y => x =? y
  | _, _ => false          (* NaN is different from everything *)
  end.

(** Rendering of an integer inside a template literal. *)
Definition String_of_Z (z : Z) : string :=
  NilZero.string_of_int (Z.to_int z).

Definition String_of_number (n : number) : string :=
  match n with
  | NaN => "NaN"
  | Num z => String_of_Z z
  end.

(** White space as [trim] and [parseInt] see it, on 8-bit code units:
    TAB, LF, VT, FF, CR, SP and NBSP. *)
Definition isWhiteSpace (c : ascii) : bool :=
  let n := nat_of_ascii c in
  ((n =? 9) || (n =? 10) || (n =? 11) || (n =? 12) || (n =? 13)
   || (n =? 32) || (n =? 160))%nat.

Fixpoint trimStart (s : string) : string :=
  match s with
  | EmptyString => EmptyString
  | String c r => if isWhiteSpace c then trimStart r else s
  end.

Fixpoint trimEnd (s : string) : string :=
  match s with
  | EmptyString => EmptyString
  | String c r =>
      match trimEnd r with
      | EmptyString => if isWhiteSpace c then EmptyString
                       else String c EmptyString
      | r' => String c r'
      end
  end.

Definition trim (s : string) : string := trimEnd (trimStart s).

Definition digit (c : ascii) : option Z :=
  let n := nat_of_ascii c in
  if ((48 <=? n) && (n <=? 57))%nat then Some (Z.of_nat (n - 48)) else None.

(** Value of the longest prefix of decimal digits, [None] when empty. *)
Fixpoint digits (acc : option Z) (s : string) : option Z :=
  match s with
  | EmptyString => acc
  | String c r =>
      match digit c with
      | Some d =>
          digits (Some (10 * match acc with Some a => a | None => 0 end + d)) r
      | None => acc
      end
  end.

(** [parseInt(s, 10)]: skip white space, read an optional sign, then the
    longest prefix of digits; [NaN] when there is no digit.  The integer is
    kept exact ([parseInt] rounds above 2^53, far beyond any identifier). *)
Definition parseInt (s : string) : number :=
  let s1 := trimStart s in
  let '(sign, s2) :=
    match s1 with
    | String "-" r => (-1, r)
    | String "+" r => (1, r)
    | _ => (1, s1)
    end in
  match digits None s2 with
  | None => NaN
  | Some v => Num (sign * v)
  end.

(** [s.split(";")]: never empty; a trailing delimiter yields a trailing
    empty field. *)
Fixpoint split (s : string) : list string :=
  match s with
  | EmptyString => [EmptyString]
  | String c r =>
      if Ascii.eqb c ";" then EmptyString :: split r
      else match split r with
           | [] => [String c EmptyString]
           | f :: fs => String c f :: fs
           end
  end.

(** [xs.join(";")]. *)
Fixpoint join (xs : list string) : string :=
  match xs with
  | [] => EmptyString
  | [x] => x
  | x :: r => x ++ ";" ++ join r
  end.

(** [xs.slice(start, end)], with negative positions counted from the end. *)
Definition relativeIndex (len i : Z) : Z :=
  if i <? 0 then Z.max (len + i) 0 else Z.min i len.

Definition slice {A : Type} (xs : list A) (from to : Z) : list A :=
  let len := Z.of_nat (List.length xs) in
  let k := relativeIndex len from in
  let final := relativeIndex len to in
  firstn (Z.to_nat (final - k)) (skipn (Z.to_nat k) xs).

(** [xs[i] ?? d] *)
Definition at_or {A : Type} (xs : list A) (i : nat) (d : A) : A :=
  nth i xs d.

End Js.

Import Js.

(* ================================================================= *)
(** * The dispatcher state *)

Definition MAX_COMMAND_ID : Z := 1000000.

(** One link of the promise chain [commandQueue]: the promise returned by one
    call of [sendCommand].  [Queued]: the [then] callback has not run yet.
    [Outstanding]: the executor has run (the line is written, the listeners
    are registered) and the promise is pending.  [Resolved] and [Rejected]:
    the promise is settled.  The promise that [then] returns takes the state
    of the promise its callback returns; the two are one link here. *)
Inductive settlement : Type :=
| Queued
| Outstanding
| Resolved (response : string)
| Rejected (message : string).

Record exchange : Type := mkExchange {
  command : string;
  timeoutMs : Z;
  promise : settlement
}.

(** The variables captured by [dataListener], [errorListener] and the
    timeout callback of one exchange; [owner] is the position of the exchange
    in the chain. *)
Record closure : Type := mkClosure {
  owner : nat;
  currentCommandId : Z;
  commandWithId : string
}.

(** What the transport observes. *)
Inductive portEvent : Type :=
| FlushCalled
| FlushCompleted
| Written (chunk : string).

Record ClearCore : Type := mkClearCore {
  isSerialPort : bool;             (* port instanceof SerialPort *)
  commandQueue : list exchange;    (* the chain, oldest call first *)
  enabledMotors : list Z;          (* a Set, in insertion order *)
  commandIdCounter : Z;
  dataListeners : list closure;    (* parser.once("data", ...) *)
  errorListeners : list closure;   (* port.once("error", ...) *)
  timers : list closure;           (* setTimeout(..., timeoutMs) *)
  port : list portEvent            (* oldest first *)
}.

(** [new ClearCore(port)] *)
Definition create (serial : bool) : ClearCore :=
  mkClearCore serial [] [] 0 [] [] [] [].

Definition with_queue (q : list exchange) (s : ClearCore) : ClearCore :=
  mkClearCore (isSerialPort s) q (enabledMotors s) (commandIdCounter s)
    (dataListeners s) (errorListeners s) (timers s) (port s).

Definition with_enabledMotors (m : list Z) (s : ClearCore) : ClearCore :=
  mkClearCore (isSerialPort s) (commandQueue s) m (commandIdCounter s)
    (dataListeners s) (errorListeners s) (timers s) (port s).

Definition with_counter (c : Z) (s : ClearCore) : ClearCore :=
  mkClearCore (isSerialPort s) (commandQueue s) (enabledMotors s) c
    (dataListeners s) (errorListeners s) (timers s) (port s).

Definition with_dataListeners (l : list closure) (s : ClearCore) : ClearCore :=
  mkClearCore (isSerialPort s) (commandQueue s) (enabledMotors s)
    (commandIdCounter s) l (errorListeners s) (timers s) (port s).

Definition with_errorListeners (l : list closure) (s : ClearCore) : ClearCore :=
  mkClearCore (isSerialPort s) (commandQueue s) (enabledMotors s)
    (commandIdCounter s) (dataListeners s) l (timers s) (port s).

Definition with_timers (l : list closure) (s : ClearCore) : ClearCore :=
  mkClearCore (isSerialPort s) (commandQueue s) (enabledMotors s)
    (commandIdCounter s) (dataListeners s) (errorListeners s) l (port s).

Definition emit (e : portEvent) (s : ClearCore) : ClearCore :=
  mkClearCore (isSerialPort s) (commandQueue s) (enabledMotors s)
    (commandIdCounter s) (dataListeners s) (errorListeners s) (timers s)
    (port s ++ [e]).

(* ================================================================= *)
(** * sendCommand *)

(** Promise [k] of the chain, and its settlement by [resolve] or [reject]:
    only a pending promise whose executor has run can be settled, a second
    settlement is ignored. *)
Fixpoint settle_in (k : nat) (r : settlement) (q : list exchange)
  : list exchange :=
  match q, k with
  | [], _ => []
  | x :: q', O =>
      match promise x with
      | Outstanding => mkExchange (command x) (timeoutMs x) r :: q'
      | _ => x :: q'
      end
  | x :: q', S k' => x :: settle_in k' r q'
  end.

Definition settle (k : nat) (r : settlement) (s : ClearCore) : ClearCore :=
  with_queue (settle_in k r (commandQueue s)) s.

Definition without (k : nat) (l : list closure) : list closure :=
  filter (fun c => negb (Nat.eqb (owner c) k)) l.

Definition clearTimeout (k : nat) (s : ClearCore) : ClearCore :=
  with_timers (without k (timers s)) s.

Definition removeDataListener (k : nat) (s : ClearCore) : ClearCore :=
  with_dataListeners (without k (dataListeners s)) s.

Definition removeErrorListener (k : nat) (s : ClearCore) : ClearCore :=
  with_errorListeners (without k (errorListeners s)) s.

(** [resetBuffer]: calls [port.flush] on a serial port and returns at once
    with a promise that the flush callback settles later; on another duplex
    stream there is nothing to do. *)
Definition resetBuffer (s : ClearCore) : ClearCore :=
  if isSerialPort s then emit FlushCalled s else s.

(** The line delimiter. *)
Definition LF : string := String "010" EmptyString.

(** The double quote character. *)
Definition quote : string := String "034" EmptyString.

Definition mismatchMessage (sent : Z) (received : number) (data : string)
  : string :=
  "Command ID mismatch. Sent: " ++ String_of_Z sent ++ ", Received: "
    ++ String_of_number received ++ ". Response: " ++ quote ++ data ++ quote.

Definition timeoutMessage (commandWithId : string) (timeoutMs : Z) : string :=
  "Command " ++ quote ++ commandWithId ++ quote ++ " timed out after "
    ++ String_of_Z timeoutMs ++ "ms".

(** The identifier a reply line carries:
    [parseInt(data.toString().trim().split(";")[0] ?? "-1", 10)]. *)
Definition receivedId (data : string) : number :=
  parseInt (at_or (split (trim data)) 0 "-1").

(** What [dataListener] settles its promise with. *)
Definition verdict (sent : Z) (data : string) : settlement :=
  let id := receivedId data in
  if negb (number_eqb id (Num sent))
  then Rejected (mismatchMessage sent id data)
  else Resolved (trim data).

Definition dataListener (c : closure) (data : string) (s : ClearCore)
  : ClearCore :=
  let s := clearTimeout (owner c) s in
  let s := removeErrorListener (owner c) s in
  settle (owner c) (verdict (currentCommandId c) data) s.

Definition errorListener (k : nat) (err : string) (s : ClearCore)
  : ClearCore :=
  let s := clearTimeout k s in
  let s := removeDataListener k s in
  settle k (Rejected err) s.

Definition onTimeout (c : closure) (ms : Z) (s : ClearCore) : ClearCore :=
  let s := removeDataListener (owner c) s in
  let s := removeErrorListener (owner c) s in
  settle (owner c) (Rejected (timeoutMessage (commandWithId c) ms)) s.

Fixpoint mark_outstanding (k : nat) (q : list exchange) : list exchange :=
  match q, k with
  | [], _ => []
  | x :: q', O => mkExchange (command x) (timeoutMs x) Outstanding :: q'
  | x :: q', S k' => x :: mark_outstanding k' q'
  end.

Fixpoint mark_rejected (k : nat) (e : string) (q : list exchange)
  : list exchange :=
  match q, k with
  | [], _ => []
  | x :: q', O => mkExchange (command x) (timeoutMs x) (Rejected e) :: q'
  | x :: q', S k' => x :: mark_rejected k' e q'
  end.

(** The executor of the promise of exchange [k], lines 86 to 152. *)
Definition executor (k : nat) (x : exchange) (s : ClearCore) : ClearCore :=
  let s := resetBuffer s in
  let currentCommandId := commandIdCounter s in
  let commandWithId := String_of_Z currentCommandId ++ ";" ++ command x in
  let s := with_counter (Z.rem (commandIdCounter s + 1) MAX_COMMAND_ID) s in
  let c := mkClosure k currentCommandId commandWithId in
  let s := with_timers (timers s ++ [c]) s in
  let s := with_dataListeners (dataListeners s ++ [c]) s in
  let s := with_errorListeners (errorListeners s ++ [c]) s in
  let s := emit (Written (commandWithId ++ LF)) s in
  with_queue (mark_outstanding k (commandQueue s)) s.

(** [sendCommand(command, timeoutMs)]: chains one more promise with
    [commandQueue.then(() => new Promise(...))] and returns it.  The callback
    runs later, as a promise job. *)
Definition sendCommand (command : string) (timeoutMs : Z) (s : ClearCore)
  : ClearCore :=
  with_queue (commandQueue s ++ [mkExchange command timeoutMs Queued]) s.

(** The promise returned by the latest [sendCommand]. *)
Definition returned (s : ClearCore) : nat :=
  Nat.pred (List.length (commandQueue s)).

Definition promiseOf (k : nat) (s : ClearCore) : option settlement :=
  option_map promise (nth_error (commandQueue s) k).

(** The first promise of the chain whose [then] callback has not run, with
    its position and the state of the promise it was chained on. *)
Fixpoint nextJob (prev : settlement) (q : list exchange)
  : option (nat * settlement * exchange) :=
  match q with
  | [] => None
  | x :: q' =>
      match promise x with
      | Queued => Some (O, prev, x)
      | st =>
          match nextJob st q' with
          | Some (k, p, y) => Some (S k, p, y)
          | None => None
          end
      end
  end.

(** One promise job.  [then] was given a fulfilment callback only: when the
    promise it was chained on is fulfilled the callback runs the executor;
    when that promise is rejected the callback is skipped and the chained
    promise is rejected with the same reason; while it is pending there is no
    job.  The chain starts from [Promise.resolve()]. *)
Definition promiseJob (s : ClearCore) : ClearCore :=
  match nextJob (Resolved "") (commandQueue s) with
  | Some (k, Resolved _, x) => executor k x s
  | Some (k, Rejected e, _) =>
      with_queue (mark_rejected k e (commandQueue s)) s
  | _ => s
  end.

(** What can happen to a driver: a caller calls [sendCommand], the event loop
    runs a promise job, the parser emits a line, the port emits an error, the
    write callback of exchange [k] reports an error, the timer of exchange
    [k] fires, a flush completes. *)
Inductive event : Type :=
| Call (command : string) (timeoutMs : Z)
| Job
| ParserData (data : string)
| PortError (err : string)
| WriteFailed (k : nat) (err : string)
| TimerFired (k : nat)
| FlushDone.

Definition isStarted (k : nat) (s : ClearCore) : bool :=
  match promiseOf k s with
  | Some Queued | None => false
  | Some _ => true
  end.

Definition step (s : ClearCore) (e : event) : ClearCore :=
  match e with
  | Call c t => sendCommand c t s
  | Job => promiseJob s
  | ParserData data =>
      (* every listener was registered with [once] *)
      fold_left (fun s c => dataListener c data s) (dataListeners s)
        (with_dataListeners [] s)
  | PortError err =>
      (* with no listener registered the event is not handled here *)
      fold_left (fun s c => errorListener (owner c) err s) (errorListeners s)
        (with_errorListeners [] s)
  | WriteFailed k err =>
      if isStarted k s then errorListener k err s else s
  | TimerFired k =>
      match find (fun c => Nat.eqb (owner c) k) (timers s) with
      | Some c =>
          let ms := match nth_error (commandQueue s) k with
                    | Some x => timeoutMs x
                    | None => 0
                    end in
          onTimeout c ms (clearTimeout k s)
      | None => s
      end
  | FlushDone => emit FlushCompleted s
  end.

Definition run (s : ClearCore) (es : list event) : ClearCore :=
  fold_left step es s.

(** The lines written to the transport, oldest first. *)
Fixpoint written (p : list portEvent) : list string :=
  match p with
  | [] => []
  | Written l :: p' => l :: written p'
  | _ :: p' => written p'
  end.

(* ================================================================= *)
(** * Domain operations *)

(** [models/clearcore.ts] *)
Record MotorState : Type := mkMotorState {
  isWritable : bool;
  enabled : bool;
  stepsComplete : bool;
  isInHardwareFault : bool;
  hlfbState : number;
  hlfbMode : number;
  position : number
}.

Record MotorMoveParameters : Type := mkMove {
  move_id : Z;
  move_steps : Z;
  move_velocity : Z;
  move_acceleration : Z
}.

Record MotorVelocityParameters : Type := mkVelocity {
  velocity_id : Z;
  velocity_velocity : Z;
  velocity_acceleration : Z
}.

Record DigitalPinWriteParameters : Type := mkPinWrite {
  pin_id : Z;
  pin_value : bool
}.

Inductive PinMode : Type :=
| DigitalInput
| DigitalOutput
| AnalogInput
| AnalogOutput.

Definition PinMode_value (m : PinMode) : Z :=
  match m with
  | DigitalInput => 0
  | DigitalOutput => 1
  | AnalogInput => 2
  | AnalogOutput => 3
  end.

(** [ids.reduce((acc, id) => acc | (1 << id), 0)] *)
Definition selector (ids : list Z) : Z :=
  fold_left (fun acc id => bor acc (shl 1 id)) ids 0.

(** [Set.prototype.add] and [Set.prototype.delete] on a set kept in
    insertion order. *)
Definition Set_add (m : Z) (l : list Z) : list Z :=
  if existsb (Z.eqb m) l then l else l ++ [m].

Definition Set_delete (m : Z) (l : list Z) : list Z :=
  filter (fun x => negb (x =? m)) l.

(** The default of the [timeoutMs] parameter of [sendCommand]. *)
Definition defaultTimeoutMs : Z := 100.

(** The value an [async] method produces from the promise it awaits. *)
Inductive outcome (A : Type) : Type :=
| StillPending
| Returned (a : A)
| Threw (message : string).
Arguments StillPending {A}.
Arguments Returned {A} a.
Arguments Threw {A} message.

Definition awaited {A : Type} (k : string -> A) (p : option settlement)
  : outcome A :=
  match p with
  | Some (Resolved response) => Returned (k response)
  | Some (Rejected e) => Threw e
  | _ => StillPending
  end.

(** [response.split(";").slice(2, -1)] *)
Definition payload (response : string) : list string :=
  slice (split response) 2 (-1).

Definition is1 (parts : list string) (i : nat) : bool :=
  match nth_error parts i with
  | Some f => String.eqb f "1"
  | None => false
  end.

(** The loop of [readMotors]; [fuel] bounds the number of iterations. *)
Fixpoint readMotors_loop (fuel : nat) (parts : list string) (i : nat)
  : list MotorState :=
  match fuel with
  | O => []
  | S fuel' =>
      if (i <? List.length parts)%nat then
        mkMotorState (is1 parts i) (is1 parts (i + 1)) (is1 parts (i + 2))
          (is1 parts (i + 3))
          (parseInt (at_or parts (i + 4) "0"))
          (parseInt (at_or parts (i + 5) "0"))
          (parseInt (at_or parts (i + 6) "0"))
          :: readMotors_loop fuel' parts (i + 7)
      else []
  end.

Definition readMotors (motors : list Z) (s : ClearCore) : ClearCore :=
  sendCommand ("MOTORS_STATE;1;" ++ String_of_Z (selector motors))
    defaultTimeoutMs s.

Definition readMotors_then (response : string) : list MotorState :=
  let parts := payload response in
  readMotors_loop (List.length parts) parts 0.

Definition setEnabledMotors (motors : list Z) (s : ClearCore) : ClearCore :=
  sendCommand ("MOTORS_ENABLE;1;" ++ String_of_Z (selector motors))
    defaultTimeoutMs s.

Definition enableMotors (motors : list Z) (s : ClearCore) : ClearCore :=
  let s := with_enabledMotors
             (fold_left (fun set m => Set_add m set) motors (enabledMotors s))
             s in
  setEnabledMotors (enabledMotors s) s.

Definition disableMotors (motors : list Z) (s : ClearCore) : ClearCore :=
  let s := with_enabledMotors
             (fold_left (fun set m => Set_delete m set) motors
                (enabledMotors s))
             s in
  setEnabledMotors (enabledMotors s) s.

Definition moveMotors (motors : list MotorMoveParameters) (s : ClearCore)
  : ClearCore :=
  let sel := selector (map move_id motors) in
  let args :=
    join (map (fun m => String_of_Z (move_steps m) ++ ";"
                          ++ String_of_Z (move_velocity m) ++ ";"
                          ++ String_of_Z (move_acceleration m)) motors) in
  sendCommand
    ("MOTORS_MOVE;" ++ String_of_Z (1 + Z.of_nat (List.length motors) * 3)
       ++ ";" ++ String_of_Z sel ++ ";" ++ args)
    defaultTimeoutMs s.

Definition setMotorsHome (motors : list Z) (s : ClearCore) : ClearCore :=
  sendCommand ("MOTORS_HOME;1;" ++ String_of_Z (selector motors))
    defaultTimeoutMs s.

Definition setMotorsVelocity (motors : list MotorVelocityParameters)
  (s : ClearCore) : ClearCore :=
  let sel := selector (map velocity_id motors) in
  let args :=
    join (map (fun m => String_of_Z (velocity_velocity m) ++ ";"
                          ++ String_of_Z (velocity_acceleration m)) motors) in
  sendCommand
    ("MOTORS_SET_VELOCITY;"
       ++ String_of_Z (1 + Z.of_nat (List.length motors) * 2)
       ++ ";" ++ String_of_Z sel ++ ";" ++ args)
    defaultTimeoutMs s.

Definition stopMotors (motors : list Z) (s : ClearCore) : ClearCore :=
  sendCommand ("MOTORS_STOP_ABRUPT;1;" ++ String_of_Z (selector motors))
    defaultTimeoutMs s.

Definition motorsSetEStopPin (pin : Z) (s : ClearCore) : ClearCore :=
  sendCommand ("MOTORS_SET_ESTOP_PIN;1;" ++ String_of_Z pin)
    defaultTimeoutMs s.

Definition disableAllMotors (s : ClearCore) : ClearCore :=
  sendCommand "MOTORS_ENABLE;1;0" defaultTimeoutMs s.

Definition setPinsMode (mode : PinMode) (pins : list Z) (s : ClearCore)
  : ClearCore :=
  sendCommand
    ("PINS_MODE_SET;2;" ++ String_of_Z (selector pins) ++ ";"
       ++ String_of_Z (PinMode_value mode))
    defaultTimeoutMs s.

Definition readDigitalSensors (sensors : list Z) (s : ClearCore) : ClearCore :=
  sendCommand ("DSENSORS_STATE;1;" ++ String_of_Z (selector sensors))
    defaultTimeoutMs s.

Definition readDigitalSensors_then (response : string) : list bool :=
  map (fun f => String.eqb f "1") (payload response).

Definition readAnalogSensors (sensors : list Z) (s : ClearCore) : ClearCore :=
  sendCommand ("ASENSORS_STATE;1;" ++ String_of_Z (selector sensors))
    defaultTimeoutMs s.

Definition readAnalogSensors_then (response : string) : list number :=
  map parseInt (payload response).

Definition writeDigitalPins (pins : list DigitalPinWriteParameters)
  (s : ClearCore) : ClearCore :=
  let sel := selector (map pin_id pins) in
  let values :=
    join (map (fun p => String_of_Z (if pin_value p then 1 else 0)) pins) in
  sendCommand
    ("DPINS_SET;" ++ String_of_Z (1 + Z.of_nat (List.length pins))
       ++ ";" ++ String_of_Z sel ++ ";" ++ values)
    defaultTimeoutMs s.

(* ================================================================= *)
(** * A device at the other end of the transport *)

(** [ReadlineParser({ delimiter: "\n" })] on one chunk: the text before the
    first delimiter, when there is one. *)
Fixpoint readline (bytes : string) : option string :=
  match bytes with
  | EmptyString => None
  | String c r =>
      if Ascii.eqb c "010" then Some EmptyString
      else option_map (String c) (readline r)
  end.

(** The stream of [tests/integration/quickstart.test.ts]: what [_write]
    pushes back for each chunk. *)
Definition TestStream (chunk : string) : option string :=
  if String.eqb chunk ("0;GET_VERSION;0" ++ LF) then
    Some ("0;0;1;2;3;4;5;6;7;8;9;10;11;12;13;14;15;16;17;18;19;20;" ++ LF)
  else if String.eqb chunk ("0;EXPANSION_BOARDS_STATE;0" ++ LF) then
    Some ("0;0;2;16;" ++ LF)
  else if String.eqb chunk ("0;MOTORS_STATE;1;5" ++ LF) then
    Some ("0;0;1;1;1;0;1;0;100;1;0;1;0;1;0;200;" ++ LF)
  else if String.eqb chunk ("0;MOTORS_ENABLE;1;5" ++ LF) then
    Some ("0;0;" ++ LF)
  else if String.eqb chunk ("0;MOTORS_MOVE;4;1;100;1000;10000" ++ LF) then
    Some ("0;0;" ++ LF)
  else if String.eqb chunk ("0;MOTORS_HOME;1;5" ++ LF) then
    Some ("0;0;" ++ LF)
  else if String.eqb chunk ("0;MOTORS_SET_VELOCITY;3;1;1000;10000" ++ LF) then
    Some ("0;0;" ++ LF)
  else if String.eqb chunk ("0;MOTORS_STOP_ABRUPT;1;5" ++ LF) then
    Some ("0;0;" ++ LF)
  else if String.eqb chunk ("0;MOTORS_SET_ESTOP_PIN;1;1" ++ LF) then
    Some ("0;0;" ++ LF)
  else if String.eqb chunk ("0;MOTORS_ENABLE;1;0" ++ LF) then
    Some ("0;0;" ++ LF)
  else if String.eqb chunk ("0;PINS_MODE_SET;2;5;1" ++ LF) then
    Some ("0;0;" ++ LF)
  else if String.eqb chunk ("0;DSENSORS_STATE;1;5" ++ LF) then
    Some ("0;0;1;0;" ++ LF)
  else if String.eqb chunk ("0;ASENSORS_STATE;1;5" ++ LF) then
    Some ("0;0;100;200;" ++ LF)
  else if String.eqb chunk ("0;DPINS_SET;3;5;1;0" ++ LF) then
    Some ("0;0;" ++ LF)
  else None.

(** One awaited call against a device: the job of the call just made runs;
    if it wrote a line, the device answers it and the parser emits the
    answer, or the device stays silent and the timer fires. *)
Definition serve (device : string -> option string) (s : ClearCore)
  : ClearCore :=
  let k := returned s in
  let s1 := step s Job in
  match promiseOf k s1 with
  | Some Outstanding =>
      match device (last (written (port s1)) EmptyString) with
      | Some bytes =>
          match readline bytes with
          | Some line => step s1 (ParserData line)
          | None => step s1 (TimerFired k)
          end
      | None => step s1 (TimerFired k)
      end
  | _ => s1
  end.

Definition result {A : Type} (k : string -> A) (s : ClearCore) : outcome A :=
  awaited k (promiseOf (returned s) s).

(* ================================================================= *)
(** * Notions used to state the properties *)

(** The command handed to the latest [sendCommand]. *)
Definition lastCommand (s : ClearCore) : string :=
  command (last (commandQueue s) (mkExchange EmptyString 0 Queued)).

(** [sub] occurs in [s]. *)
Definition occursIn (sub s : string) : Prop :=
  exists pre post, s = pre ++ sub ++ post.

Fixpoint endsWithDelimiter (s : string) : bool :=
  match s with
  | EmptyString => false
  | String c EmptyString => Ascii.eqb c ";"
  | String _ r => endsWithDelimiter r
  end.

Fixpoint hasDelimiter (s : string) : bool :=
  match s with
  | EmptyString => false
  | String c r => Ascii.eqb c ";" || hasDelimiter r
  end.

(** Decoding as the specification words it: drop fields 0 and 1, and drop a
    trailing empty field only when the line ends with the delimiter. *)
Definition payload_spec (line : string) : list string :=
  let fields := skipn 2 (split line) in
  if endsWithDelimiter line then removelast fields else fields.

(** The argument count as the specification words it: the number of fields
    that follow the bitmask. *)
Definition countsFieldsAfterBitmask (cmd : string) : Prop :=
  exists name argc mask fields,
    split cmd = name :: argc :: mask :: fields /\
    argc = String_of_Z (Z.of_nat (List.length fields)).

(** Index [i] of the shift range is among [ids]. *)
Definition selects (i : Z) (ids : list Z) : bool :=
  existsb (fun m => Z.land m 31 =? i) ids.

(** The value of a decimal numeral read after the digits worth [acc]. *)
Fixpoint uintValue (acc : Z) (d : Decimal.uint) : Z :=
  match d with
  | Decimal.Nil => acc
  | Decimal.D0 l => uintValue (10 * acc + 0) l
  | Decimal.D1 l => uintValue (10 * acc + 1) l
  | Decimal.D2 l => uintValue (10 * acc + 2) l
  | Decimal.D3 l => uintValue (10 * acc + 3) l
  | Decimal.D4 l => uintValue (10 * acc + 4) l
  | Decimal.D5 l => uintValue (10 * acc + 5) l
  | Decimal.D6 l => uintValue (10 * acc + 6) l
  | Decimal.D7 l => uintValue (10 * acc + 7) l
  | Decimal.D8 l => uintValue (10 * acc + 8) l
  | Decimal.D9 l => uintValue (10 * acc + 9) l
  end.

Fixpoint noWhiteSpace (s : string) : bool :=
  match s with
  | EmptyString => true
  | String c r => negb (isWhiteSpace c) && noWhiteSpace r
  end.

(** A session in which every exchange succeeds: each command is submitted,
    its job runs, and the device answers with the identifier expected for
    the exchange, the first of them being exchange number [i]. *)
Fixpoint healthySession (i : nat) (cmds : list string) : list event :=
  match cmds with
  | [] => []
  | c :: r =>
      Call c defaultTimeoutMs :: Job
        :: ParserData (String_of_Z (Z.of_nat i mod MAX_COMMAND_ID))
        :: healthySession (S i) r
  end.

(** The lines a healthy dispatcher writes for the commands [cmds], the first
    of them being exchange number [i]. *)
Fixpoint lines (i : nat) (cmds : list string) : list string :=
  match cmds with
  | [] => []
  | c :: r =>
      (String_of_Z (Z.of_nat i mod MAX_COMMAND_ID) ++ ";" ++ c ++ LF)
        :: lines (S i) r
  end.

(** Which promise may follow which in the chain: anything follows a resolved
    promise; only promises whose callback has not run follow a pending one;
    a rejected promise is followed by promises rejected with its reason, then
    by promises whose callback has not run. *)
Fixpoint chained (prev : settlement) (q : list exchange) : Prop :=
  match q with
  | [] => True
  | x :: r =>
      match prev, promise x with
      | Resolved _, _ => chained (promise x) r
      | Outstanding, Queued => chained Queued r
      | Queued, Queued => chained Queued r
      | Rejected e, Rejected e' => e' = e /\ chained (Rejected e) r
      | Rejected _, Queued => chained Queued r
      | _, _ => False
      end
  end.

(** The number of exchanges whose executor has run. *)
Fixpoint started (q : list exchange) : nat :=
  match q with
  | [] => O
  | x :: r =>
      match promise x with
      | Resolved _ => S (started r)
      | Outstanding | Rejected _ => 1%nat
      | Queued => O
      end
  end.

(** The position of the first exchange awaiting its reply. *)
Fixpoint outstanding (q : list exchange) : option nat :=
  match q with
  | [] => None
  | x :: r =>
      match promise x with
      | Outstanding => Some O
      | _ => option_map S (outstanding r)
      end
  end.

Definition allQueued (q : list exchange) : Prop :=
  Forall (fun x => promise x = Queued) q.

Definition isResolved (p : settlement) : Prop :=
  match p with Resolved _ => True | _ => False end.

Definition isSettled (p : settlement) : Prop :=
  match p with Resolved _ | Rejected _ => True | _ => False end.

(** A chain one of whose exchanges failed with reason [e]: resolved
    promises, then the promise of the failed exchange, then what may follow
    a rejected promise. *)
Fixpoint poisoned (e : string) (q : list exchange) : Prop :=
  match q with
  | [] => False
  | x :: r =>
      match promise x with
      | Resolved _ => poisoned e r
      | Rejected e' => e' = e /\ chained (Rejected e) r
      | _ => False
      end
  end.

Definition closureOf (k : nat) (x : exchange) : closure :=
  let id := Z.of_nat k mod MAX_COMMAND_ID in
  mkClosure k id (String_of_Z id ++ ";" ++ command x).

(** The invariant of the dispatcher. *)
Record Inv (s : ClearCore) : Prop := mkInv {
  inv_chain : chained (Resolved "") (commandQueue s);
  inv_written :
    written (port s)
    = lines 0 (firstn (started (commandQueue s))
                 (map command (commandQueue s)));
  inv_counter :
    commandIdCounter s
    = Z.of_nat (started (commandQueue s)) mod MAX_COMMAND_ID;
  inv_listeners :
    match outstanding (commandQueue s) with
    | Some k =>
        exists x, nth_error (commandQueue s) k = Some x /\
                  dataListeners s = [closureOf k x] /\
                  timers s = [closureOf k x]
    | None => dataListeners s = [] /\ timers s = []
    end
}.

Definition countOutstanding (q : list exchange) : nat :=
  List.length
    (filter (fun x => match promise x with Outstanding => true | _ => false end)
       q).

(** The flushes called and not yet completed. *)
Fixpoint flushesInProgress (n : nat) (p : list portEvent) : nat :=
  match p with
  | [] => n
  | FlushCalled :: p' => flushesInProgress (S n) p'
  | FlushCompleted :: p' => flushesInProgress (Nat.pred n) p'
  | Written _ :: p' => flushesInProgress n p'
  end.

(* ================================================================= *)
(** * The remaining operations *)

(** [xs.join("")], with the empty separator. *)
Fixpoint joinEmpty (xs : list string) : string :=
  match xs with
  | [] => EmptyString
  | x :: r => x ++ joinEmpty r
  end.

Definition getVersion (s : ClearCore) : ClearCore :=
  sendCommand "GET_VERSION;0" defaultTimeoutMs s.

(** [parts.slice(2, 22).join("")] *)
Definition getVersion_then (response : string) : string :=
  joinEmpty (slice (split response) 2 22).

Record BoardsState : Type := mkBoardsState {
  nrBoards : number;
  nrPorts : number
}.

Definition expansionBoardsState (s : ClearCore) : ClearCore :=
  sendCommand "EXPANSION_BOARDS_STATE;0" defaultTimeoutMs s.

Definition expansionBoardsState_then (response : string) : BoardsState :=
  let parts := split response in
  mkBoardsState (parseInt (at_or parts 2 "0")) (parseInt (at_or parts 3 "0")).

(** The stream of [tests/mock-serial-port.ts]: [_write] pushes the chunk
    back. *)
Definition MockSerialPort (chunk : string) : option string := Some chunk.

(** The record that the loop of [readMotors] builds from the seven fields
    that start at position [i]. *)
Definition motorStateAt (parts : list string) (i : nat) : MotorState :=
  mkMotorState (is1 parts i) (is1 parts (i + 1)) (is1 parts (i + 2))
    (is1 parts (i + 3))
    (parseInt (at_or parts (i + 4) "0"))
    (parseInt (at_or parts (i + 5) "0"))
    (parseInt (at_or parts (i + 6) "0")).

(** The seven payload fields of one motor in a [MOTORS_STATE] reply, as in
    the reply of the integration test: four flags, then three integers. *)
Record MotorReport : Type := mkMotorReport {
  r_isWritable : bool;
  r_enabled : bool;
  r_stepsComplete : bool;
  r_isInHardwareFault : bool;
  r_hlfbState : Z;
  r_hlfbMode : Z;
  r_position : Z
}.

(** [Number.isSafeInteger]: the integers that a number holds exactly, and
    that [parseInt] and a template literal read and render digit by digit. *)
Definition isSafeInteger (z : Z) : Prop := Z.abs z < 2 ^ 53.


(** How a flag travels on the wire: [value ? 1 : 0]. *)
Definition flag (b : bool) : string := if b then "1" else "0".

Definition motorFields (m : MotorReport) : list string :=
  [flag (r_isWritable m); flag (r_enabled m); flag (r_stepsComplete m);
   flag (r_isInHardwareFault m); String_of_Z (r_hlfbState m);
   String_of_Z (r_hlfbMode m); String_of_Z (r_position m)].

Definition motorStateOf (m : MotorReport) : MotorState :=
  mkMotorState (r_isWritable m) (r_enabled m) (r_stepsComplete m)
    (r_isInHardwareFault m) (Num (r_hlfbState m)) (Num (r_hlfbMode m))
    (Num (r_position m)).

(** [u] is empty or starts with a character that is no decimal digit. *)
Definition startsWithoutDigit (u : string) : Prop :=
  match u with
  | EmptyString => True
  | String c _ => digit c = None
  end.

Fixpoint hasLF (s : string) : bool :=
  match s with
  | EmptyString => false
  | String c r => Ascii.eqb c "010" || hasLF r
  end.

(** The error listener of the exchange that awaits its reply is registered
    on the port. *)
Definition errorListenerRegistered (s : ClearCore) : Prop :=
  match outstanding (commandQueue s) with
  | Some k =>
      exists x, nth_error (commandQueue s) k = Some x
                /\ In (closureOf k x) (errorListeners s)
  | None => True
  end.

(* ================================================================= *)
(** * Strings, fields and bit masks *)

Lemma split_not_nil (s : string) : split s <> [].
Proof.
  induction s as [|c r IH]; simpl; [discriminate|].
  destruct (Ascii.eqb c ";"); [discriminate|].
  destruct (split r); discriminate.
Qed.

(** [split] turns every delimiter into a field boundary. *)
Lemma split_app (a b : string) :
  split (a ++ ";" ++ b) = (split a ++ split b)%list.
Proof.
  induction a as [|c r IH]; simpl in *; [reflexivity|].
  destruct (Ascii.eqb c ";").
  - now rewrite IH.
  - rewrite IH. destruct (split r) as [|f fs] eqn:E; [|reflexivity].
    now apply split_not_nil in E.
Qed.

Lemma split_trailing (a : string) : split (a ++ ";") = (split a ++ [""])%list.
Proof. exact (split_app a ""). Qed.

Lemma split_single (s : string) : hasDelimiter s = false -> split s = [s].
Proof.
  induction s as [|c r IH]; simpl; [reflexivity|].
  intros H. apply orb_false_elim in H as [Hc Hr].
  rewrite Hc, (IH Hr). reflexivity.
Qed.

Lemma uint_no_delimiter (d : Decimal.uint) :
  hasDelimiter (NilEmpty.string_of_uint d) = false.
Proof. induction d; simpl; auto. Qed.

Lemma String_of_Z_no_delimiter (z : Z) : hasDelimiter (String_of_Z z) = false.
Proof.
  unfold String_of_Z, NilZero.string_of_int.
  destruct (Z.to_int z) as [d|d]; unfold NilZero.string_of_uint;
    destruct d; simpl; auto using uint_no_delimiter.
Qed.

Lemma split_String_of_Z (z : Z) : split (String_of_Z z) = [String_of_Z z].
Proof. apply split_single, String_of_Z_no_delimiter. Qed.

Lemma split_join (xs : list string) :
  xs <> [] -> split (join xs) = flat_map split xs.
Proof.
  induction xs as [|x r IH]; [congruence|]. intros _.
  destruct r as [|y r'].
  - simpl. now rewrite app_nil_r.
  - change (join (x :: y :: r')) with (x ++ ";" ++ join (y :: r')).
    rewrite split_app, IH by discriminate. reflexivity.
Qed.

Lemma slice_payload {A : Type} (xs : list A) :
  slice xs 2 (-1) = removelast (skipn 2 xs).
Proof.
  destruct xs as [|a [|b r]]; [reflexivity | reflexivity |].
  unfold slice, relativeIndex.
  change (-1 <? 0) with true. change (2 <? 0) with false. cbv iota.
  set (len := Z.of_nat (List.length (a :: b :: r))).
  assert (Hlen : len = Z.of_nat (List.length r) + 2).
  { unfold len. cbn [List.length]. lia. }
  replace (Z.to_nat (Z.min 2 len)) with 2%nat by lia.
  replace (Z.to_nat (Z.max (len + -1) 0 - Z.min 2 len))
    with (Nat.pred (List.length r)) by lia.
  cbn [skipn]. symmetry. apply removelast_firstn_len.
Qed.

Lemma payload_removelast (line : string) :
  payload line = removelast (skipn 2 (split line)).
Proof. apply slice_payload. Qed.

Lemma skipn2_snoc {A : Type} (xs : list A) (d : A) :
  removelast (skipn 2 (xs ++ [d])) = skipn 2 xs.
Proof.
  destruct xs as [|a [|b r]]; [reflexivity | reflexivity |].
  cbn [skipn app]. apply removelast_last.
Qed.

Lemma endsWithDelimiter_snoc (a : string) : endsWithDelimiter (a ++ ";") = true.
Proof.
  induction a as [|c r IH]; [reflexivity|].
  cbn [append endsWithDelimiter]. rewrite IH.
  destruct (r ++ ";") eqn:E; [|reflexivity].
  destruct r; discriminate.
Qed.

Lemma lastCommand_sendCommand (c : string) (t : Z) (s : ClearCore) :
  lastCommand (sendCommand c t s) = c.
Proof. unfold lastCommand, sendCommand. simpl. now rewrite last_last. Qed.

Lemma length_flat_map_const {A B : Type} (f : A -> list B) (n : nat)
  (xs : list A) :
  (forall x, List.length (f x) = n) ->
  List.length (flat_map f xs) = (n * List.length xs)%nat.
Proof.
  intros H. induction xs as [|x r IH]; simpl; [lia|].
  rewrite length_app, H, IH. lia.
Qed.

Lemma split_2 (a b : string) :
  hasDelimiter a = false -> hasDelimiter b = false ->
  split (a ++ ";" ++ b) = [a; b].
Proof. intros Ha Hb. now rewrite split_app, !split_single. Qed.

Lemma split_3 (a b c : string) :
  hasDelimiter a = false -> hasDelimiter b = false ->
  hasDelimiter c = false ->
  split (a ++ ";" ++ b ++ ";" ++ c) = [a; b; c].
Proof. intros Ha Hb Hc. now rewrite split_app, split_2, split_single. Qed.

(** The fields of an encoded line: name, argument count, bit mask, and the
    fields of the joined arguments. *)
Lemma split_encoded (name : string) (argc mask : Z) (args : string) :
  hasDelimiter name = false ->
  split (name ++ ";" ++ String_of_Z argc ++ ";" ++ String_of_Z mask ++ ";"
           ++ args)
  = name :: String_of_Z argc :: String_of_Z mask :: split args.
Proof.
  intros Hn.
  now rewrite !split_app, (split_single name), !split_String_of_Z.
Qed.

Lemma length_split_join_map {A : Type} (f : A -> string) (n : nat)
  (xs : list A) :
  (forall x, List.length (split (f x)) = n) ->
  xs <> [] ->
  List.length (split (join (map f xs))) = (n * List.length xs)%nat.
Proof.
  intros H Hne.
  rewrite split_join by (destruct xs; [congruence | discriminate]).
  rewrite flat_map_concat_map, map_map, <- flat_map_concat_map.
  now apply length_flat_map_const.
Qed.

(* ================================================================= *)
(** * The frame codec *)

(** C9, as the specification states it, fails: [moveMotors] with one motor
    sends argument count 4, while three fields follow the bit mask. *)
Lemma argumentCount_not_fields_after_bitmask :
  ~ countsFieldsAfterBitmask
      (lastCommand (moveMotors [mkMove 0 100 1000 10000] (create false))).
Proof.
  intros (name & argc & mask & fields & Hsplit & Hargc).
  vm_compute in Hsplit. injection Hsplit as <- <- <- <-.
  vm_compute in Hargc. discriminate.
Qed.

(** C9, amended: the argument count of an encoded line counts the bit mask
    together with the fields that follow it.  It is [1 + 3n] for [moveMotors]
    with [n] motors, [1 + 2n] for [setMotorsVelocity], [1 + n] for
    [writeDigitalPins] and [2] for [setPinsMode]; when at least one target is
    passed, exactly [3n], [2n], [n] fields follow the bit mask (with no
    target, one empty field follows it), and one field follows it for
    [setPinsMode]. *)
Theorem argumentCount_counts_bitmask_and_fields :
  (forall motors s, exists fields,
      split (lastCommand (moveMotors motors s))
      = "MOTORS_MOVE"
          :: String_of_Z (1 + Z.of_nat (List.length motors) * 3)
          :: String_of_Z (selector (map move_id motors)) :: fields
      /\ match motors with
         | [] => fields = [""]
         | _ => List.length fields = (3 * List.length motors)%nat
         end)
  /\ (forall motors s, exists fields,
      split (lastCommand (setMotorsVelocity motors s))
      = "MOTORS_SET_VELOCITY"
          :: String_of_Z (1 + Z.of_nat (List.length motors) * 2)
          :: String_of_Z (selector (map velocity_id motors)) :: fields
      /\ match motors with
         | [] => fields = [""]
         | _ => List.length fields = (2 * List.length motors)%nat
         end)
  /\ (forall pins s, exists fields,
      split (lastCommand (writeDigitalPins pins s))
      = "DPINS_SET"
          :: String_of_Z (1 + Z.of_nat (List.length pins))
          :: String_of_Z (selector (map pin_id pins)) :: fields
      /\ match pins with
         | [] => fields = [""]
         | _ => List.length fields = List.length pins
         end)
  /\ (forall mode pins s,
      split (lastCommand (setPinsMode mode pins s))
      = ["PINS_MODE_SET"; "2"; String_of_Z (selector pins);
         String_of_Z (PinMode_value mode)]).
Proof.
  repeat split.
  - intros motors s. unfold moveMotors. rewrite lastCommand_sendCommand.
    eexists. split.
    + change ("MOTORS_MOVE;" ++ ?r) with ("MOTORS_MOVE" ++ ";" ++ r).
      apply split_encoded. reflexivity.
    + destruct motors as [|m r]; [reflexivity|].
      apply length_split_join_map; [|discriminate].
      intros x. rewrite split_3; auto using String_of_Z_no_delimiter.
  - intros motors s. unfold setMotorsVelocity.
    rewrite lastCommand_sendCommand. eexists. split.
    + change ("MOTORS_SET_VELOCITY;" ++ ?r)
        with ("MOTORS_SET_VELOCITY" ++ ";" ++ r).
      apply split_encoded. reflexivity.
    + destruct motors as [|m r]; [reflexivity|].
      apply length_split_join_map; [|discriminate].
      intros x. rewrite split_2; auto using String_of_Z_no_delimiter.
  - intros pins s. unfold writeDigitalPins.
    rewrite lastCommand_sendCommand. eexists. split.
    + change ("DPINS_SET;" ++ ?r) with ("DPINS_SET" ++ ";" ++ r).
      apply split_encoded. reflexivity.
    + destruct pins as [|p r]; [reflexivity|].
      rewrite (length_split_join_map _ 1); [lia| |discriminate].
      intros x. now rewrite split_String_of_Z.
  - intros mode pins s. unfold setPinsMode.
    rewrite lastCommand_sendCommand.
    change ("PINS_MODE_SET;2;" ++ ?r) with ("PINS_MODE_SET;2" ++ ";" ++ r).
    rewrite !split_app, !split_String_of_Z. reflexivity.
Qed.

(** C10, as the specification states it, fails: on a reply line without a
    trailing delimiter the decoder drops the last payload field. *)
Lemma payload_drops_unterminated_field :
  payload "0;0;1;0" <> payload_spec "0;0;1;0"
  /\ payload_spec "0;0;1;0" = ["1"; "0"]
  /\ payload "0;0;1;0" = ["1"]
  /\ readDigitalSensors_then "0;0;1;0" = [true].
Proof. repeat split; (reflexivity || discriminate). Qed.

(** C10, amended: decoding splits on the delimiter, slices away the echoed
    identifier and the status field, and always drops the last field.  For
    every reply line that ends with the delimiter the dropped field is the
    trailing empty one, so every payload field is preserved and the decoder
    agrees with the specification's. *)
Theorem payload_drops_last_field (line : string) :
  payload line = removelast (skipn 2 (split line))
  /\ payload (line ++ ";") = skipn 2 (split line)
  /\ payload (line ++ ";") = payload_spec (line ++ ";").
Proof.
  assert (H : payload (line ++ ";") = skipn 2 (split line)).
  { rewrite payload_removelast, split_trailing. apply skipn2_snoc. }
  repeat split; [apply payload_removelast | exact H |].
  rewrite H. unfold payload_spec.
  now rewrite endsWithDelimiter_snoc, split_trailing, skipn2_snoc.
Qed.

(* ================================================================= *)
(** * Bit masks *)

Lemma ToInt32_testbit (z i : Z) :
  0 <= i < 32 -> Z.testbit (ToInt32 z) i = Z.testbit z i.
Proof.
  intros Hi. unfold ToInt32.
  rewrite <- (Z.mod_pow2_bits_low z 32 i) by lia.
  destruct (2 ^ 31 <=? z mod 2 ^ 32); [|reflexivity].
  rewrite <- (Z.mod_pow2_bits_low (z mod 2 ^ 32 - 2 ^ 32) 32 i) by lia.
  f_equal.
  replace (z mod 2 ^ 32 - 2 ^ 32) with (z mod 2 ^ 32 + (-1) * 2 ^ 32) by lia.
  rewrite Z.mod_add by lia. now rewrite Z.mod_mod by lia.
Qed.

(** Two 32-bit integers with the same low 32 bits are equal. *)
Lemma ToInt32_ext (a b : Z) :
  (forall i, 0 <= i < 32 -> Z.testbit a i = Z.testbit b i) ->
  ToInt32 a = ToInt32 b.
Proof.
  intros H. unfold ToInt32.
  replace (b mod 2 ^ 32) with (a mod 2 ^ 32); [reflexivity|].
  apply Z.bits_inj'. intros i Hi.
  destruct (Z.lt_ge_cases i 32).
  - rewrite !Z.mod_pow2_bits_low by lia. apply H. lia.
  - now rewrite !Z.mod_pow2_bits_high by lia.
Qed.

Lemma land_31_range (m : Z) : 0 <= Z.land m 31 < 32.
Proof.
  change 31 with (Z.ones 5). rewrite Z.land_ones by lia.
  apply Z.mod_pos_bound. lia.
Qed.

Lemma shl_1_testbit (m i : Z) :
  0 <= i < 32 -> Z.testbit (shl 1 m) i = (Z.land m 31 =? i).
Proof.
  intros Hi. unfold shl. rewrite ToInt32_testbit by lia.
  change (ToInt32 1) with 1. rewrite Z.shiftl_1_l.
  apply Z.pow2_bits_eqb. apply land_31_range.
Qed.

Lemma bor_testbit (a b i : Z) :
  0 <= i < 32 -> Z.testbit (bor a b) i = Z.testbit a i || Z.testbit b i.
Proof.
  intros Hi. unfold bor.
  now rewrite ToInt32_testbit, Z.lor_spec, !ToInt32_testbit.
Qed.

Lemma bor_ToInt32 (a b : Z) : ToInt32 (bor a b) = bor a b.
Proof.
  unfold bor. apply ToInt32_ext. intros i Hi. now apply ToInt32_testbit.
Qed.

Lemma fold_selector_testbit (ids : list Z) (acc i : Z) :
  0 <= i < 32 ->
  Z.testbit (fold_left (fun acc id => bor acc (shl 1 id)) ids acc) i
  = Z.testbit acc i || selects i ids.
Proof.
  intros Hi. revert acc.
  induction ids as [|m r IH]; intros acc; simpl.
  - now rewrite orb_false_r.
  - now rewrite IH, bor_testbit, shl_1_testbit, orb_assoc.
Qed.

(** Bit [i] of a selector is set exactly when one of the indices, reduced to
    the shift range, is [i]. *)
Lemma selector_testbit (ids : list Z) (i : Z) :
  0 <= i < 32 -> Z.testbit (selector ids) i = selects i ids.
Proof.
  intros Hi. unfold selector. rewrite fold_selector_testbit by exact Hi.
  now rewrite Z.testbit_0_l.
Qed.

Lemma fold_selector_ToInt32 (ids : list Z) (acc : Z) :
  ToInt32 acc = acc ->
  ToInt32 (fold_left (fun acc id => bor acc (shl 1 id)) ids acc)
  = fold_left (fun acc id => bor acc (shl 1 id)) ids acc.
Proof.
  revert acc. induction ids as [|m r IH]; intros acc Hacc; simpl; [exact Hacc|].
  apply IH, bor_ToInt32.
Qed.

(** A selector is determined by the bits it sets. *)
Lemma selector_ext (ids ids' : list Z) :
  (forall i, 0 <= i < 32 -> selects i ids = selects i ids') ->
  selector ids = selector ids'.
Proof.
  intros H.
  assert (E : forall l, selector l = ToInt32 (selector l)).
  { intros l. symmetry. apply fold_selector_ToInt32. reflexivity. }
  rewrite (E ids), (E ids').
  apply ToInt32_ext. intros i Hi.
  rewrite !selector_testbit by exact Hi. now apply H.
Qed.

Lemma selects_In (i : Z) (ids : list Z) :
  selects i ids = true <-> exists m, In m ids /\ Z.land m 31 = i.
Proof.
  unfold selects. rewrite existsb_exists.
  split; intros (m & Hm & E); exists m; split; auto; lia.
Qed.

Lemma selector_permutation (ids ids' : list Z) :
  Permutation ids ids' -> selector ids = selector ids'.
Proof.
  intros P. apply selector_ext. intros i _.
  apply eq_true_iff_eq. rewrite !selects_In.
  split; intros (m & Hm & E); exists m; split; auto.
  - now apply (Permutation_in _ P).
  - now apply (Permutation_in _ (Permutation_sym P)).
Qed.

(* ================================================================= *)
(** * The enabled-motor set *)

Lemma Set_add_In (x m : Z) (l : list Z) :
  In m (Set_add x l) <-> In m l \/ m = x.
Proof.
  unfold Set_add. destruct (existsb (Z.eqb x) l) eqn:E.
  - apply existsb_exists in E as (y & Hy & Hxy). apply Z.eqb_eq in Hxy.
    subst y. split; [auto|]. intros [H | ->]; assumption.
  - rewrite in_app_iff. simpl. intuition.
Qed.

Lemma Set_add_NoDup (x : Z) (l : list Z) : NoDup l -> NoDup (Set_add x l).
Proof.
  intros H. unfold Set_add. destruct (existsb (Z.eqb x) l) eqn:E; [exact H|].
  apply NoDup_app; [exact H | repeat constructor; intros [] |].
  intros y Hy [<- | []].
  assert (existsb (Z.eqb x) l = true); [|congruence].
  apply existsb_exists. exists x. split; [exact Hy | apply Z.eqb_refl].
Qed.

Lemma Set_delete_In (x m : Z) (l : list Z) :
  In m (Set_delete x l) <-> In m l /\ m <> x.
Proof.
  unfold Set_delete. rewrite filter_In, negb_true_iff, Z.eqb_neq. reflexivity.
Qed.

Lemma fold_Set_add_In (ms l : list Z) (m : Z) :
  In m (fold_left (fun set x => Set_add x set) ms l) <-> In m l \/ In m ms.
Proof.
  revert l. induction ms as [|x r IH]; intros l; simpl; [tauto|].
  rewrite IH, Set_add_In. intuition.
Qed.

Lemma fold_Set_delete_In (ms l : list Z) (m : Z) :
  In m (fold_left (fun set x => Set_delete x set) ms l)
  <-> In m l /\ ~ In m ms.
Proof.
  revert l. induction ms as [|x r IH]; intros l; simpl; [tauto|].
  rewrite IH, Set_delete_In. intuition.
Qed.

Lemma selector_bit_In (ids : list Z) (m : Z) :
  In m ids -> Z.testbit (selector ids) (Z.land m 31) = true.
Proof.
  intros H. rewrite selector_testbit by apply land_31_range.
  apply selects_In. now exists m.
Qed.

(** C7: [enableMotors] and [disableMotors] first add, or remove, every
    passed index in the Enabled Motor Set, then hand exactly one
    [MOTORS_ENABLE] command to the dispatcher; bit [i] of its bit mask is set
    exactly when an index of the whole resulting set selects [i].  On a fresh
    driver, [enableMotors(0)] followed by [enableMotors(2)] sends bit mask 5
    on the second call. *)
Theorem enable_disable_send_whole_set (motors : list Z) (s : ClearCore)
  (i : Z) (Hi : 0 <= i < 32) :
  let s1 := enableMotors motors s in
  let s2 := disableMotors motors s in
  (forall m, In m (enabledMotors s1) <-> In m (enabledMotors s) \/ In m motors)
  /\ (forall m, In m (enabledMotors s2)
                <-> In m (enabledMotors s) /\ ~ In m motors)
  /\ commandQueue s1
     = (commandQueue s
        ++ [mkExchange
              ("MOTORS_ENABLE;1;" ++ String_of_Z (selector (enabledMotors s1)))
              defaultTimeoutMs Queued])%list
  /\ commandQueue s2
     = (commandQueue s
        ++ [mkExchange
              ("MOTORS_ENABLE;1;" ++ String_of_Z (selector (enabledMotors s2)))
              defaultTimeoutMs Queued])%list
  /\ (Z.testbit (selector (enabledMotors s1)) i = true
      <-> exists m, (In m (enabledMotors s) \/ In m motors) /\ Z.land m 31 = i)
  /\ (Z.testbit (selector (enabledMotors s2)) i = true
      <-> exists m, (In m (enabledMotors s) /\ ~ In m motors)
                    /\ Z.land m 31 = i)
  /\ lastCommand (enableMotors [2] (enableMotors [0] (create false)))
     = "MOTORS_ENABLE;1;5"
  /\ written (port (run (create false)
                      [Call (lastCommand (enableMotors [0] (create false)))
                         defaultTimeoutMs;
                       Call (lastCommand
                               (enableMotors [2]
                                  (enableMotors [0] (create false))))
                         defaultTimeoutMs;
                       Job; ParserData "0;0;"; Job]))
     = ["0;MOTORS_ENABLE;1;1" ++ LF; "1;MOTORS_ENABLE;1;5" ++ LF].
Proof.
  intros s1 s2.
  assert (A1 : forall m, In m (enabledMotors s1)
                         <-> In m (enabledMotors s) \/ In m motors).
  { intros m. apply fold_Set_add_In. }
  assert (A2 : forall m, In m (enabledMotors s2)
                         <-> In m (enabledMotors s) /\ ~ In m motors).
  { intros m. apply fold_Set_delete_In. }
  assert (B : forall t : ClearCore,
             Z.testbit (selector (enabledMotors t)) i = true
             <-> exists m, In m (enabledMotors t) /\ Z.land m 31 = i).
  { intros t. rewrite selector_testbit by exact Hi. apply selects_In. }
  split; [exact A1|]. split; [exact A2|].
  split; [reflexivity|]. split; [reflexivity|].
  split.
  { rewrite B. split; intros (m & Hm & E); exists m; split; auto;
      now apply A1. }
  split.
  { rewrite B. split; intros (m & Hm & E); exists m; split; auto;
      now apply A2. }
  split; reflexivity.
Qed.

Lemma enable_disable_send_whole_set_witness :
  0 <= 2 < 32
  /\ Z.testbit
       (selector (enabledMotors (enableMotors [2] (enableMotors [0] (create false)))))
       2 = true.
Proof.
  split; [lia|].
  apply (enable_disable_send_whole_set [2] (enableMotors [0] (create false)) 2
           ltac:(lia)).
  exists 2. split; [right; left; reflexivity | reflexivity].
Defined.

(* ================================================================= *)
(** * Read operations *)

(** More iterations than fields change nothing: the loop of [readMotors]
    always comes to its end. *)
Lemma readMotors_loop_fuel (parts : list string) (fuel i : nat) :
  (List.length parts <= i + 7 * fuel)%nat ->
  readMotors_loop (S fuel) parts i = readMotors_loop fuel parts i.
Proof.
  revert i. induction fuel as [|f IH]; intros i H.
  - simpl. destruct (Nat.ltb_spec i (List.length parts)); [lia | reflexivity].
  - change (readMotors_loop (S (S f)) parts i)
      with (if (i <? List.length parts)%nat
            then mkMotorState (is1 parts i) (is1 parts (i + 1))
                   (is1 parts (i + 2)) (is1 parts (i + 3))
                   (parseInt (at_or parts (i + 4) "0"))
                   (parseInt (at_or parts (i + 5) "0"))
                   (parseInt (at_or parts (i + 6) "0"))
                   :: readMotors_loop (S f) parts (i + 7)
            else []).
    rewrite IH by lia. reflexivity.
Qed.

(** C6, as the specification states it, fails: against the stream of the
    integration test, [readDigitalSensors(0, 2)] and [readDigitalSensors(2,
    0)] return the same sequence, so no reading of the two sensors makes
    both results follow the order of the indices passed. *)
Lemma read_results_ignore_request_order :
  ~ exists v : Z -> bool,
      result readDigitalSensors_then
        (serve TestStream (readDigitalSensors [0; 2] (create false)))
      = Returned (map v [0; 2])
      /\ result readDigitalSensors_then
           (serve TestStream (readDigitalSensors [2; 0] (create false)))
         = Returned (map v [2; 0]).
Proof.
  intros (v & H02 & H20).
  vm_compute in H02. vm_compute in H20.
  injection H02 as E0 E2. injection H20 as E2' E0'. congruence.
Qed.

(** C6, amended: a read operation hands the dispatcher a command that
    carries only the bit mask of the indices, and decodes the payload of the
    reply field by field, in the order of the reply.  The order in which the
    caller passes the indices has no effect: the same indices in another
    order give the same command, and against every device the same result. *)
Theorem read_results_follow_reply_order
  (device : string -> option string) (s : ClearCore) (ids ids' : list Z)
  (P : Permutation ids ids') :
  readMotors ids s = readMotors ids' s
  /\ readDigitalSensors ids s = readDigitalSensors ids' s
  /\ readAnalogSensors ids s = readAnalogSensors ids' s
  /\ result readMotors_then (serve device (readMotors ids s))
     = result readMotors_then (serve device (readMotors ids' s))
  /\ result readDigitalSensors_then (serve device (readDigitalSensors ids s))
     = result readDigitalSensors_then
         (serve device (readDigitalSensors ids' s))
  /\ result readAnalogSensors_then (serve device (readAnalogSensors ids s))
     = result readAnalogSensors_then (serve device (readAnalogSensors ids' s))
  /\ (forall response,
        readDigitalSensors_then response
        = map (fun f => String.eqb f "1") (payload response))
  /\ (forall response,
        readAnalogSensors_then response = map parseInt (payload response))
  /\ (forall response,
        readMotors_then response
        = match payload response with
          | [] => []
          | parts =>
              mkMotorState (is1 parts 0) (is1 parts 1) (is1 parts 2)
                (is1 parts 3) (parseInt (at_or parts 4 "0"))
                (parseInt (at_or parts 5 "0")) (parseInt (at_or parts 6 "0"))
                :: readMotors_loop (List.length parts) parts 7
          end).
Proof.
  unfold readMotors, readDigitalSensors, readAnalogSensors.
  rewrite (selector_permutation ids ids' P).
  repeat split; try reflexivity.
  intros response. unfold readMotors_then.
  destruct (payload response) as [|f parts] eqn:E; [reflexivity|].
  cbn [List.length].
  rewrite (readMotors_loop_fuel (f :: parts) (List.length parts) 7)
    by (cbn [List.length]; lia).
  reflexivity.
Qed.

Lemma read_results_follow_reply_order_witness :
  Permutation [0; 2] [2; 0]
  /\ result readAnalogSensors_then
       (serve TestStream (readAnalogSensors [0; 2] (create false)))
     = result readAnalogSensors_then
         (serve TestStream (readAnalogSensors [2; 0] (create false))).
Proof.
  split; [apply perm_swap|].
  apply (read_results_follow_reply_order TestStream (create false)
           [0; 2] [2; 0] (perm_swap 2 0 [])).
Defined.

(* ================================================================= *)
(** * The promise chain *)

Ltac chain_cases x :=
  let E := fresh "E" in
  destruct (promise x) eqn:E; simpl in *; try rewrite E in *; simpl in *;
  try tauto; try discriminate.

Lemma allQueued_chained (p : settlement) (q : list exchange) :
  allQueued q -> chained p q.
Proof.
  intros H. revert p. induction H as [|x r Hx Hr IH]; intros p; simpl; [exact I|].
  rewrite Hx. destruct p; apply IH.
Qed.

Lemma chained_allQueued (p : settlement) (q : list exchange) :
  chained p q -> p = Queued \/ p = Outstanding -> allQueued q.
Proof.
  revert p. induction q as [|x r IH]; intros p H Hp; [constructor|].
  simpl in H. destruct Hp as [-> | ->]; chain_cases x;
    (constructor; [assumption | apply (IH Queued); auto]).
Qed.

Lemma allQueued_started (q : list exchange) : allQueued q -> started q = O.
Proof. intros H. destruct H as [|x r Hx Hr]; simpl; [|rewrite Hx]; reflexivity. Qed.

Lemma allQueued_outstanding (q : list exchange) :
  allQueued q -> outstanding q = None.
Proof.
  intros H. induction H as [|x r Hx Hr IH]; simpl; [reflexivity|].
  now rewrite Hx, IH.
Qed.

(** Behind a promise that is not resolved no exchange awaits a reply. *)
Lemma chained_quiet (p : settlement) (q : list exchange) :
  chained p q -> ~ isResolved p -> outstanding q = None.
Proof.
  revert p. induction q as [|x r IH]; intros p H Hp; [reflexivity|].
  simpl in H. destruct p; simpl in Hp; try tauto; chain_cases x.
  - now rewrite (IH Queued).
  - now rewrite (IH Queued).
  - now rewrite (IH Queued).
  - destruct H as [_ H]. now rewrite (IH (Rejected message)).
Qed.

Lemma settle_in_quiet (k : nat) (r : settlement) (q : list exchange) :
  outstanding q = None -> settle_in k r q = q.
Proof.
  revert k. induction q as [|x q' IH]; intros k H; [now destruct k|].
  simpl in H. destruct k as [|k]; simpl.
  - destruct (promise x); [reflexivity | discriminate | reflexivity..].
  - rewrite IH; [reflexivity|].
    destruct (promise x); try discriminate;
      destruct (outstanding q'); simpl in H; congruence.
Qed.

Lemma chained_app_queued (p : settlement) (q : list exchange) (c : string)
  (t : Z) :
  chained p q -> chained p (q ++ [mkExchange c t Queued]).
Proof.
  revert p. induction q as [|x r IH]; intros p H.
  - simpl. destruct p; exact I.
  - simpl in *. destruct p; chain_cases x; try (apply IH; assumption).
    destruct H as [-> H]. split; [reflexivity | now apply IH].
Qed.

Lemma started_app_queued (q : list exchange) (c : string) (t : Z) :
  started (q ++ [mkExchange c t Queued]) = started q.
Proof.
  induction q as [|x r IH]; simpl; [reflexivity|].
  destruct (promise x); congruence.
Qed.

Lemma outstanding_app_queued (q : list exchange) (c : string) (t : Z) :
  outstanding (q ++ [mkExchange c t Queued]) = outstanding q.
Proof.
  induction q as [|x r IH]; simpl; [reflexivity|].
  destruct (promise x); congruence.
Qed.

Lemma started_le_length (q : list exchange) :
  (started q <= List.length q)%nat.
Proof.
  induction q as [|x r IH]; simpl; [lia|]. destruct (promise x); lia.
Qed.

Lemma map_command_settle_in (k : nat) (r : settlement) (q : list exchange) :
  map command (settle_in k r q) = map command q.
Proof.
  revert k. induction q as [|x q' IH]; intros k; [now destruct k|].
  destruct k; simpl; [destruct (promise x); reflexivity | now rewrite IH].
Qed.

Lemma map_command_mark_outstanding (k : nat) (q : list exchange) :
  map command (mark_outstanding k q) = map command q.
Proof.
  revert k. induction q as [|x q' IH]; intros k; [now destruct k|].
  destruct k; simpl; [reflexivity | now rewrite IH].
Qed.

Lemma map_command_mark_rejected (k : nat) (e : string) (q : list exchange) :
  map command (mark_rejected k e q) = map command q.
Proof.
  revert k. induction q as [|x q' IH]; intros k; [now destruct k|].
  destruct k; simpl; [reflexivity | now rewrite IH].
Qed.

(** Behind a rejected promise the next job rejects with the same reason. *)
Lemma nextJob_behind_rejected (e : string) (q : list exchange) (k : nat)
  (p : settlement) (x : exchange) :
  chained (Rejected e) q -> nextJob (Rejected e) q = Some (k, p, x) ->
  p = Rejected e /\ chained (Rejected e) (mark_rejected k e q).
Proof.
  revert k. induction q as [|a r IH]; intros k H J; [discriminate|].
  simpl in H, J. chain_cases a.
  - injection J as Jk Jp Jx; subst. simpl. repeat split.
    apply allQueued_chained. apply (chained_allQueued Queued); auto.
  - destruct H as [-> H].
    destruct (nextJob (Rejected e) r) as [[[k' p'] y]|] eqn:J'; [|discriminate].
    injection J as Jk Jp Jx; subst. destruct (IH k' H eq_refl) as [-> H'].
    simpl. rewrite E. auto.
Qed.

(** Behind promises that are pending there is no job to run. *)
Lemma nextJob_behind_pending (q : list exchange) (k : nat) (p : settlement)
  (x : exchange) :
  allQueued q -> nextJob Outstanding q = Some (k, p, x) -> p = Outstanding.
Proof.
  intros H J. destruct H as [|a r Ha Hr]; [discriminate|].
  simpl in J. rewrite Ha in J. injection J as Jk Jp Jx; subst; auto.
Qed.

(** The job that finds the previous promise resolved starts exchange [k]:
    all the exchanges before it are resolved, none awaits a reply. *)
Lemma job_starts (q : list exchange) (prev : settlement) (k : nat) (v : string)
  (x : exchange) :
  chained prev q -> isResolved prev ->
  nextJob prev q = Some (k, Resolved v, x) ->
  chained prev (mark_outstanding k q)
  /\ started q = k
  /\ started (mark_outstanding k q) = S k
  /\ nth_error q k = Some x
  /\ outstanding q = None
  /\ outstanding (mark_outstanding k q) = Some k
  /\ nth_error (mark_outstanding k q) k
     = Some (mkExchange (command x) (timeoutMs x) Outstanding)
  /\ Forall (fun y => isResolved (promise y)) (firstn k q).
Proof.
  revert prev k. induction q as [|a r IH]; intros prev k H R J; [discriminate|].
  destruct prev; simpl in R; try tauto. simpl in H, J.
  destruct (promise a) eqn:E.
  - injection J as Jk Jp Jx; subst. simpl. rewrite E.
    assert (Q : allQueued r) by (apply (chained_allQueued Queued); auto).
    repeat split; auto.
    + now apply allQueued_chained.
    + now rewrite allQueued_outstanding.
  - destruct (nextJob Outstanding r) as [[[k' p'] y]|] eqn:J'; [|discriminate].
    injection J as Jk Jp Jx; subst.
    apply nextJob_behind_pending in J';
      [discriminate | apply (chained_allQueued Outstanding); auto].
  - destruct (nextJob (Resolved response0) r) as [[[k' p'] y]|] eqn:J';
      [|discriminate].
    injection J as Jk Jp Jx; subst.
    destruct (IH (Resolved response0) k' H I J')
      as (A1 & A2 & A3 & A4 & A5 & A6 & A7 & A8).
    simpl. rewrite E, A2, A3, A5, A6. repeat split; auto.
    constructor; [now rewrite E | exact A8].
  - destruct (nextJob (Rejected message) r) as [[[k' p'] y]|] eqn:J';
      [|discriminate].
    injection J as Jk Jp Jx; subst.
    apply nextJob_behind_rejected in J' as [J' _]; [discriminate | exact H].
Qed.

(** The job that finds the previous promise rejected passes the rejection
    on and starts nothing. *)
Lemma job_rejects (q : list exchange) (prev : settlement) (k : nat)
  (e : string) (x : exchange) :
  chained prev q -> isResolved prev ->
  nextJob prev q = Some (k, Rejected e, x) ->
  chained prev (mark_rejected k e q)
  /\ started (mark_rejected k e q) = started q
  /\ outstanding q = None
  /\ outstanding (mark_rejected k e q) = None.
Proof.
  revert prev k. induction q as [|a r IH]; intros prev k H R J; [discriminate|].
  destruct prev; simpl in R; try tauto. simpl in H, J.
  destruct (promise a) eqn:E.
  - injection J as Jk Jp Jx; discriminate.
  - destruct (nextJob Outstanding r) as [[[k' p'] y]|] eqn:J'; [|discriminate].
    injection J as Jk Jp Jx; subst.
    apply nextJob_behind_pending in J';
      [discriminate | apply (chained_allQueued Outstanding); auto].
  - destruct (nextJob (Resolved response0) r) as [[[k' p'] y]|] eqn:J';
      [|discriminate].
    injection J as Jk Jp Jx; subst.
    destruct (IH (Resolved response0) k' H I J') as (A1 & A2 & A3 & A4).
    simpl. rewrite E, A2, A3, A4. auto.
  - destruct (nextJob (Rejected message) r) as [[[k' p'] y]|] eqn:J';
      [|discriminate].
    injection J as Jk Jp Jx; subst.
    destruct (nextJob_behind_rejected _ _ _ _ _ H J') as [[= ->] H'].
    simpl. rewrite E.
    rewrite (chained_quiet _ _ H), (chained_quiet _ _ H') by auto.
    auto.
Qed.

Lemma nth_error_settle_in_other (k j : nat) (r : settlement)
  (q : list exchange) :
  j <> k -> nth_error (settle_in k r q) j = nth_error q j.
Proof.
  revert k j. induction q as [|x q' IH]; intros k j H; [now destruct k|].
  destruct k as [|k], j as [|j]; simpl; try congruence.
  - destruct (promise x); reflexivity.
  - apply IH. congruence.
Qed.

Lemma length_settle_in (k : nat) (r : settlement) (q : list exchange) :
  List.length (settle_in k r q) = List.length q.
Proof.
  rewrite <- (length_map command (settle_in k r q)), map_command_settle_in.
  apply length_map.
Qed.

(** Settling the exchange that awaits its reply. *)
Lemma settle_outstanding (q : list exchange) (prev : settlement) (k : nat)
  (r : settlement) :
  chained prev q -> isResolved prev -> isSettled r ->
  outstanding q = Some k ->
  chained prev (settle_in k r q)
  /\ started (settle_in k r q) = started q
  /\ outstanding (settle_in k r q) = None
  /\ exists x, nth_error q k = Some x
               /\ promise x = Outstanding
               /\ nth_error (settle_in k r q) k
                  = Some (mkExchange (command x) (timeoutMs x) r).
Proof.
  revert prev k. induction q as [|a q' IH]; intros prev k H R S O;
    [discriminate|].
  destruct prev; simpl in R; try tauto. simpl in H, O.
  destruct (promise a) eqn:E.
  - rewrite (chained_quiet Queued q' H) in O by auto. discriminate.
  - injection O as <-. simpl. rewrite E. simpl.
    assert (Q : allQueued q') by (apply (chained_allQueued Outstanding); auto).
    rewrite (allQueued_outstanding _ Q), (allQueued_started _ Q).
    repeat split.
    + now apply allQueued_chained.
    + now destruct r.
    + destruct r; simpl in S; try tauto; reflexivity.
    + exists a. auto.
  - destruct (outstanding q') as [k'|] eqn:O'; [|discriminate].
    injection O as <-.
    destruct (IH (Resolved response0) k' H I S eq_refl)
      as (A1 & A2 & A3 & x & A4 & A5 & A6).
    simpl. rewrite E, A2, A3. repeat split; auto. exists x. auto.
  - rewrite (chained_quiet (Rejected message) q' H) in O by auto.
    discriminate.
Qed.

(** A settlement aimed at any other exchange changes nothing. *)
Lemma settle_other (q : list exchange) (prev : settlement) (k : nat)
  (r : settlement) :
  chained prev q -> isResolved prev -> outstanding q <> Some k ->
  settle_in k r q = q.
Proof.
  revert prev k. induction q as [|a q' IH]; intros prev k H R O;
    [now destruct k|].
  destruct prev; simpl in R; try tauto. simpl in H, O.
  destruct k as [|k]; simpl.
  - destruct (promise a); congruence.
  - f_equal. destruct (promise a) eqn:E.
    + apply settle_in_quiet, (chained_quiet Queued); auto.
    + apply settle_in_quiet, (chained_quiet Outstanding); auto.
    + apply (IH (Resolved response0)); auto.
      intros O'. rewrite O' in O. now apply O.
    + apply settle_in_quiet, (chained_quiet (Rejected message)); auto.
Qed.

Lemma chained_one_outstanding (p : settlement) (q : list exchange) :
  chained p q -> isResolved p -> (countOutstanding q <= 1)%nat.
Proof.
  assert (Z0 : forall q, outstanding q = None -> countOutstanding q = O).
  { clear. intros q. induction q as [|a r IH]; [reflexivity|].
    unfold countOutstanding in *. simpl.
    destruct (promise a); try discriminate;
      destruct (outstanding r); try discriminate; auto. }
  revert p. induction q as [|a r IH]; intros p H R;
    [unfold countOutstanding; simpl; lia|].
  destruct p; simpl in R; try tauto. simpl in H.
  unfold countOutstanding in *. simpl.
  destruct (promise a) eqn:E; simpl.
  - rewrite (Z0 r); [lia | apply (chained_quiet Queued); auto].
  - rewrite (Z0 r); [lia | apply (chained_quiet Outstanding); auto].
  - apply (IH (Resolved response0)); auto.
  - rewrite (Z0 r); [lia | apply (chained_quiet (Rejected message)); auto].
Qed.

(* ================================================================= *)
(** * Lines on the wire *)

Lemma append_assoc (a b c : string) : (a ++ b) ++ c = a ++ b ++ c.
Proof. induction a as [|x a IH]; simpl; [reflexivity | now rewrite IH]. Qed.

Lemma lines_app (i : nat) (a b : list string) :
  lines i (a ++ b) = (lines i a ++ lines (i + List.length a) b)%list.
Proof.
  revert i. induction a as [|x a IH]; intros i; simpl.
  - now rewrite Nat.add_0_r.
  - rewrite IH. do 3 f_equal. lia.
Qed.

Lemma length_lines (i : nat) (a : list string) :
  List.length (lines i a) = List.length a.
Proof. revert i. induction a; intros i; simpl; auto. Qed.

Lemma nth_error_lines (i k : nat) (a : list string) (c : string) :
  nth_error a k = Some c ->
  nth_error (lines i a) k
  = Some (String_of_Z (Z.of_nat (i + k) mod MAX_COMMAND_ID) ++ ";" ++ c ++ LF).
Proof.
  revert i k. induction a as [|x a IH]; intros i k H; [now destruct k|].
  destruct k as [|k]; simpl in *.
  - injection H as ->. now rewrite Nat.add_0_r.
  - rewrite (IH (S i) k H). do 4 f_equal. lia.
Qed.

Lemma firstn_snoc {A : Type} (k : nat) (l : list A) (x : A) :
  nth_error l k = Some x -> firstn (S k) l = (firstn k l ++ [x])%list.
Proof.
  revert k. induction l as [|a l IH]; intros k H; [now destruct k|].
  destruct k as [|k]; simpl in *; [now injection H as -> |].
  now rewrite <- IH.
Qed.

Lemma written_app (p p' : list portEvent) :
  written (p ++ p') = (written p ++ written p')%list.
Proof.
  induction p as [|e p IH]; simpl; [reflexivity|].
  destruct e; simpl; now rewrite IH.
Qed.

Lemma counter_next (k : nat) :
  Z.rem (Z.of_nat k mod MAX_COMMAND_ID + 1) MAX_COMMAND_ID
  = Z.of_nat (S k) mod MAX_COMMAND_ID.
Proof.
  unfold MAX_COMMAND_ID.
  pose proof (Z.mod_pos_bound (Z.of_nat k) 1000000 ltac:(lia)).
  rewrite Z.rem_mod_nonneg by lia.
  rewrite Nat2Z.inj_succ. unfold Z.succ.
  now rewrite Zplus_mod_idemp_l.
Qed.

(* ================================================================= *)
(** * The invariant of the dispatcher *)

Lemma without_own (k : nat) (x : exchange) : without k [closureOf k x] = [].
Proof. unfold without. simpl. now rewrite Nat.eqb_refl. Qed.

Lemma without_other (j k : nat) (x : exchange) :
  j <> k -> without j [closureOf k x] = [closureOf k x].
Proof.
  intros H. unfold without. simpl.
  destruct (Nat.eqb_spec k j); [congruence | reflexivity].
Qed.

Lemma Inv_create (serial : bool) : Inv (create serial).
Proof. constructor; simpl; auto. Qed.

Lemma Inv_with_errorListeners (l : list closure) (s : ClearCore) :
  Inv s -> Inv (with_errorListeners l s).
Proof. intros [I1 I2 I3 I4]. constructor; assumption. Qed.

Lemma Inv_emit_flush (e : portEvent) (s : ClearCore) :
  written [e] = [] -> Inv s -> Inv (emit e s).
Proof.
  intros He [I1 I2 I3 I4]. constructor; try assumption.
  simpl. now rewrite written_app, He, app_nil_r.
Qed.

Lemma Inv_sendCommand (c : string) (t : Z) (s : ClearCore) :
  Inv s -> Inv (sendCommand c t s).
Proof.
  intros [I1 I2 I3 I4]. constructor; simpl.
  - now apply chained_app_queued.
  - rewrite started_app_queued, map_app, firstn_app.
    replace (started (commandQueue s) - List.length (map command (commandQueue s)))%nat
      with O by (rewrite length_map; pose proof (started_le_length (commandQueue s)); lia).
    now rewrite app_nil_r.
  - now rewrite started_app_queued.
  - rewrite outstanding_app_queued.
    destruct (outstanding (commandQueue s)) as [k|]; [|exact I4].
    destruct I4 as (x & Hx & Hd & Ht). exists x. repeat split; auto.
    rewrite nth_error_app1; [exact Hx|].
    apply nth_error_Some. congruence.
Qed.

(** Settling the exchange that awaits its reply, with its listeners and its
    timer gone, keeps the invariant. *)
Lemma Inv_settled (s : ClearCore) (k : nat) (r : settlement)
  (el : list closure) :
  Inv s -> isSettled r -> outstanding (commandQueue s) = Some k ->
  Inv (mkClearCore (isSerialPort s) (settle_in k r (commandQueue s))
         (enabledMotors s) (commandIdCounter s) [] el [] (port s)).
Proof.
  intros [I1 I2 I3 I4] S O.
  destruct (settle_outstanding _ _ k r I1 I S O) as (A1 & A2 & A3 & _).
  constructor; simpl.
  - exact A1.
  - now rewrite A2, map_command_settle_in.
  - now rewrite A2.
  - now rewrite A3.
Qed.

Lemma Inv_errorListener (j : nat) (err : string) (s : ClearCore) :
  Inv s -> Inv (errorListener j err s).
Proof.
  intros H. pose proof H as [I1 I2 I3 I4].
  unfold errorListener, settle, removeDataListener, clearTimeout.
  unfold with_queue, with_dataListeners, with_timers. simpl.
  destruct (outstanding (commandQueue s)) as [k|] eqn:O.
  - destruct I4 as (x & Hx & Hd & Ht). rewrite Hd, Ht.
    destruct (Nat.eq_dec j k) as [-> | Hjk].
    + rewrite without_own. now apply Inv_settled.
    + rewrite without_other by exact Hjk.
      rewrite (settle_other _ _ j _ I1 I) by congruence.
      constructor; simpl; auto. rewrite O. eauto.
  - destruct I4 as [Hd Ht]. rewrite Hd, Ht.
    rewrite (settle_other _ _ j _ I1 I) by congruence.
    constructor; simpl; auto. now rewrite O.
Qed.

Lemma Inv_promiseJob (s : ClearCore) : Inv s -> Inv (promiseJob s).
Proof.
  intros H. pose proof H as [I1 I2 I3 I4]. unfold promiseJob.
  destruct (nextJob (Resolved "") (commandQueue s)) as [[[k p] x]|] eqn:J;
    [|exact H].
  destruct p as [| |v|e]; try exact H.
  - destruct (job_starts _ _ _ _ _ I1 I J)
      as (A1 & A2 & A3 & A4 & A5 & A6 & A7 & A8).
    rewrite A5 in I4. destruct I4 as [Hd Ht].
    assert (W : written (port (resetBuffer s)) = written (port s)).
    { unfold resetBuffer. destruct (isSerialPort s); [|reflexivity].
      simpl. now rewrite written_app, app_nil_r. }
    assert (R : forall s0, commandQueue (resetBuffer s0) = commandQueue s0
                           /\ commandIdCounter (resetBuffer s0)
                              = commandIdCounter s0
                           /\ dataListeners (resetBuffer s0) = dataListeners s0
                           /\ timers (resetBuffer s0) = timers s0).
    { intros s0. unfold resetBuffer. destruct (isSerialPort s0); auto. }
    destruct (R s) as (R1 & R2 & R3 & R4).
    unfold executor. constructor; simpl; rewrite ?R1, ?R2, ?R3, ?R4.
    + exact A1.
    + rewrite written_app, W, I2, A2, A3, map_command_mark_outstanding.
      rewrite (firstn_snoc k _ (command x))
        by (rewrite nth_error_map, A4; reflexivity).
      rewrite lines_app, length_firstn, length_map.
      replace (Nat.min k (List.length (commandQueue s))) with k
        by (assert (k < List.length (commandQueue s))%nat
              by (apply nth_error_Some; congruence); lia).
      simpl. rewrite I3, A2, append_assoc. reflexivity.
    + rewrite I3, A2, A3. apply counter_next.
    + rewrite A6. eexists. split; [exact A7|].
      rewrite Hd, Ht, I3, A2. split; reflexivity.
  - destruct (job_rejects _ _ _ _ _ I1 I J) as (A1 & A2 & A3 & A4).
    constructor; simpl.
    + exact A1.
    + now rewrite A2, map_command_mark_rejected.
    + now rewrite A2.
    + rewrite A4. now rewrite A3 in I4.
Qed.

Lemma with_dataListeners_same (s : ClearCore) :
  with_dataListeners (dataListeners s) s = s.
Proof. now destruct s. Qed.

Lemma step_ParserData_idle (s : ClearCore) (data : string) :
  Inv s -> outstanding (commandQueue s) = None ->
  step s (ParserData data) = s.
Proof.
  intros [I1 I2 I3 I4] O. rewrite O in I4. destruct I4 as [Hd Ht].
  simpl. rewrite Hd. simpl. rewrite <- Hd. apply with_dataListeners_same.
Qed.

(** The effect of a line on the exchange that awaits its reply. *)
Lemma step_ParserData_outstanding (s : ClearCore) (data : string) (k : nat) :
  Inv s -> outstanding (commandQueue s) = Some k ->
  step s (ParserData data)
  = mkClearCore (isSerialPort s)
      (settle_in k (verdict (Z.of_nat k mod MAX_COMMAND_ID) data)
         (commandQueue s))
      (enabledMotors s) (commandIdCounter s) []
      (without k (errorListeners s)) [] (port s).
Proof.
  intros [I1 I2 I3 I4] O. rewrite O in I4.
  destruct I4 as (x & Hx & Hd & Ht).
  simpl. rewrite Hd. simpl.
  unfold dataListener, settle, removeErrorListener, clearTimeout.
  unfold with_queue, with_dataListeners, with_timers, with_errorListeners.
  simpl. rewrite Ht, without_own. reflexivity.
Qed.

Lemma verdict_settled (sent : Z) (data : string) :
  isSettled (verdict sent data).
Proof. unfold verdict. destruct (negb _); exact I. Qed.

Lemma Inv_step (s : ClearCore) (e : event) : Inv s -> Inv (step s e).
Proof.
  intros H. destruct e as [c t| |data|err|k err|k|].
  - now apply Inv_sendCommand.
  - now apply Inv_promiseJob.
  - destruct (outstanding (commandQueue s)) as [k|] eqn:O.
    + rewrite (step_ParserData_outstanding _ _ _ H O).
      apply Inv_settled; auto using verdict_settled.
    + now rewrite (step_ParserData_idle _ _ H O).
  - simpl. apply Inv_with_errorListeners with (l := []) in H.
    revert H. generalize (with_errorListeners [] s).
    induction (errorListeners s) as [|c l IH]; intros s0 H0; simpl; [exact H0|].
    apply IH. now apply Inv_errorListener.
  - simpl. destruct (isStarted k s); [now apply Inv_errorListener | exact H].
  - simpl. pose proof H as [I1 I2 I3 I4].
    destruct (outstanding (commandQueue s)) as [k0|] eqn:O.
    + destruct I4 as (x & Hx & Hd & Ht). rewrite Ht. simpl.
      destruct (Nat.eqb_spec k0 k) as [<- | Hk]; [|exact H].
      unfold onTimeout, settle, removeErrorListener, removeDataListener,
        clearTimeout.
      unfold with_queue, with_dataListeners, with_timers, with_errorListeners.
      simpl. rewrite Hd, Ht, !without_own.
      now apply Inv_settled.
    + destruct I4 as [Hd Ht]. rewrite Ht. exact H.
  - simpl. now apply Inv_emit_flush.
Qed.

Lemma Inv_run (s : ClearCore) (es : list event) : Inv s -> Inv (run s es).
Proof.
  revert s. induction es as [|e es IH]; intros s H; simpl; [exact H|].
  apply IH. now apply Inv_step.
Qed.

(** Every state a driver reaches satisfies the invariant. *)
Lemma Inv_reachable (serial : bool) (es : list event) :
  Inv (run (create serial) es).
Proof. apply Inv_run, Inv_create. Qed.

(* ================================================================= *)
(** * Replies *)

Lemma number_eqb_eq (a : number) (z : Z) :
  number_eqb a (Num z) = true <-> a = Num z.
Proof.
  destruct a as [|y]; simpl; [split; discriminate|].
  rewrite Z.eqb_eq. split; congruence.
Qed.


(** In a state the driver reaches, the [k]-th line on the wire carries
    identifier [k mod 1000000] and the command of the [k]-th call. *)
Lemma written_line (s : ClearCore) (k : nat) (line : string) :
  Inv s -> nth_error (written (port s)) k = Some line ->
  (k < started (commandQueue s))%nat
  /\ exists x, nth_error (commandQueue s) k = Some x
               /\ line = String_of_Z (Z.of_nat k mod MAX_COMMAND_ID) ++ ";"
                           ++ command x ++ LF.
Proof.
  intros [I1 I2 I3 I4] H. rewrite I2 in H.
  assert (Hk : (k < started (commandQueue s))%nat).
  { assert (L : (k < List.length
                        (lines 0 (firstn (started (commandQueue s))
                                    (map command (commandQueue s)))))%nat)
      by (apply nth_error_Some; congruence).
    rewrite length_lines, length_firstn in L. lia. }
  split; [exact Hk|].
  pose proof (started_le_length (commandQueue s)) as Hle.
  destruct (nth_error (commandQueue s) k) as [x|] eqn:Hx.
  - exists x. split; [reflexivity|].
    rewrite (nth_error_lines 0 k _ (command x)) in H.
    + now injection H as <-.
    + rewrite nth_error_firstn.
      destruct (Nat.ltb_spec k (started (commandQueue s))); [|lia].
      now rewrite nth_error_map, Hx.
  - apply nth_error_None in Hx. lia.
Qed.

Lemma occursIn_intro (pre sub post : string) : occursIn sub (pre ++ sub ++ post).
Proof. now exists pre, post. Qed.

Lemma mismatchMessage_contents (sent : Z) (received : number) (data : string) :
  occursIn (String_of_Z sent) (mismatchMessage sent received data)
  /\ occursIn (String_of_number received) (mismatchMessage sent received data)
  /\ occursIn data (mismatchMessage sent received data).
Proof.
  unfold mismatchMessage. repeat split.
  - apply occursIn_intro.
  - exists ("Command ID mismatch. Sent: " ++ String_of_Z sent ++ ", Received: "),
      (". Response: " ++ quote ++ data ++ quote).
    now rewrite !append_assoc.
  - exists ("Command ID mismatch. Sent: " ++ String_of_Z sent ++ ", Received: "
              ++ String_of_number received ++ ". Response: " ++ quote), quote.
    now rewrite !append_assoc.
Qed.

(* ================================================================= *)
(** * After a failure *)

Lemma poisoned_quiet (e : string) (q : list exchange) :
  poisoned e q -> outstanding q = None.
Proof.
  induction q as [|a r IH]; intros H; [reflexivity|].
  simpl in *. destruct (promise a) eqn:E; try tauto.
  - now rewrite IH.
  - destruct H as [_ H]. now rewrite (chained_quiet _ _ H).
Qed.

Lemma poisoned_app_queued (e : string) (q : list exchange) (c : string)
  (t : Z) :
  poisoned e q -> poisoned e (q ++ [mkExchange c t Queued]).
Proof.
  induction q as [|a r IH]; intros H; [contradiction|].
  simpl in *. destruct (promise a) eqn:E; try tauto.
  destruct H as [-> H]. split; [reflexivity | now apply chained_app_queued].
Qed.

(** The first rejected promise of a chain poisons it. *)
Lemma rejected_poisons (q : list exchange) (prev : settlement) (k : nat)
  (x : exchange) (e : string) :
  chained prev q -> isResolved prev ->
  nth_error q k = Some x -> promise x = Rejected e -> poisoned e q.
Proof.
  assert (T : forall q e0 k x e, chained (Rejected e0) q ->
                nth_error q k = Some x -> promise x = Rejected e -> e = e0).
  { clear. induction q as [|a r IH]; intros e0 k x e H Hx Hp;
      [now destruct k|].
    simpl in H. destruct k as [|k]; simpl in Hx.
    - injection Hx as ->. rewrite Hp in H. now destruct H.
    - destruct (promise a) eqn:E; try tauto.
      + exfalso. pose proof (chained_allQueued Queued r H (or_introl eq_refl))
          as Q.
        apply nth_error_In in Hx.
        rewrite (proj1 (Forall_forall _ _) Q x Hx) in Hp. discriminate.
      + destruct H as [-> H]. now apply (IH e0 k x e). }
  revert prev k. induction q as [|a r IH]; intros prev k H R Hx Hp;
    [now destruct k|].
  destruct prev; simpl in R; try tauto. simpl in H |- *.
  destruct k as [|k]; simpl in Hx.
  - injection Hx as ->. rewrite Hp in *. auto.
  - destruct (promise a) eqn:E.
    + exfalso. pose proof (chained_allQueued Queued r H (or_introl eq_refl))
        as Q.
      apply nth_error_In in Hx.
      rewrite (proj1 (Forall_forall _ _) Q x Hx) in Hp. discriminate.
    + exfalso.
      pose proof (chained_allQueued Outstanding r H (or_intror eq_refl)) as Q.
      apply nth_error_In in Hx.
      rewrite (proj1 (Forall_forall _ _) Q x Hx) in Hp. discriminate.
    + now apply (IH (Resolved response0) k).
    + assert (e = message) as -> by now apply (T r message k x e).
      auto.
Qed.

(** In a poisoned chain a job can only pass the rejection on. *)
Lemma poisoned_job (e : string) (q : list exchange) (prev : settlement) :
  poisoned e q -> isResolved prev ->
  match nextJob prev q with
  | Some (k, p, x) =>
      p = Rejected e /\ poisoned e (mark_rejected k e q)
      /\ forall j y, nth_error (mark_rejected k e q) j = Some y ->
                     isResolved (promise y) -> nth_error q j = Some y
  | None => True
  end.
Proof.
  assert (M : forall q k e j y, nth_error (mark_rejected k e q) j = Some y ->
                isResolved (promise y) -> nth_error q j = Some y).
  { clear. induction q as [|a r IH]; intros k e j y H R; [now destruct k|].
    destruct k as [|k], j as [|j]; simpl in *; auto.
    - injection H as <-. contradiction.
    - now apply (IH k e). }
  revert prev. induction q as [|a r IH]; intros prev H R; [exact I|].
  destruct prev; simpl in R; try tauto. simpl in H |- *.
  destruct (promise a) eqn:E; try tauto.
  - specialize (IH (Resolved response0) H I).
    destruct (nextJob (Resolved response0) r) as [[[k p] x]|]; [|exact I].
    destruct IH as (-> & P & N). simpl. rewrite E. repeat split; auto.
    intros [|j] y Hy Ry; simpl in *; auto.
  - destruct H as [-> H].
    destruct (nextJob (Rejected e) r) as [[[k p] x]|] eqn:J; [|exact I].
    destruct (nextJob_behind_rejected _ _ _ _ _ H J) as [-> H'].
    simpl. rewrite E. repeat split; auto.
    intros [|j] y Hy Ry; simpl in *; auto. now apply (M r k e).
Qed.

(** While no exchange awaits a reply, lines, errors and timers change
    neither the chain nor what is on the wire. *)
Lemma quiet_dataListener (c : closure) (data : string) (s : ClearCore) :
  outstanding (commandQueue s) = None ->
  commandQueue (dataListener c data s) = commandQueue s
  /\ port (dataListener c data s) = port s.
Proof.
  intros O. unfold dataListener. simpl. now rewrite settle_in_quiet.
Qed.

Lemma quiet_errorListener (k : nat) (err : string) (s : ClearCore) :
  outstanding (commandQueue s) = None ->
  commandQueue (errorListener k err s) = commandQueue s
  /\ port (errorListener k err s) = port s.
Proof.
  intros O. unfold errorListener. simpl. now rewrite settle_in_quiet.
Qed.

Lemma quiet_step (s : ClearCore) (e : event) :
  outstanding (commandQueue s) = None ->
  match e with
  | Call _ _ | Job => True
  | _ => commandQueue (step s e) = commandQueue s
         /\ written (port (step s e)) = written (port s)
  end.
Proof.
  intros O. destruct e as [c t| |data|err|k err|k|]; try exact I.
  - simpl.
    assert (G : forall l s0, outstanding (commandQueue s0) = None ->
                  commandQueue (fold_left (fun s c => dataListener c data s) l s0)
                  = commandQueue s0
                  /\ port (fold_left (fun s c => dataListener c data s) l s0)
                     = port s0).
    { induction l as [|c l IH]; intros s0 O0; simpl; [auto|].
      destruct (quiet_dataListener c data s0 O0) as [Q P].
      destruct (IH (dataListener c data s0)) as [Q' P']; [now rewrite Q|].
      now rewrite Q', P', Q, P. }
    destruct (G (dataListeners s) (with_dataListeners [] s) O) as [Q P].
    now rewrite Q, P.
  - simpl.
    assert (G : forall l s0, outstanding (commandQueue s0) = None ->
                  commandQueue
                    (fold_left (fun s c => errorListener (owner c) err s) l s0)
                  = commandQueue s0
                  /\ port
                       (fold_left (fun s c => errorListener (owner c) err s)
                          l s0)
                     = port s0).
    { induction l as [|c l IH]; intros s0 O0; simpl; [auto|].
      destruct (quiet_errorListener (owner c) err s0 O0) as [Q P].
      destruct (IH (errorListener (owner c) err s0)) as [Q' P'];
        [now rewrite Q|].
      now rewrite Q', P', Q, P. }
    destruct (G (errorListeners s) (with_errorListeners [] s) O) as [Q P].
    now rewrite Q, P.
  - simpl. destruct (isStarted k s); [|auto].
    destruct (quiet_errorListener k err s O) as [Q P]. now rewrite Q, P.
  - simpl. destruct (find _ (timers s)); [|auto].
    unfold onTimeout. simpl. now rewrite settle_in_quiet.
  - simpl. split; [reflexivity|]. now rewrite written_app, app_nil_r.
Qed.

Lemma poisoned_step (e : string) (s : ClearCore) (ev : event) :
  poisoned e (commandQueue s) ->
  poisoned e (commandQueue (step s ev))
  /\ written (port (step s ev)) = written (port s)
  /\ forall j y, nth_error (commandQueue (step s ev)) j = Some y ->
                 isResolved (promise y) -> nth_error (commandQueue s) j = Some y.
Proof.
  intros H. pose proof (poisoned_quiet _ _ H) as O.
  pose proof (quiet_step s ev O) as Q.
  destruct ev as [c t| |data|err|k err|k|];
    [ | | destruct Q as [Q P]; rewrite Q, P; now auto ..].
  - simpl. repeat split; [now apply poisoned_app_queued|].
    intros j y Hy Ry.
    destruct (Nat.lt_ge_cases j (List.length (commandQueue s))) as [L | L].
    + now rewrite nth_error_app1 in Hy.
    + rewrite nth_error_app2 in Hy by exact L.
      destruct (j - List.length (commandQueue s))%nat as [|n]; simpl in Hy.
      * injection Hy as <-. contradiction.
      * now destruct n.
  - simpl. unfold promiseJob.
    pose proof (poisoned_job e (commandQueue s) (Resolved "") H I) as J.
    destruct (nextJob (Resolved "") (commandQueue s)) as [[[k p] x]|];
      [|now auto].
    destruct J as (-> & P & N). simpl. auto.
Qed.

Lemma poisoned_status (e : string) (q : list exchange) (j : nat)
  (y : exchange) :
  poisoned e q -> nth_error q j = Some y ->
  match promise y with
  | Resolved _ | Queued => True
  | Rejected e' => e' = e
  | Outstanding => False
  end.
Proof.
  assert (T : forall q j y, chained (Rejected e) q -> nth_error q j = Some y ->
                match promise y with
                | Resolved _ | Outstanding => False
                | Rejected e' => e' = e
                | Queued => True
                end).
  { clear. induction q as [|a r IH]; intros j y H Hy; [now destruct j|].
    simpl in H. destruct (promise a) eqn:E; try tauto.
    - pose proof (chained_allQueued Queued r H (or_introl eq_refl)) as Q.
      destruct j as [|j]; simpl in Hy.
      + injection Hy as <-. now rewrite E.
      + apply nth_error_In in Hy.
        now rewrite (proj1 (Forall_forall _ _) Q y Hy).
    - destruct H as [-> H]. destruct j as [|j]; simpl in Hy.
      + injection Hy as <-. now rewrite E.
      + now apply (IH j). }
  revert j. induction q as [|a r IH]; intros j H Hy; [now destruct j|].
  simpl in H. destruct (promise a) eqn:E; try tauto.
  - destruct j as [|j]; simpl in Hy; [injection Hy as <-; now rewrite E|].
    now apply (IH j).
  - destruct H as [-> H]. destruct j as [|j]; simpl in Hy.
    + injection Hy as <-. now rewrite E.
    + specialize (T r j y H Hy). destruct (promise y); tauto.
Qed.

Lemma poisoned_run (e : string) (es : list event) (s : ClearCore) :
  poisoned e (commandQueue s) ->
  poisoned e (commandQueue (run s es))
  /\ written (port (run s es)) = written (port s)
  /\ forall j y, nth_error (commandQueue (run s es)) j = Some y ->
                 isResolved (promise y) -> nth_error (commandQueue s) j = Some y.
Proof.
  revert s. induction es as [|ev es IH]; intros s H; simpl; [auto|].
  destruct (poisoned_step e s ev H) as (P & W & N).
  destruct (IH (step s ev) P) as (P' & W' & N').
  repeat split; [exact P' | congruence |].
  intros j y Hy Ry. apply N; [|exact Ry]. now apply N'.
Qed.

(** C1, on the code: once the exchange at position [k] of a driver has
    failed with reason [e] (a timeout, a transport error or an identifier
    mismatch), whatever happens afterwards, nothing more is written to the
    transport, and every call that had not resolved before, queued then or
    made later, is either still waiting or rejected with that same reason
    [e]: it never awaits a reply of its own and never resolves. *)
Theorem one_failure_fails_every_later_exchange (serial : bool)
  (es es' : list event) (k : nat) (x : exchange) (e : string)
  (Hx : nth_error (commandQueue (run (create serial) es)) k = Some x)
  (He : promise x = Rejected e) :
  let s := run (create serial) es in
  let s' := run s es' in
  written (port s') = written (port s)
  /\ forall j y, nth_error (commandQueue s') j = Some y ->
       match promise y with
       | Resolved _ => nth_error (commandQueue s) j = Some y
       | Rejected e' => e' = e
       | Queued => True
       | Outstanding => False
       end.
Proof.
  intros s s'.
  pose proof (Inv_reachable serial es) as [I1 _ _ _]. fold s in I1, Hx.
  pose proof (rejected_poisons _ _ _ _ _ I1 I Hx He) as P.
  destruct (poisoned_run e es' s P) as (P' & W & N). fold s' in P', W, N.
  split; [exact W|].
  intros j y Hy. pose proof (poisoned_status e _ j y P' Hy) as S.
  destruct (promise y) eqn:E; auto.
  apply N; [exact Hy | now rewrite E].
Qed.

Lemma one_failure_fails_every_later_exchange_witness :
  nth_error
    (commandQueue (run (create false) [Call "A" 100; Job; TimerFired 0]))
    0
  = Some (mkExchange "A" 100 (Rejected (timeoutMessage "0;A" 100)))
  /\ written
       (port
          (run (run (create false) [Call "A" 100; Job; TimerFired 0])
             [Call "B" 100; Job; ParserData "1;0;"; Job]))
     = written (port (run (create false) [Call "A" 100; Job; TimerFired 0]))
  /\ promiseOf 1
       (run (run (create false) [Call "A" 100; Job; TimerFired 0])
          [Call "B" 100; Job; ParserData "1;0;"; Job])
     = Some (Rejected (timeoutMessage "0;A" 100)).
Proof.
  split; [reflexivity|].
  pose proof (one_failure_fails_every_later_exchange false
                [Call "A" 100; Job; TimerFired 0]
                [Call "B" 100; Job; ParserData "1;0;"; Job]
                0 (mkExchange "A" 100 (Rejected (timeoutMessage "0;A" 100)))
                (timeoutMessage "0;A" 100) eq_refl eq_refl) as H.
  cbv zeta in H. destruct H as [H _]. split; [exact H | reflexivity].
Defined.

(** C2, on the code: three operations are submitted together and the first
    one times out; one line is written, not three, and the two later calls
    are rejected with the first one's timeout without ever being written. *)
Theorem writes_stop_after_a_failure :
  written
    (port
       (run (create false)
          [Call "GET_VERSION;0" 100; Call "MOTORS_STATE;1;5" 100;
           Call "DSENSORS_STATE;1;5" 100;
           Job; TimerFired 0; Job; Job; Job]))
  = ["0;GET_VERSION;0" ++ LF]
  /\ map promise
       (commandQueue
          (run (create false)
             [Call "GET_VERSION;0" 100; Call "MOTORS_STATE;1;5" 100;
              Call "DSENSORS_STATE;1;5" 100;
              Job; TimerFired 0; Job; Job; Job]))
     = [Rejected (timeoutMessage "0;GET_VERSION;0" 100);
        Rejected (timeoutMessage "0;GET_VERSION;0" 100);
        Rejected (timeoutMessage "0;GET_VERSION;0" 100)].
Proof. split; reflexivity. Qed.

(** What does hold of every driver: at most one exchange awaits its reply,
    and the lines written are those of the first calls, in the order of the
    calls. *)
Lemma exchanges_are_serialized (serial : bool) (es : list event) :
  let s := run (create serial) es in
  (countOutstanding (commandQueue s) <= 1)%nat
  /\ written (port s)
     = lines 0 (firstn (started (commandQueue s))
                  (map command (commandQueue s))).
Proof.
  intros s. pose proof (Inv_reachable serial es) as [I1 I2 _ _].
  split; [now apply (chained_one_outstanding (Resolved "")) | exact I2].
Qed.

(** A line is written only by the job that finds every earlier exchange
    resolved. *)
Lemma write_follows_resolution (serial : bool) (es : list event) (e : event) :
  let s := run (create serial) es in
  written (port (step s e)) = written (port s)
  \/ (e = Job
      /\ Forall (fun y => isResolved (promise y))
           (firstn (List.length (written (port s))) (commandQueue s))
      /\ exists line, written (port (step s e)) = (written (port s) ++ [line])%list).
Proof.
  intros s. pose proof (Inv_reachable serial es) as H. fold s in H.
  pose proof H as [I1 I2 I3 I4].
  destruct e as [c t| |data|err|k err|k|].
  - now left.
  - simpl. unfold promiseJob.
    destruct (nextJob (Resolved "") (commandQueue s)) as [[[k p] x]|] eqn:J;
      [|now left].
    destruct p as [| |v|e]; try now left.
    right. destruct (job_starts _ _ _ _ _ I1 I J)
      as (A1 & A2 & A3 & A4 & A5 & A6 & A7 & A8).
    split; [reflexivity|]. split.
    + rewrite I2, length_lines, length_firstn, length_map, A2.
      replace (Nat.min k (List.length (commandQueue s))) with k
        by (assert (k < List.length (commandQueue s))%nat
              by (apply nth_error_Some; congruence); lia).
      exact A8.
    + unfold executor, resetBuffer. simpl.
      destruct (isSerialPort s); simpl; rewrite ?written_app; simpl;
        rewrite ?app_nil_r; eauto.
  - destruct (outstanding (commandQueue s)) as [k|] eqn:O.
    + rewrite (step_ParserData_outstanding _ _ _ H O). now left.
    + rewrite (step_ParserData_idle _ _ H O). now left.
  - left. simpl.
    assert (G : forall l s0, port (fold_left
                    (fun s c => errorListener (owner c) err s) l s0) = port s0).
    { induction l as [|c l IH]; intros s0; simpl; [reflexivity|].
      now rewrite IH. }
    now rewrite G.
  - left. simpl. now destruct (isStarted k s).
  - left. simpl. now destruct (find _ (timers s)).
  - left. simpl. now rewrite written_app, app_nil_r.
Qed.

(* ================================================================= *)
(** * The buffer reset *)

(** C5, on the code: the executor of an exchange calls [flush] on a serial
    port and writes the command line at once, in the same turn: nothing is
    put on the transport's log between the call of [flush] and the write, so
    the flush has not completed when the line is written.  On a transport
    without flush support the reset does nothing.  For one [GET_VERSION] on
    a serial port, the line is written while the flush is in progress. *)
Theorem write_does_not_wait_for_flush :
  (forall (k : nat) (x : exchange) (s : ClearCore),
      port (executor k x s)
      = (port s ++ (if isSerialPort s then [FlushCalled] else [])
           ++ [Written (String_of_Z (commandIdCounter s) ++ ";" ++ command x
                          ++ LF)])%list)
  /\ (forall s : ClearCore,
         resetBuffer s = if isSerialPort s then emit FlushCalled s else s)
  /\ port (run (create true) [Call "GET_VERSION;0" 100; Job])
     = [FlushCalled; Written ("0;GET_VERSION;0" ++ LF)]
  /\ flushesInProgress 0
       (port (run (create true) [Call "GET_VERSION;0" 100; Job]))
     = 1%nat
  /\ port (run (create true) [Call "GET_VERSION;0" 100; Job; FlushDone])
     = [FlushCalled; Written ("0;GET_VERSION;0" ++ LF); FlushCompleted].
Proof.
  split; [|split; [reflexivity | split; [reflexivity | split; reflexivity]]].
  intros k x s. unfold executor, resetBuffer.
  destruct (isSerialPort s); simpl; rewrite ?append_assoc;
    rewrite <- ?app_assoc; reflexivity.
Qed.

(* ================================================================= *)
(** * Sessions without failure *)

Lemma digits_uint (d : Decimal.uint) (acc : Z) :
  digits (Some acc) (NilEmpty.string_of_uint d) = Some (uintValue acc d).
Proof.
  revert acc. induction d; intros acc; cbn [NilEmpty.string_of_uint uintValue];
    [reflexivity | ..]; cbn [digits]; apply IHd.
Qed.

Lemma uintValue_acc (d : Decimal.uint) (acc : positive) :
  Z.pos (Pos.of_uint_acc d acc) = uintValue (Z.pos acc) d.
Proof.
  revert acc. induction d; intros acc; cbn [Pos.of_uint_acc uintValue];
    [reflexivity | ..]; rewrite IHd; f_equal; lia.
Qed.

Lemma uintValue_of_uint (d : Decimal.uint) :
  Z.of_N (Pos.of_uint d) = uintValue 0 d.
Proof.
  induction d; cbn [Pos.of_uint uintValue]; [reflexivity | exact IHd | ..];
    cbn [Z.of_N]; apply uintValue_acc.
Qed.

Lemma uint_noWhiteSpace (d : Decimal.uint) :
  noWhiteSpace (NilEmpty.string_of_uint d) = true.
Proof. induction d; simpl; auto. Qed.

Lemma trimEnd_noWhiteSpace (s : string) : noWhiteSpace s = true -> trimEnd s = s.
Proof.
  induction s as [|c r IH]; intros H; [reflexivity|].
  simpl in H. apply andb_true_iff in H as [Hc Hr].
  cbn [trimEnd]. rewrite (IH Hr). apply negb_true_iff in Hc. rewrite Hc.
  now destruct r.
Qed.

Lemma trim_noWhiteSpace (s : string) : noWhiteSpace s = true -> trim s = s.
Proof.
  intros H. unfold trim.
  replace (trimStart s) with s; [now apply trimEnd_noWhiteSpace|].
  destruct s as [|c r]; [reflexivity|]. simpl in *.
  apply andb_true_iff in H as [Hc _]. apply negb_true_iff in Hc.
  now rewrite Hc.
Qed.

(** [parseInt] reads back the identifier that the template literal wrote. *)
Lemma receivedId_String_of_Z (z : Z) :
  0 <= z -> receivedId (String_of_Z z) = Num z.
Proof.
  intros Hz. unfold receivedId.
  destruct z as [|p|p]; [reflexivity | | lia].
  unfold String_of_Z. cbn [Z.to_int NilZero.string_of_int].
  pose proof (DecimalPos.Unsigned.of_to p) as E.
  pose proof (uintValue_of_uint (Pos.to_uint p)) as V. rewrite E in V.
  cbn [Z.of_N] in V.
  pose proof (uint_noWhiteSpace (Pos.to_uint p)) as W.
  destruct (Pos.to_uint p) as [|d|d|d|d|d|d|d|d|d|d] eqn:D;
    [discriminate E | ..];
    unfold NilZero.string_of_uint; rewrite trim_noWhiteSpace by exact W;
    rewrite split_single by apply uint_no_delimiter;
    unfold at_or, parseInt; cbn [nth NilEmpty.string_of_uint trimStart];
    cbn [uintValue] in V;
    match goal with
    | |- context [isWhiteSpace ?c] =>
        change (isWhiteSpace c) with false; cbv iota
    end;
    cbn [digits];
    match goal with
    | |- context [digit ?c] =>
        let v := eval cbv in (digit c) in change (digit c) with v; cbv iota
    end;
    rewrite digits_uint, <- V; f_equal; lia.
Qed.

Lemma nextJob_all_resolved (q : list exchange) (prev : settlement)
  (x : exchange) :
  Forall (fun y => isResolved (promise y)) q -> isResolved prev ->
  promise x = Queued ->
  exists v, nextJob prev (q ++ [x]) = Some (List.length q, Resolved v, x).
Proof.
  intros H. revert prev. induction H as [|a r Ha Hr IH]; intros prev R Hx.
  - destruct prev; simpl in R; try tauto. simpl. rewrite Hx. eauto.
  - simpl. destruct (promise a) eqn:E; simpl in Ha; try tauto.
    destruct (IH (Resolved response) I Hx) as [v ->]. eauto.
Qed.

Lemma settle_marked (q : list exchange) (x : exchange) (r : settlement) :
  settle_in (List.length q) r (mark_outstanding (List.length q) (q ++ [x]))
  = (q ++ [mkExchange (command x) (timeoutMs x) r])%list.
Proof. induction q as [|a q IH]; simpl; [reflexivity | now rewrite IH]. Qed.

Lemma commandQueue_executor (k : nat) (x : exchange) (s : ClearCore) :
  commandQueue (executor k x s) = mark_outstanding k (commandQueue s).
Proof. unfold executor, resetBuffer. now destruct (isSerialPort s). Qed.

Lemma all_resolved_started (q : list exchange) :
  Forall (fun y => isResolved (promise y)) q -> started q = List.length q.
Proof.
  intros H. induction H as [|a r Ha Hr IH]; simpl; [reflexivity|].
  destruct (promise a); simpl in Ha; try tauto. now rewrite IH.
Qed.

(** One more successful exchange. *)
Lemma healthy_exchange (s : ClearCore) (c : string) (t : Z) :
  Inv s -> Forall (fun y => isResolved (promise y)) (commandQueue s) ->
  let k := List.length (commandQueue s) in
  let s' := run s [Call c t; Job;
                   ParserData (String_of_Z (Z.of_nat k mod MAX_COMMAND_ID))] in
  Inv s'
  /\ Forall (fun y => isResolved (promise y)) (commandQueue s')
  /\ map command (commandQueue s') = (map command (commandQueue s) ++ [c])%list.
Proof.
  intros H A k s'.
  assert (H' : Inv s') by (unfold s'; now apply Inv_run).
  split; [exact H'|].
  set (x := mkExchange c t Queued).
  set (s1 := sendCommand c t s).
  assert (H1 : Inv s1) by now apply Inv_sendCommand.
  destruct (nextJob_all_resolved (commandQueue s) (Resolved "") x A I eq_refl)
    as [v J].
  assert (E2 : step s1 Job = executor k x s1).
  { simpl. unfold promiseJob. unfold s1 at 1. simpl. fold x. now rewrite J. }
  assert (Q2 : commandQueue (step s1 Job)
               = mark_outstanding k (commandQueue s ++ [x])).
  { rewrite E2. apply commandQueue_executor. }
  pose proof (Inv_step s1 Job H1) as H2.
  pose proof H1 as [I1 _ _ _].
  assert (J1 : nextJob (Resolved "") (commandQueue s1) = Some (k, Resolved v, x))
    by exact J.
  destruct (job_starts _ _ _ _ _ I1 I J1) as (_ & _ & _ & _ & _ & O2 & _).
  rewrite <- commandQueue_executor with (x := x) (s := s1), <- E2 in O2.
  assert (Q3 : commandQueue s'
               = (commandQueue s
                  ++ [mkExchange c t
                        (verdict (Z.of_nat k mod MAX_COMMAND_ID)
                           (String_of_Z (Z.of_nat k mod MAX_COMMAND_ID)))])%list).
  { unfold s'. cbn [run fold_left]. fold s1.
    rewrite (step_ParserData_outstanding _ _ _ H2 O2). cbn [commandQueue].
    rewrite Q2. apply settle_marked. }
  assert (V : verdict (Z.of_nat k mod MAX_COMMAND_ID)
                (String_of_Z (Z.of_nat k mod MAX_COMMAND_ID))
              = Resolved (trim (String_of_Z (Z.of_nat k mod MAX_COMMAND_ID)))).
  { unfold verdict. rewrite receivedId_String_of_Z.
    - simpl. now rewrite Z.eqb_refl.
    - apply Z.mod_pos_bound. reflexivity. }
  rewrite Q3, V. split.
  - apply Forall_app. split; [exact A | repeat constructor].
  - now rewrite map_app.
Qed.

Lemma healthy_session (cmds : list string) (s : ClearCore) :
  Inv s -> Forall (fun y => isResolved (promise y)) (commandQueue s) ->
  let s' := run s (healthySession (List.length (commandQueue s)) cmds) in
  Inv s'
  /\ Forall (fun y => isResolved (promise y)) (commandQueue s')
  /\ map command (commandQueue s') = (map command (commandQueue s) ++ cmds)%list.
Proof.
  revert s. induction cmds as [|c r IH]; intros s H A.
  - simpl. rewrite app_nil_r. auto.
  - destruct (healthy_exchange s c defaultTimeoutMs H A) as (H1 & A1 & M1).
    cbv zeta in H1, A1, M1.
    set (s1 := run s [Call c defaultTimeoutMs; Job;
                      ParserData
                        (String_of_Z
                           (Z.of_nat (List.length (commandQueue s))
                            mod MAX_COMMAND_ID))]) in *.
    assert (L : List.length (commandQueue s1) = S (List.length (commandQueue s))).
    { rewrite <- (length_map command (commandQueue s1)), M1, length_app.
      rewrite length_map. simpl. lia. }
    destruct (IH s1 H1 A1) as (H2 & A2 & M2). cbv zeta in H2, A2, M2.
    rewrite L in H2, A2, M2.
    change (run s (healthySession (List.length (commandQueue s)) (c :: r)))
      with (run s1 (healthySession (S (List.length (commandQueue s))) r)).
    cbv zeta. split; [exact H2 | split; [exact A2|]].
    rewrite M2, M1, <- app_assoc. reflexivity.
Qed.

(** In a session of [N] exchanges that all succeed, the lines written carry
    the commands in the order of the calls, with identifiers 0, 1, 2, ...
    modulo 1000000. *)
Lemma healthy_session_written (serial : bool) (cmds : list string) :
  written (port (run (create serial) (healthySession 0 cmds))) = lines 0 cmds
  /\ List.length
       (commandQueue (run (create serial) (healthySession 0 cmds)))
     = List.length cmds.
Proof.
  destruct (healthy_session cmds (create serial) (Inv_create serial)
              (Forall_nil _)) as (H & A & M).
  cbv zeta in H, A, M. change (List.length (commandQueue (create serial)))
    with O in *. simpl in M.
  destruct H as [_ I2 _ _].
  rewrite I2, (all_resolved_started _ A), M.
  rewrite <- (length_map command), M, firstn_all. auto.
Qed.

(* ================================================================= *)
(** * Command identifiers *)

(** C4: on a fresh dispatcher the [k]-th line written (counting from 0)
    carries the identifier [k mod 1000000] in front of the command of the
    [k]-th call: the identifiers of the first exchanges are 0, 1, 2, ...,
    every identifier lies in [0, 1000000), and the identifier comes back to
    0 after 1000000 exchanges.  In particular, in a session of [N] exchanges
    that all succeed the lines written carry the identifiers 0, 1, ...,
    [N - 1] modulo 1000000. *)
Theorem identifiers_count_up (serial : bool) (es : list event) (k : nat)
  (line : string)
  (Hline : nth_error (written (port (run (create serial) es))) k = Some line) :
  let s := run (create serial) es in
  let id := Z.of_nat k mod MAX_COMMAND_ID in
  (exists x, nth_error (commandQueue s) k = Some x
             /\ line = String_of_Z id ++ ";" ++ command x ++ LF)
  /\ 0 <= id < 1000000
  /\ (if Z.of_nat k <? 1000000 then id = Z.of_nat k else True)
  /\ Z.of_nat (Z.to_nat 1000000) mod MAX_COMMAND_ID = 0
  /\ Z.of_nat (k + Z.to_nat 1000000) mod MAX_COMMAND_ID = id
  /\ commandIdCounter s
     = Z.of_nat (List.length (written (port s))) mod MAX_COMMAND_ID
  /\ (forall cmds : list string,
        written (port (run (create serial) (healthySession 0 cmds)))
        = lines 0 cmds).
Proof.
  intros s id. pose proof (Inv_reachable serial es) as H. fold s in H, Hline.
  destruct (written_line s k line H Hline) as (Hk & x & Hx & ->).
  split; [now exists x|].
  unfold id, MAX_COMMAND_ID.
  split; [apply Z.mod_pos_bound; lia|].
  split.
  { destruct (Z.ltb_spec (Z.of_nat k) 1000000); [|exact I].
    apply Z.mod_small. lia. }
  split; [now rewrite Z2Nat.id by lia|].
  split.
  { rewrite Nat2Z.inj_add, Z2Nat.id by lia.
    replace (Z.of_nat k + 1000000) with (Z.of_nat k + 1 * 1000000) by lia.
    apply Z.mod_add. lia. }
  split; [|intros cmds; apply healthy_session_written].
  destruct H as [I1 I2 I3 I4]. rewrite I3, I2, length_lines, length_firstn.
  rewrite length_map.
  pose proof (started_le_length (commandQueue s)).
  now rewrite Nat.min_l by lia.
Qed.

Lemma identifiers_count_up_witness :
  nth_error
    (written
       (port
          (run (create false)
             [Call "GET_VERSION;0" 100; Call "MOTORS_STATE;1;5" 100; Job;
              ParserData "0;0;1;"; Job; ParserData "1;0;"; 
              Call "MOTORS_HOME;1;5" 100; Job])))
    2
  = Some ("2;MOTORS_HOME;1;5" ++ LF)
  /\ 0 <= Z.of_nat 2 mod MAX_COMMAND_ID < 1000000.
Proof.
  split; [reflexivity|].
  pose proof (identifiers_count_up false
                [Call "GET_VERSION;0" 100; Call "MOTORS_STATE;1;5" 100; Job;
                 ParserData "0;0;1;"; Job; ParserData "1;0;"; 
                 Call "MOTORS_HOME;1;5" 100; Job]
                2 ("2;MOTORS_HOME;1;5" ++ LF) eq_refl) as H.
  cbv zeta in H. destruct H as (_ & H & _). exact H.
Defined.

(* ================================================================= *)
(** * More on selectors *)

Lemma ToInt32_bounds (z : Z) : - 2 ^ 31 <= ToInt32 z < 2 ^ 31.
Proof.
  unfold ToInt32. pose proof (Z.mod_pos_bound z (2 ^ 32) ltac:(lia)).
  destruct (Z.leb_spec (2 ^ 31) (z mod 2 ^ 32)); lia.
Qed.

Lemma selector_ToInt32 (ids : list Z) : ToInt32 (selector ids) = selector ids.
Proof. apply fold_selector_ToInt32. reflexivity. Qed.

(** The sign of a 32-bit integer is its bit 31. *)
Lemma int32_sign (v : Z) :
  - 2 ^ 31 <= v < 2 ^ 31 -> Z.testbit v 31 = (v <? 0).
Proof.
  intros Hv. rewrite <- (Z.mod_pow2_bits_low v 32 31) by lia.
  destruct (Z.ltb_spec v 0).
  - replace (v mod 2 ^ 32) with (v + 2 ^ 32).
    + apply Z.testbit_true; [lia|].
      replace ((v + 2 ^ 32) / 2 ^ 31) with 1; [reflexivity|].
      apply Z.div_unique with (r := v + 2 ^ 31); lia.
    + apply Z.mod_unique with (q := -1); lia.
  - rewrite Z.mod_small by lia.
    apply Z.testbit_false; [lia|]. now rewrite Z.div_small by lia.
Qed.

Lemma selects_app (i : Z) (a b : list Z) :
  selects i (a ++ b) = selects i a || selects i b.
Proof. unfold selects. apply existsb_app. Qed.

(** X1: a selector built from indices between 0 and 31 can be read back:
    bit [i] is set exactly when [i] is one of the indices, whatever their
    order and however often they are repeated. *)
Theorem selector_round_trip (ids : list Z) (i : Z)
  (Hids : Forall (fun m => 0 <= m < 32) ids) (Hi : 0 <= i < 32) :
  Z.testbit (selector ids) i = true <-> In i ids.
Proof.
  rewrite selector_testbit by exact Hi. rewrite selects_In.
  split.
  - intros (m & Hm & E).
    pose proof (proj1 (Forall_forall _ _) Hids m Hm) as Rm. cbv beta in Rm.
    replace i with m; [exact Hm|].
    rewrite <- E. change 31 with (Z.ones 5).
    rewrite Z.land_ones by lia. symmetry. apply Z.mod_small. lia.
  - intros Hin. exists i. split; [exact Hin|].
    change 31 with (Z.ones 5). rewrite Z.land_ones by lia.
    apply Z.mod_small. lia.
Qed.

Lemma selector_round_trip_witness :
  Forall (fun m => 0 <= m < 32) [2; 0; 2]
  /\ 0 <= 2 < 32
  /\ Z.testbit (selector [2; 0; 2]) 2 = true.
Proof.
  assert (H : Forall (fun m => 0 <= m < 32) [2; 0; 2])
    by (repeat constructor; lia).
  split; [exact H|]. split; [lia|].
  apply (selector_round_trip [2; 0; 2] 2 H ltac:(lia)). left. reflexivity.
Defined.

(** X2: a selector is a signed 32-bit integer and no index is refused.  An
    index counts modulo 32, so index 32 selects resource 0; the selector is
    negative exactly when an index selects bit 31; the selector of no index
    is 0, and the selector of two lists together is the bitwise or of their
    selectors. *)
Theorem selector_is_int32 (ids ids' : list Z) :
  - 2 ^ 31 <= selector ids < 2 ^ 31
  /\ selector (map (fun m => Z.land m 31) ids) = selector ids
  /\ selector (map (fun m => m + 32) ids) = selector ids
  /\ (selector ids <? 0) = selects 31 ids
  /\ selector [] = 0
  /\ selector (ids ++ ids') = bor (selector ids) (selector ids').
Proof.
  assert (R : - 2 ^ 31 <= selector ids < 2 ^ 31).
  { rewrite <- selector_ToInt32. apply ToInt32_bounds. }
  assert (L : forall (f : Z -> Z),
             (forall m, Z.land (f m) 31 = Z.land m 31) ->
             selector (map f ids) = selector ids).
  { intros f Hf. apply selector_ext. intros i _. unfold selects. clear R.
    induction ids as [|m r IH]; simpl; [reflexivity|].
    rewrite Hf. f_equal. apply IH. }
  split; [exact R|]. split; [|split; [|split; [|split]]].
  - apply L. intros m. rewrite <- Z.land_assoc. reflexivity.
  - apply L. intros m. change 31 with (Z.ones 5).
    rewrite !Z.land_ones by lia.
    replace (m + 32) with (m + 1 * 2 ^ 5) by lia. apply Z.mod_add. lia.
  - rewrite <- int32_sign by exact R. apply selector_testbit. lia.
  - reflexivity.
  - rewrite <- (selector_ToInt32 (ids ++ ids')), <- bor_ToInt32.
    apply ToInt32_ext. intros i Hi.
    now rewrite bor_testbit, !selector_testbit, selects_app.
Qed.

(* ================================================================= *)
(** * Decoding replies *)

(** [parseInt] reads back every integer that a template literal renders. *)
Lemma parseInt_String_of_Z (z : Z) : parseInt (String_of_Z z) = Num z.
Proof.
  destruct z as [|p|p]; [reflexivity | |];
    unfold String_of_Z; cbn [Z.to_int NilZero.string_of_int];
    pose proof (DecimalPos.Unsigned.of_to p) as E;
    pose proof (uintValue_of_uint (Pos.to_uint p)) as V; rewrite E in V;
    cbn [Z.of_N] in V;
    (destruct (Pos.to_uint p) as [|d|d|d|d|d|d|d|d|d|d] eqn:D;
     [discriminate E | ..]);
    unfold NilZero.string_of_uint, parseInt;
    cbn [NilEmpty.string_of_uint trimStart uintValue] in V |- *;
    repeat match goal with
    | |- context [isWhiteSpace ?c] =>
        change (isWhiteSpace c) with false; cbv iota
    end;
    cbn [digits];
    match goal with
    | |- context [digit ?c] =>
        let v := eval cbv in (digit c) in change (digit c) with v; cbv iota
    end;
    rewrite digits_uint, <- V; f_equal; lia.
Qed.

Lemma split_join_fields (xs : list string) :
  Forall (fun f => hasDelimiter f = false) xs -> xs <> [] ->
  split (join xs) = xs.
Proof.
  intros H Hne. rewrite split_join by exact Hne. clear Hne.
  induction H as [|x r Hx Hr IH]; [reflexivity|].
  simpl. now rewrite (split_single x Hx), IH.
Qed.

Lemma delimiter_free_numbers (vs : list Z) :
  Forall (fun f => hasDelimiter f = false) (map String_of_Z vs).
Proof.
  induction vs; simpl; constructor; auto using String_of_Z_no_delimiter.
Qed.

Lemma delimiter_free_flags (bs : list bool) :
  Forall (fun f => hasDelimiter f = false) (map flag bs).
Proof. induction bs as [|[] r IH]; simpl; constructor; auto. Qed.

Lemma slice_range {A : Type} (xs : list A) (a b : nat) :
  (a <= b)%nat ->
  slice xs (Z.of_nat a) (Z.of_nat b) = firstn (b - a) (skipn a xs).
Proof.
  intros Hab. unfold slice, relativeIndex.
  destruct (Z.ltb_spec (Z.of_nat a) 0); [lia|].
  destruct (Z.ltb_spec (Z.of_nat b) 0); [lia|].
  set (len := List.length xs).
  destruct (Nat.le_gt_cases len a) as [L | L].
  - rewrite (skipn_all2 xs) by (fold len; lia).
    rewrite (skipn_all2 xs) by (fold len; lia).
    now rewrite !firstn_nil.
  - replace (Z.to_nat (Z.min (Z.of_nat a) (Z.of_nat len))) with a by lia.
    destruct (Nat.le_gt_cases b len) as [L' | L'].
    + f_equal. lia.
    + replace (Z.to_nat (Z.min (Z.of_nat b) (Z.of_nat len)
                         - Z.min (Z.of_nat a) (Z.of_nat len)))
        with (len - a)%nat by lia.
      rewrite !firstn_all2; auto; rewrite length_skipn; fold len; lia.
Qed.

Lemma payload_terminated (line : string) :
  payload (line ++ ";") = skipn 2 (split line).
Proof. rewrite payload_removelast, split_trailing. apply skipn2_snoc. Qed.

Lemma append_empty (s : string) : s ++ "" = s.
Proof. induction s as [|c r IH]; simpl; [reflexivity | now rewrite IH]. Qed.

Lemma joinEmpty_firstn_snoc (n : nat) (fields : list string) :
  joinEmpty (firstn n (fields ++ [""])) = joinEmpty (firstn n fields).
Proof.
  revert n. induction fields as [|f r IH]; intros n.
  - destruct n as [|[|n]]; reflexivity.
  - destruct n as [|n]; [reflexivity|]. simpl. now rewrite IH.
Qed.

(** X3: [getVersion] returns the concatenation of at most twenty payload
    fields: for a reply made of an identifier, a status and the fields
    [fields], with or without the trailing delimiter, the version is the
    first twenty of [fields] put together, and the rest is ignored. *)
Theorem getVersion_concatenates (a b : string) (fields : list string)
  (Hf : Forall (fun f => hasDelimiter f = false) (a :: b :: fields)) :
  getVersion_then (join (a :: b :: fields) ++ ";")
  = joinEmpty (firstn 20 fields)
  /\ getVersion_then (join (a :: b :: fields)) = joinEmpty (firstn 20 fields)
  /\ lastCommand (getVersion (create false)) = "GET_VERSION;0".
Proof.
  unfold getVersion_then.
  change 2 with (Z.of_nat 2). change 22 with (Z.of_nat 22).
  rewrite !slice_range by lia.
  rewrite split_trailing, split_join_fields by (auto; discriminate).
  repeat split. cbn [skipn app Nat.sub]. apply joinEmpty_firstn_snoc.
Qed.

Lemma getVersion_concatenates_witness :
  Forall (fun f => hasDelimiter f = false) ["0"; "0"; "1"; "2"; "10"]
  /\ getVersion_then "0;0;1;2;10;" = "1210".
Proof.
  assert (H : Forall (fun f => hasDelimiter f = false)
                ["0"; "0"; "1"; "2"; "10"]) by (repeat constructor).
  split; [exact H|].
  exact (proj1 (getVersion_concatenates "0" "0" ["1"; "2"; "10"] H)).
Defined.

(** X4: [expansionBoardsState] reads the two numbers that follow the status
    field, whatever their sign, when they are safe integers.  A reply that
    stops after the status field gives 0 and 0; a reply whose payload is
    empty but delimited gives [NaN] boards; a reply with one number only
    gives [NaN] ports when it is delimited. *)
Theorem expansionBoardsState_decodes (a b : string) (boards ports : Z)
  (Ha : hasDelimiter a = false) (Hb : hasDelimiter b = false)
  (Hboards : isSafeInteger boards) (Hports : isSafeInteger ports) :
  expansionBoardsState_then
    (join [a; b; String_of_Z boards; String_of_Z ports] ++ ";")
  = mkBoardsState (Num boards) (Num ports)
  /\ expansionBoardsState_then
       (join [a; b; String_of_Z boards; String_of_Z ports])
     = mkBoardsState (Num boards) (Num ports)
  /\ expansionBoardsState_then (join [a; b]) = mkBoardsState (Num 0) (Num 0)
  /\ expansionBoardsState_then (join [a; b] ++ ";")
     = mkBoardsState NaN (Num 0)
  /\ expansionBoardsState_then (join [a; b; String_of_Z boards])
     = mkBoardsState (Num boards) (Num 0)
  /\ expansionBoardsState_then (join [a; b; String_of_Z boards] ++ ";")
     = mkBoardsState (Num boards) NaN.
Proof.
  pose proof (String_of_Z_no_delimiter boards) as Hn.
  pose proof (String_of_Z_no_delimiter ports) as Hp.
  unfold expansionBoardsState_then.
  rewrite !split_trailing, !split_join_fields
    by (repeat constructor; auto; discriminate).
  unfold at_or. cbn [nth app]. rewrite !parseInt_String_of_Z.
  repeat split.
Qed.

Lemma expansionBoardsState_decodes_witness :
  hasDelimiter "0" = false
  /\ isSafeInteger 2 /\ isSafeInteger 16
  /\ expansionBoardsState_then "0;0;2;16;" = mkBoardsState (Num 2) (Num 16).
Proof.
  split; [reflexivity|]. split; [reflexivity|]. split; [reflexivity|].
  exact (proj1 (expansionBoardsState_decodes "0" "0" 2 16 eq_refl eq_refl
                  eq_refl eq_refl)).
Defined.

(** X5: reading sensors is the inverse of rendering: for a reply made of an
    identifier, a status, the rendered values and the trailing delimiter,
    [readAnalogSensors] returns the integers, negative ones too, when they
    are safe integers, and [readDigitalSensors] returns the flags, one per
    field and in the order of the reply. *)
Theorem sensors_round_trip (a b : string) (vs : list Z) (bs : list bool)
  (Ha : hasDelimiter a = false) (Hb : hasDelimiter b = false)
  (Hvs : Forall isSafeInteger vs) :
  readAnalogSensors_then (join (a :: b :: map String_of_Z vs) ++ ";")
  = map Num vs
  /\ readDigitalSensors_then (join (a :: b :: map flag bs) ++ ";") = bs.
Proof.
  unfold readAnalogSensors_then, readDigitalSensors_then.
  rewrite !payload_terminated.
  rewrite !split_join_fields
    by (try discriminate; repeat constructor; auto;
        auto using delimiter_free_numbers, delimiter_free_flags).
  cbn [skipn]. rewrite !map_map. split.
  - apply map_ext. apply parseInt_String_of_Z.
  - rewrite <- (map_id bs) at 2. apply map_ext. now intros [].
Qed.

Lemma sensors_round_trip_witness :
  hasDelimiter "7" = false
  /\ Forall isSafeInteger [100; -3]
  /\ readAnalogSensors_then "7;0;100;-3;" = [Num 100; Num (-3)].
Proof.
  assert (H : Forall isSafeInteger [100; -3])
    by (repeat constructor; reflexivity).
  split; [reflexivity|]. split; [exact H|].
  exact (proj1 (sensors_round_trip "7" "0" [100; -3] [] eq_refl eq_refl H)).
Defined.

Lemma readMotors_loop_nth (parts : list string) (fuel i j : nat) :
  (List.length parts <= i + 7 * fuel)%nat ->
  nth_error (readMotors_loop fuel parts i) j
  = if (i + 7 * j <? List.length parts)%nat
    then Some (motorStateAt parts (i + 7 * j))
    else None.
Proof.
  revert i j. induction fuel as [|f IH]; intros i j H.
  - cbn [readMotors_loop].
    destruct (Nat.ltb_spec (i + 7 * j) (List.length parts)); [lia|].
    now destruct j.
  - cbn [readMotors_loop].
    destruct (Nat.ltb_spec i (List.length parts)) as [L | L].
    + destruct j as [|j].
      * cbn [nth_error]. rewrite Nat.mul_0_r, Nat.add_0_r.
        destruct (Nat.ltb_spec i (List.length parts)); [reflexivity | lia].
      * cbn [nth_error]. rewrite IH by lia.
        replace (i + 7 + 7 * j)%nat with (i + 7 * S j)%nat by lia.
        reflexivity.
    + destruct (Nat.ltb_spec (i + 7 * j) (List.length parts)); [lia|].
      now destruct j.
Qed.

Lemma is1_beyond (parts : list string) (i : nat) :
  is1 parts (List.length parts + i) = false.
Proof.
  unfold is1.
  now rewrite (proj2 (nth_error_None parts (List.length parts + i))) by lia.
Qed.

Lemma readMotors_then_nth (response : string) (j : nat) :
  nth_error (readMotors_then response) j
  = if (7 * j <? List.length (payload response))%nat
    then Some (motorStateAt (payload response) (7 * j))
    else None.
Proof.
  unfold readMotors_then. rewrite readMotors_loop_nth by lia. reflexivity.
Qed.

Lemma readMotors_then_length (response : string) :
  List.length (readMotors_then response)
  = ((List.length (payload response) + 6) / 7)%nat.
Proof.
  pose proof (readMotors_then_nth response) as N.
  set (l := readMotors_then response) in *.
  set (n := List.length (payload response)) in *.
  assert (A : (n <= 7 * List.length l)%nat).
  { pose proof (N (List.length l)) as E.
    rewrite (proj2 (nth_error_None l (List.length l))) in E by lia.
    destruct (Nat.ltb_spec (7 * List.length l) n); [discriminate | lia]. }
  assert (B : (List.length l = 0 \/ 7 * (List.length l - 1) < n)%nat).
  { destruct (List.length l) as [|m] eqn:Hl; [now left | right].
    pose proof (N m) as E.
    destruct (Nat.ltb_spec (7 * m) n); [lia|].
    apply nth_error_None in E. lia. }
  apply Nat.div_unique with (r := (n + 6 - 7 * List.length l)%nat); lia.
Qed.

(** X6: [readMotors] cuts the payload into groups of seven fields: record
    [j] of the result is built from fields [7j] to [7j + 6], and there is a
    record for every group that has at least one field.  In a last group
    that is incomplete the missing flags read as false and the missing
    numbers as 0. *)
Theorem readMotors_groups (response : string) (j i : nat) :
  let parts := payload response in
  nth_error (readMotors_then response) j
  = (if (7 * j <? List.length parts)%nat
     then Some (motorStateAt parts (7 * j))
     else None)
  /\ List.length (readMotors_then response)
     = ((List.length parts + 6) / 7)%nat
  /\ is1 parts (List.length parts + i) = false
  /\ parseInt (at_or parts (List.length parts + i) "0") = Num 0.
Proof.
  intros parts.
  split; [apply readMotors_then_nth|].
  split; [apply readMotors_then_length|]. split.
  - apply is1_beyond.
  - unfold at_or. now rewrite nth_overflow by lia.
Qed.

Lemma is1_flag (pre rest : list string) (b : bool) :
  is1 (pre ++ flag b :: rest) (List.length pre) = b.
Proof.
  unfold is1. rewrite nth_error_app2, Nat.sub_diag by lia. now destruct b.
Qed.

Lemma at_or_app (pre rest : list string) (x d : string) :
  at_or (pre ++ x :: rest) (List.length pre) d = x.
Proof. unfold at_or. now rewrite app_nth2, Nat.sub_diag by lia. Qed.

Lemma motorStateAt_fields (pre rest : list string) (m : MotorReport) :
  motorStateAt (pre ++ motorFields m ++ rest) (List.length pre)
  = motorStateOf m.
Proof.
  unfold motorStateAt, motorStateOf, motorFields. cbn [app].
  assert (S : forall k (l : list string) (xs : list string),
             List.length xs = k ->
             (pre ++ xs ++ l = (pre ++ xs) ++ l)%list
             /\ List.length (pre ++ xs) = (List.length pre + k)%nat).
  { intros k l xs <-. now rewrite app_assoc, length_app. }
  f_equal.
  - apply (is1_flag pre).
  - destruct (S 1%nat (flag (r_enabled m) :: flag (r_stepsComplete m)
                 :: flag (r_isInHardwareFault m)
                 :: String_of_Z (r_hlfbState m) :: String_of_Z (r_hlfbMode m)
                 :: String_of_Z (r_position m) :: rest)
                [flag (r_isWritable m)] eq_refl) as [E L].
    cbn [app] in E. rewrite E, <- L. apply is1_flag.
  - destruct (S 2%nat (flag (r_stepsComplete m)
                 :: flag (r_isInHardwareFault m)
                 :: String_of_Z (r_hlfbState m) :: String_of_Z (r_hlfbMode m)
                 :: String_of_Z (r_position m) :: rest)
                [flag (r_isWritable m); flag (r_enabled m)] eq_refl) as [E L].
    cbn [app] in E. rewrite E, <- L. apply is1_flag.
  - destruct (S 3%nat (flag (r_isInHardwareFault m)
                 :: String_of_Z (r_hlfbState m) :: String_of_Z (r_hlfbMode m)
                 :: String_of_Z (r_position m) :: rest)
                [flag (r_isWritable m); flag (r_enabled m);
                 flag (r_stepsComplete m)] eq_refl) as [E L].
    cbn [app] in E. rewrite E, <- L. apply is1_flag.
  - destruct (S 4%nat (String_of_Z (r_hlfbState m) :: String_of_Z (r_hlfbMode m)
                 :: String_of_Z (r_position m) :: rest)
                [flag (r_isWritable m); flag (r_enabled m);
                 flag (r_stepsComplete m); flag (r_isInHardwareFault m)]
                eq_refl) as [E L].
    cbn [app] in E. rewrite E, <- L, at_or_app. apply parseInt_String_of_Z.
  - destruct (S 5%nat (String_of_Z (r_hlfbMode m)
                 :: String_of_Z (r_position m) :: rest)
                [flag (r_isWritable m); flag (r_enabled m);
                 flag (r_stepsComplete m); flag (r_isInHardwareFault m);
                 String_of_Z (r_hlfbState m)] eq_refl) as [E L].
    cbn [app] in E. rewrite E, <- L, at_or_app. apply parseInt_String_of_Z.
  - destruct (S 6%nat (String_of_Z (r_position m) :: rest)
                [flag (r_isWritable m); flag (r_enabled m);
                 flag (r_stepsComplete m); flag (r_isInHardwareFault m);
                 String_of_Z (r_hlfbState m); String_of_Z (r_hlfbMode m)]
                eq_refl) as [E L].
    cbn [app] in E. rewrite E, <- L, at_or_app. apply parseInt_String_of_Z.
Qed.

Lemma readMotors_loop_reports (ms : list MotorReport) (pre : list string)
  (fuel : nat) :
  (List.length ms <= fuel)%nat ->
  readMotors_loop fuel (pre ++ flat_map motorFields ms) (List.length pre)
  = map motorStateOf ms.
Proof.
  revert pre fuel. induction ms as [|m r IH]; intros pre fuel H.
  - simpl. rewrite app_nil_r. destruct fuel; [reflexivity|]. simpl.
    now rewrite Nat.ltb_irrefl.
  - destruct fuel as [|f]; [simpl in H; lia|].
    cbn [readMotors_loop flat_map map].
    destruct (Nat.ltb_spec (List.length pre)
                (List.length (pre ++ motorFields m ++ flat_map motorFields r)))
      as [L | L]; [|rewrite length_app in L; simpl in L; lia].
    fold (motorStateAt (pre ++ motorFields m ++ flat_map motorFields r)
            (List.length pre)).
    rewrite motorStateAt_fields. f_equal.
    rewrite app_assoc.
    replace (List.length pre + 7)%nat
      with (List.length (pre ++ motorFields m))
      by (rewrite length_app; reflexivity).
    apply IH. simpl in H. lia.
Qed.

Lemma delimiter_free_reports (ms : list MotorReport) :
  Forall (fun f => hasDelimiter f = false) (flat_map motorFields ms).
Proof.
  induction ms as [|m r IH]; [constructor|].
  cbn [flat_map]. apply Forall_app. split; [|exact IH].
  unfold motorFields.
  repeat constructor; auto using String_of_Z_no_delimiter;
    match goal with |- hasDelimiter (flag ?b) = false => now destruct b end.
Qed.

(** X7: [readMotors] is the inverse of the controller's report: for a reply
    made of an identifier, a status, seven fields per motor (four flags as 0
    or 1, then three safe integers) and the trailing delimiter, it returns
    one record per motor, in the order of the reply, with the same flags and
    integers. *)
Theorem readMotors_round_trip (a b : string) (ms : list MotorReport)
  (Ha : hasDelimiter a = false) (Hb : hasDelimiter b = false)
  (Hms : Forall (fun m => isSafeInteger (r_hlfbState m)
                          /\ isSafeInteger (r_hlfbMode m)
                          /\ isSafeInteger (r_position m)) ms) :
  readMotors_then (join (a :: b :: flat_map motorFields ms) ++ ";")
  = map motorStateOf ms.
Proof.
  unfold readMotors_then. rewrite payload_terminated.
  rewrite split_join_fields
    by (try discriminate; repeat constructor; auto;
        apply delimiter_free_reports).
  cbn [skipn].
  apply (readMotors_loop_reports ms []).
  rewrite (length_flat_map_const motorFields 7) by reflexivity. lia.
Qed.

Lemma readMotors_round_trip_witness :
  hasDelimiter "0" = false
  /\ Forall (fun m => isSafeInteger (r_hlfbState m)
                      /\ isSafeInteger (r_hlfbMode m)
                      /\ isSafeInteger (r_position m))
       [mkMotorReport true true true false 1 0 100;
        mkMotorReport true false true false 1 0 (-200)]
  /\ readMotors_then "0;0;1;1;1;0;1;0;100;1;0;1;0;1;0;-200;"
     = [mkMotorState true true true false (Num 1) (Num 0) (Num 100);
        mkMotorState true false true false (Num 1) (Num 0) (Num (-200))].
Proof.
  assert (H : Forall (fun m => isSafeInteger (r_hlfbState m)
                               /\ isSafeInteger (r_hlfbMode m)
                               /\ isSafeInteger (r_position m))
                [mkMotorReport true true true false 1 0 100;
                 mkMotorReport true false true false 1 0 (-200)])
    by (repeat constructor; reflexivity).
  split; [reflexivity|]. split; [exact H|].
  exact (readMotors_round_trip "0" "0"
           [mkMotorReport true true true false 1 0 100;
            mkMotorReport true false true false 1 0 (-200)] eq_refl eq_refl H).
Defined.

(** X8: the read operations return as many values as there are fields
    between the status field and the last field: the number of fields of the
    reply minus three (none for a bare acknowledgement), and a seventh of
    that, rounded up, for [readMotors]. *)
Theorem read_result_lengths (response : string) :
  List.length (payload response) = (List.length (split response) - 3)%nat
  /\ List.length (readDigitalSensors_then response)
     = (List.length (split response) - 3)%nat
  /\ List.length (readAnalogSensors_then response)
     = (List.length (split response) - 3)%nat
  /\ List.length (readMotors_then response)
     = ((List.length (split response) - 3 + 6) / 7)%nat.
Proof.
  assert (P : List.length (payload response)
              = (List.length (split response) - 3)%nat).
  { rewrite payload_removelast, removelast_firstn_len, length_firstn.
    rewrite length_skipn. lia. }
  unfold readDigitalSensors_then, readAnalogSensors_then.
  rewrite !length_map, <- P. repeat split.
  apply readMotors_then_length.
Qed.

(* ================================================================= *)
(** * Timeouts and transport errors *)

Lemma step_TimerFired_outstanding (s : ClearCore) (k : nat) (x : exchange) :
  Inv s -> outstanding (commandQueue s) = Some k ->
  nth_error (commandQueue s) k = Some x ->
  step s (TimerFired k)
  = mkClearCore (isSerialPort s)
      (settle_in k
         (Rejected
            (timeoutMessage
               (String_of_Z (Z.of_nat k mod MAX_COMMAND_ID) ++ ";" ++ command x)
               (timeoutMs x)))
         (commandQueue s))
      (enabledMotors s) (commandIdCounter s) []
      (without k (errorListeners s)) [] (port s).
Proof.
  intros [I1 I2 I3 I4] O Hx. rewrite O in I4.
  destruct I4 as (y & Hy & Hd & Ht).
  assert (y = x) as -> by congruence.
  cbn [step]. rewrite Ht. cbn [find closureOf owner].
  rewrite Nat.eqb_refl, Hx.
  unfold onTimeout, settle, removeErrorListener, removeDataListener,
    clearTimeout.
  unfold with_queue, with_dataListeners, with_timers, with_errorListeners.
  cbn [isSerialPort commandQueue enabledMotors commandIdCounter dataListeners
         errorListeners timers port owner commandWithId].
  rewrite Hd, Ht, !without_own. reflexivity.
Qed.

Lemma step_TimerFired_other (s : ClearCore) (j : nat) :
  Inv s -> outstanding (commandQueue s) <> Some j -> step s (TimerFired j) = s.
Proof.
  intros [I1 I2 I3 I4] O. cbn [step].
  destruct (outstanding (commandQueue s)) as [k|].
  - destruct I4 as (y & Hy & Hd & Ht). rewrite Ht. cbn [find closureOf owner].
    destruct (Nat.eqb_spec k j); [congruence | reflexivity].
  - destruct I4 as [Hd Ht]. now rewrite Ht.
Qed.

Lemma step_WriteFailed_outstanding (s : ClearCore) (k : nat) (err : string) :
  Inv s -> outstanding (commandQueue s) = Some k ->
  step s (WriteFailed k err)
  = mkClearCore (isSerialPort s)
      (settle_in k (Rejected err) (commandQueue s))
      (enabledMotors s) (commandIdCounter s) [] (errorListeners s) []
      (port s).
Proof.
  intros H O. pose proof H as [I1 I2 I3 I4]. rewrite O in I4.
  destruct I4 as (y & Hy & Hd & Ht).
  destruct (settle_outstanding _ _ k (Rejected err) I1 I I O)
    as (_ & _ & _ & x & Hx & Hp & _).
  cbn [step]. unfold isStarted, promiseOf. rewrite Hx. cbn [option_map].
  rewrite Hp.
  unfold errorListener, settle, removeDataListener, clearTimeout.
  unfold with_queue, with_dataListeners, with_timers.
  cbn [isSerialPort commandQueue enabledMotors commandIdCounter dataListeners
         errorListeners timers port].
  rewrite Hd, Ht, !without_own. reflexivity.
Qed.

Lemma errorListeners_errorListener (j : nat) (err : string) (s : ClearCore) :
  errorListeners (errorListener j err s) = errorListeners s.
Proof. reflexivity. Qed.

Lemma fold_errorListener_quiet (err : string) (l : list closure)
  (s : ClearCore) :
  outstanding (commandQueue s) = None ->
  commandQueue (fold_left (fun s c => errorListener (owner c) err s) l s)
  = commandQueue s.
Proof.
  revert s. induction l as [|c l IH]; intros s O; simpl; [reflexivity|].
  destruct (quiet_errorListener (owner c) err s O) as [Q _].
  rewrite IH by (now rewrite Q). exact Q.
Qed.

Lemma fold_errorListener_listeners (err : string) (l : list closure)
  (s : ClearCore) :
  errorListeners (fold_left (fun s c => errorListener (owner c) err s) l s)
  = errorListeners s
  /\ port (fold_left (fun s c => errorListener (owner c) err s) l s) = port s.
Proof.
  revert s. induction l as [|c l IH]; intros s; simpl; [auto|].
  destruct (IH (errorListener (owner c) err s)) as [E P].
  now rewrite E, P.
Qed.

(** An error event reaches the listener of the exchange that awaits its
    reply, and rejects that exchange. *)
Lemma fold_errorListener_outstanding (err : string) (l : list closure)
  (s : ClearCore) (k : nat) :
  Inv s -> outstanding (commandQueue s) = Some k ->
  (exists c, In c l /\ owner c = k) ->
  commandQueue (fold_left (fun s c => errorListener (owner c) err s) l s)
  = settle_in k (Rejected err) (commandQueue s).
Proof.
  revert s. induction l as [|c0 l IH]; intros s H O (c & Hc & Hk);
    [contradiction|].
  pose proof H as [I1 _ _ _]. simpl.
  destruct (Nat.eq_dec (owner c0) k) as [E | E].
  - rewrite E.
    destruct (settle_outstanding _ _ k (Rejected err) I1 I I O)
      as (_ & _ & A3 & _).
    rewrite fold_errorListener_quiet; [reflexivity | exact A3].
  - assert (Q : commandQueue (errorListener (owner c0) err s) = commandQueue s).
    { unfold errorListener. simpl.
      apply (settle_other _ _ _ _ I1 I). congruence. }
    rewrite IH.
    + now rewrite Q.
    + now apply Inv_errorListener.
    + now rewrite Q.
    + destruct Hc as [-> | Hc]; [contradiction | eauto].
Qed.

Lemma errorListeners_executor (k : nat) (x : exchange) (s : ClearCore) :
  errorListeners (executor k x s)
  = (errorListeners s
     ++ [mkClosure k (commandIdCounter s)
           (String_of_Z (commandIdCounter s) ++ ";" ++ command x)])%list.
Proof. unfold executor, resetBuffer. now destruct (isSerialPort s). Qed.

Lemma errorListenerRegistered_step (s : ClearCore) (e : event) :
  Inv s -> errorListenerRegistered s -> errorListenerRegistered (step s e).
Proof.
  intros H R. pose proof H as [I1 I2 I3 I4]. unfold errorListenerRegistered in *.
  destruct e as [c t| |data|err|j err|j|].
  - simpl. rewrite outstanding_app_queued.
    destruct (outstanding (commandQueue s)) as [k|]; [|exact I].
    destruct R as (x & Hx & Hin). exists x. split; [|exact Hin].
    rewrite nth_error_app1; [exact Hx | apply nth_error_Some; congruence].
  - cbn [step]. unfold promiseJob.
    destruct (nextJob (Resolved "") (commandQueue s)) as [[[k p] x]|] eqn:J;
      [|exact R].
    destruct p as [| |v|e]; try exact R.
    + destruct (job_starts _ _ _ _ _ I1 I J)
        as (A1 & A2 & A3 & A4 & A5 & A6 & A7 & A8).
      rewrite commandQueue_executor, A6, A7, errorListeners_executor.
      eexists. split; [reflexivity|].
      apply in_or_app. right. left. unfold closureOf.
      cbn [command]. now rewrite I3, A2.
    + destruct (job_rejects _ _ _ _ _ I1 I J) as (A1 & A2 & A3 & A4).
      cbn [commandQueue with_queue]. now rewrite A4.
  - destruct (outstanding (commandQueue s)) as [k|] eqn:O.
    + rewrite (step_ParserData_outstanding _ _ _ H O). cbn [commandQueue].
      destruct (settle_outstanding _ _ k _ I1 I
                  (verdict_settled (Z.of_nat k mod MAX_COMMAND_ID) data) O)
        as (_ & _ & A3 & _).
      now rewrite A3.
    + rewrite (step_ParserData_idle _ _ H O). now rewrite O.
  - cbn [step].
    destruct (outstanding (commandQueue s)) as [k|] eqn:O.
    + destruct R as (x & Hx & Hin).
      rewrite (fold_errorListener_outstanding err _ (with_errorListeners [] s) k).
      * cbn [commandQueue with_errorListeners].
        destruct (settle_outstanding _ _ k (Rejected err) I1 I I O)
          as (_ & _ & A3 & _).
        now rewrite A3.
      * now apply Inv_with_errorListeners.
      * exact O.
      * exists (closureOf k x). split; [exact Hin | reflexivity].
    + rewrite fold_errorListener_quiet by exact O.
      cbn [commandQueue with_errorListeners]. now rewrite O.
  - destruct (outstanding (commandQueue s)) as [k|] eqn:O.
    + destruct (Nat.eq_dec j k) as [-> | Hjk].
      * rewrite (step_WriteFailed_outstanding _ _ _ H O). cbn [commandQueue].
        destruct (settle_outstanding _ _ k (Rejected err) I1 I I O)
          as (_ & _ & A3 & _).
        now rewrite A3.
      * cbn [step]. destruct (isStarted j s); [|now rewrite O].
        unfold errorListener. cbn [commandQueue settle with_queue
          removeDataListener clearTimeout with_dataListeners with_timers
          errorListeners].
        rewrite (settle_other _ _ j _ I1 I) by congruence. now rewrite O.
    + cbn [step]. destruct (isStarted j s); [|now rewrite O].
      destruct (quiet_errorListener j err s O) as [Q _]. now rewrite Q, O.
  - destruct (outstanding (commandQueue s)) as [k|] eqn:O.
    + destruct (Nat.eq_dec j k) as [-> | Hjk].
      * destruct R as (x & Hx & Hin).
        rewrite (step_TimerFired_outstanding _ _ _ H O Hx). cbn [commandQueue].
        destruct (settle_outstanding _ _ k
                    (Rejected
                       (timeoutMessage
                          (String_of_Z (Z.of_nat k mod MAX_COMMAND_ID) ++ ";"
                             ++ command x) (timeoutMs x))) I1 I I O)
          as (_ & _ & A3 & _).
        now rewrite A3.
      * rewrite step_TimerFired_other by (auto; congruence). now rewrite O.
    + rewrite step_TimerFired_other by (auto; congruence). now rewrite O.
  - cbn [step emit commandQueue errorListeners]. exact R.
Qed.

Lemma errorListenerRegistered_reachable (serial : bool) (es : list event) :
  errorListenerRegistered (run (create serial) es).
Proof.
  assert (G : forall es s, Inv s -> errorListenerRegistered s ->
                errorListenerRegistered (run s es)).
  { clear. induction es as [|e es IH]; intros s H R; simpl; [exact R|].
    apply IH; [now apply Inv_step | now apply errorListenerRegistered_step]. }
  apply G; [apply Inv_create | exact I].
Qed.

Lemma promiseOf_settled (s : ClearCore) (k : nat) (r : settlement) :
  Inv s -> isSettled r -> outstanding (commandQueue s) = Some k ->
  (exists x, nth_error (commandQueue s) k = Some x
             /\ nth_error (settle_in k r (commandQueue s)) k
                = Some (mkExchange (command x) (timeoutMs x) r))
  /\ outstanding (settle_in k r (commandQueue s)) = None.
Proof.
  intros [I1 _ _ _] S O.
  destruct (settle_outstanding _ _ k r I1 I S O) as (_ & _ & A3 & x & Hx & _ & Hx').
  split; [exists x; auto | exact A3].
Qed.

(** X9: when the timer of the exchange that awaits its reply fires, that
    exchange is rejected with the message that names the line sent and the
    duration; its data listener and its timer are gone, nothing is written,
    and no other promise changes.  A reply that comes afterwards is dropped,
    and the timer of any other exchange never fires. *)
Theorem timeout_rejects_the_exchange (serial : bool) (es : list event)
  (k : nat)
  (Hout : outstanding (commandQueue (run (create serial) es)) = Some k) :
  let s := run (create serial) es in
  let s' := step s (TimerFired k) in
  (exists x,
      nth_error (commandQueue s) k = Some x
      /\ promiseOf k s'
         = Some (Rejected
                   (timeoutMessage
                      (String_of_Z (Z.of_nat k mod MAX_COMMAND_ID) ++ ";"
                         ++ command x)
                      (timeoutMs x))))
  /\ (forall j, j <> k -> promiseOf j s' = promiseOf j s)
  /\ dataListeners s' = [] /\ timers s' = [] /\ port s' = port s
  /\ (forall data, step s' (ParserData data) = s')
  /\ (forall j, j <> k -> step s (TimerFired j) = s).
Proof.
  intros s s'. pose proof (Inv_reachable serial es) as H. fold s in H, Hout.
  destruct (settle_outstanding _ _ k (Rejected "") (inv_chain s H) I I Hout)
    as (_ & _ & _ & x & Hx & _ & _).
  pose proof (step_TimerFired_outstanding s k x H Hout Hx) as E.
  fold s' in E.
  destruct (promiseOf_settled s k
              (Rejected
                 (timeoutMessage
                    (String_of_Z (Z.of_nat k mod MAX_COMMAND_ID) ++ ";"
                       ++ command x) (timeoutMs x))) H I Hout)
    as ((y & Hy & Hy') & A3).
  assert (y = x) as -> by congruence.
  split; [|split; [|split; [|split; [|split; [|split]]]]].
  - exists x. split; [exact Hx|]. unfold promiseOf. rewrite E. cbn [commandQueue]. now rewrite Hy'.
  - intros j Hj. unfold promiseOf. rewrite E. cbn [commandQueue].
    now rewrite nth_error_settle_in_other.
  - now rewrite E.
  - now rewrite E.
  - now rewrite E.
  - intros data. apply step_ParserData_idle.
    + unfold s'. now apply Inv_step.
    + rewrite E. cbn [commandQueue]. exact A3.
  - intros j Hj. apply step_TimerFired_other; [exact H | congruence].
Qed.

Lemma timeout_rejects_the_exchange_witness :
  outstanding
    (commandQueue (run (create false) [Call "GET_VERSION;0" 100; Job]))
  = Some 0%nat
  /\ step
       (step (run (create false) [Call "GET_VERSION;0" 100; Job])
          (TimerFired 0))
       (ParserData "0;0;1;")
     = step (run (create false) [Call "GET_VERSION;0" 100; Job])
         (TimerFired 0).
Proof.
  split; [reflexivity|].
  pose proof (timeout_rejects_the_exchange false
                [Call "GET_VERSION;0" 100; Job] 0 eq_refl) as H.
  cbv zeta in H. destruct H as (_ & _ & _ & _ & _ & H & _).
  apply H.
Defined.

(** X10: once a first exchange has been written, so that the parser has had
    a listener and is flowing, and while no exchange awaits a reply: a
    [data] event that the parser emits, an error of the port and a timer
    change neither a promise nor what is on the wire, and the emitted line
    is not kept for a later exchange: the state after the event is the state
    before it.  (Before the first exchange the parser has never had a
    listener and emits no [data] event at all; that state is not covered.) *)
Theorem idle_dispatcher_drops_lines (serial : bool) (es : list event)
  (data err : string) (j : nat)
  (Hflowing : written (port (run (create serial) es)) <> [])
  (Hidle : outstanding (commandQueue (run (create serial) es)) = None) :
  let s := run (create serial) es in
  step s (ParserData data) = s
  /\ step s (TimerFired j) = s
  /\ commandQueue (step s (PortError err)) = commandQueue s
  /\ port (step s (PortError err)) = port s.
Proof.
  intros s. pose proof (Inv_reachable serial es) as H. fold s in H, Hidle.
  split; [now apply step_ParserData_idle|].
  split; [apply step_TimerFired_other; [exact H | congruence]|].
  cbn [step]. split.
  - now rewrite fold_errorListener_quiet.
  - now rewrite (proj2 (fold_errorListener_listeners err _ _)).
Qed.

Lemma idle_dispatcher_drops_lines_witness :
  written
    (port
       (run (create false)
          [Call "GET_VERSION;0" 100; Job; ParserData "0;0;1;"]))
  <> []
  /\ outstanding
       (commandQueue
          (run (create false)
             [Call "GET_VERSION;0" 100; Job; ParserData "0;0;1;"]))
     = None
  /\ step
       (run (create false)
          [Call "GET_VERSION;0" 100; Job; ParserData "0;0;1;"])
       (ParserData "1;0;")
     = run (create false)
         [Call "GET_VERSION;0" 100; Job; ParserData "0;0;1;"].
Proof.
  assert (W : written
                (port
                   (run (create false)
                      [Call "GET_VERSION;0" 100; Job; ParserData "0;0;1;"]))
              <> []) by discriminate.
  split; [exact W|]. split; [reflexivity|].
  pose proof (idle_dispatcher_drops_lines false
                [Call "GET_VERSION;0" 100; Job; ParserData "0;0;1;"]
                "1;0;" "" 0 W eq_refl) as H.
  cbv zeta in H. exact (proj1 H).
Defined.

(** X11: an error event of the port while an exchange awaits its reply
    rejects that exchange with the error; its timer and its data listener
    are gone, the error listeners are all released, and no other promise
    changes. *)
Theorem port_error_rejects_the_exchange (serial : bool) (es : list event)
  (k : nat) (err : string)
  (Hout : outstanding (commandQueue (run (create serial) es)) = Some k) :
  let s := run (create serial) es in
  let s' := step s (PortError err) in
  promiseOf k s' = Some (Rejected err)
  /\ (forall j, j <> k -> promiseOf j s' = promiseOf j s)
  /\ dataListeners s' = [] /\ timers s' = [] /\ errorListeners s' = []
  /\ port s' = port s.
Proof.
  intros s s'. pose proof (Inv_reachable serial es) as H.
  pose proof (errorListenerRegistered_reachable serial es) as R.
  fold s in H, R, Hout. unfold errorListenerRegistered in R.
  rewrite Hout in R. destruct R as (x & Hx & Hin).
  assert (Q : commandQueue s' = settle_in k (Rejected err) (commandQueue s)).
  { unfold s'. cbn [step].
    rewrite (fold_errorListener_outstanding err _ (with_errorListeners [] s) k).
    - reflexivity.
    - now apply Inv_with_errorListeners.
    - exact Hout.
    - exists (closureOf k x). split; [exact Hin | reflexivity]. }
  destruct (promiseOf_settled s k (Rejected err) H I Hout)
    as ((y & Hy & Hy') & A3).
  assert (H' : Inv s') by (unfold s'; now apply Inv_step).
  pose proof (inv_listeners s' H') as L. rewrite Q, A3 in L.
  destruct L as [Ld Lt].
  destruct (fold_errorListener_listeners err (errorListeners s)
              (with_errorListeners [] s)) as [E P].
  split; [|split; [|split; [|split; [|split]]]]; auto.
  - unfold promiseOf. now rewrite Q, Hy'.
  - intros j Hj. unfold promiseOf. now rewrite Q, nth_error_settle_in_other.
Qed.

Lemma port_error_rejects_the_exchange_witness :
  outstanding
    (commandQueue (run (create true) [Call "MOTORS_HOME;1;1" 100; Job]))
  = Some 0%nat
  /\ promiseOf 0
       (step (run (create true) [Call "MOTORS_HOME;1;1" 100; Job])
          (PortError "Port is not open"))
     = Some (Rejected "Port is not open").
Proof.
  split; [reflexivity|].
  pose proof (port_error_rejects_the_exchange true
                [Call "MOTORS_HOME;1;1" 100; Job] 0 "Port is not open"
                eq_refl) as H.
  cbv zeta in H. exact (proj1 H).
Defined.

(** X12: when the write of the exchange that awaits its reply fails, the
    exchange is rejected with the error of the write, and its timer and its
    data listener are gone; but its error listener stays registered on the
    port, since the write callback calls it directly. *)
Theorem write_failure_rejects_the_exchange (serial : bool) (es : list event)
  (k : nat) (err : string)
  (Hout : outstanding (commandQueue (run (create serial) es)) = Some k) :
  let s := run (create serial) es in
  let s' := step s (WriteFailed k err) in
  promiseOf k s' = Some (Rejected err)
  /\ (forall j, j <> k -> promiseOf j s' = promiseOf j s)
  /\ dataListeners s' = [] /\ timers s' = []
  /\ errorListeners s' = errorListeners s
  /\ (exists c, In c (errorListeners s') /\ owner c = k)
  /\ port s' = port s.
Proof.
  intros s s'. pose proof (Inv_reachable serial es) as H.
  pose proof (errorListenerRegistered_reachable serial es) as R.
  fold s in H, R, Hout. unfold errorListenerRegistered in R.
  rewrite Hout in R. destruct R as (x & Hx & Hin).
  pose proof (step_WriteFailed_outstanding s k err H Hout) as E.
  fold s' in E.
  destruct (promiseOf_settled s k (Rejected err) H I Hout)
    as ((y & Hy & Hy') & A3).
  split; [|split; [|split; [|split; [|split; [|split]]]]];
    try (rewrite E; reflexivity).
  - unfold promiseOf. rewrite E. cbn [commandQueue]. now rewrite Hy'.
  - intros j Hj. unfold promiseOf. rewrite E. cbn [commandQueue].
    now rewrite nth_error_settle_in_other.
  - exists (closureOf k x). rewrite E. split; [exact Hin | reflexivity].
Qed.

Lemma write_failure_rejects_the_exchange_witness :
  outstanding
    (commandQueue (run (create true) [Call "MOTORS_HOME;1;1" 100; Job]))
  = Some 0%nat
  /\ errorListeners
       (step (run (create true) [Call "MOTORS_HOME;1;1" 100; Job])
          (WriteFailed 0 "EIO"))
     = errorListeners (run (create true) [Call "MOTORS_HOME;1;1" 100; Job]).
Proof.
  split; [reflexivity|].
  pose proof (write_failure_rejects_the_exchange true
                [Call "MOTORS_HOME;1;1" 100; Job] 0 "EIO" eq_refl) as H.
  cbv zeta in H. destruct H as (_ & _ & _ & _ & H & _). exact H.
Defined.

(** X13: in every state a driver reaches, the parser holds a data listener
    and a timer is armed exactly while an exchange awaits its reply; there
    is at most one of each, they belong to that exchange and carry its
    identifier; and the counter stays in [0, 1000000). *)
Theorem listeners_follow_the_exchange (serial : bool) (es : list event) :
  let s := run (create serial) es in
  dataListeners s = timers s
  /\ (List.length (dataListeners s) <= 1)%nat
  /\ (List.length (dataListeners s)
      = countOutstanding (commandQueue s))
  /\ Forall (fun c => outstanding (commandQueue s) = Some (owner c)
                      /\ currentCommandId c
                         = Z.of_nat (owner c) mod MAX_COMMAND_ID)
       (dataListeners s)
  /\ 0 <= commandIdCounter s < 1000000.
Proof.
  intros s. pose proof (Inv_reachable serial es) as [I1 I2 I3 I4].
  fold s in I1, I2, I3, I4.
  assert (C : forall q, outstanding q = None -> countOutstanding q = O).
  { intros q. induction q as [|a r IH]; [reflexivity|].
    unfold countOutstanding in *. simpl.
    destruct (promise a); try discriminate;
      destruct (outstanding r); try discriminate; auto. }
  assert (C1 : forall q p k, chained p q -> isResolved p ->
                 outstanding q = Some k -> countOutstanding q = 1%nat).
  { intros q. induction q as [|a r IH]; intros p k Hc Hp O; [discriminate|].
    destruct p; simpl in Hp; try tauto. simpl in Hc, O.
    unfold countOutstanding in *. simpl.
    destruct (promise a) eqn:E; simpl.
    - rewrite (chained_quiet Queued r Hc) in O by auto. discriminate.
    - f_equal. apply C. apply (chained_quiet Outstanding r Hc). auto.
    - destruct (outstanding r) as [k'|] eqn:O'; [|discriminate].
      now apply (IH (Resolved response0) k').
    - rewrite (chained_quiet _ r Hc) in O by auto. discriminate. }
  assert (B : 0 <= commandIdCounter s < 1000000).
  { rewrite I3. apply Z.mod_pos_bound. reflexivity. }
  destruct (outstanding (commandQueue s)) as [k|] eqn:O.
  - destruct I4 as (x & Hx & Hd & Ht). rewrite Hd, Ht.
    rewrite (C1 _ _ _ I1 I O).
    repeat split; auto; apply B.
  - destruct I4 as [Hd Ht]. rewrite Hd, Ht, (C _ O).
    repeat split; auto; apply B.
Qed.

(* ================================================================= *)
(** * What the identifier check accepts *)

Lemma trimEnd_app (a b : string) :
  noWhiteSpace a = true -> trimEnd (a ++ b) = a ++ trimEnd b.
Proof.
  induction a as [|c r IH]; intros H; [reflexivity|].
  simpl in H. apply andb_true_iff in H as [Hc Hr].
  apply negb_true_iff in Hc.
  cbn [append trimEnd]. rewrite (IH Hr), Hc.
  now destruct (r ++ trimEnd b).
Qed.

Lemma trimStart_app (a b : string) :
  noWhiteSpace a = true -> a <> "" -> trimStart (a ++ b) = a ++ b.
Proof.
  destruct a as [|c r]; intros H Hne; [congruence|].
  simpl in H. apply andb_true_iff in H as [Hc _].
  apply negb_true_iff in Hc. cbn [append trimStart]. now rewrite Hc.
Qed.

Lemma String_of_Z_noWhiteSpace (z : Z) : noWhiteSpace (String_of_Z z) = true.
Proof.
  unfold String_of_Z, NilZero.string_of_int.
  destruct (Z.to_int z) as [d|d]; unfold NilZero.string_of_uint;
    destruct d; cbn [noWhiteSpace NilEmpty.string_of_uint];
    try reflexivity; apply uint_noWhiteSpace.
Qed.

Lemma String_of_Z_not_empty (z : Z) : String_of_Z z <> "".
Proof.
  unfold String_of_Z, NilZero.string_of_int.
  destruct (Z.to_int z) as [d|d]; unfold NilZero.string_of_uint;
    destruct d; discriminate.
Qed.

Lemma split_prefix (a t : string) :
  hasDelimiter a = false ->
  split (a ++ t) = (a ++ hd "" (split t)) :: tl (split t).
Proof.
  induction a as [|c r IH]; intros H.
  - simpl. destruct (split t) eqn:E; [now apply split_not_nil in E|].
    reflexivity.
  - simpl in H. apply orb_false_elim in H as [Hc Hr].
    cbn [append split]. rewrite Hc, (IH Hr). reflexivity.
Qed.

Lemma digits_uint_app (d : Decimal.uint) (acc : Z) (u : string) :
  startsWithoutDigit u ->
  digits (Some acc) (NilEmpty.string_of_uint d ++ u)
  = Some (uintValue acc d).
Proof.
  intros Hu. revert acc.
  induction d; intros acc; cbn [NilEmpty.string_of_uint uintValue append];
    [| cbn [digits]; apply IHd ..].
  destruct u as [|c r]; [reflexivity|]. simpl in Hu. cbn [digits].
  now rewrite Hu.
Qed.

(** [parseInt] stops at the first character that is no digit. *)
Lemma parseInt_prefix (z : Z) (u : string) :
  0 <= z -> startsWithoutDigit u -> parseInt (String_of_Z z ++ u) = Num z.
Proof.
  intros Hz Hu. destruct z as [|p|p]; [| |lia].
  - change (String_of_Z 0) with "0". unfold parseInt.
    cbn [append trimStart].
    change (isWhiteSpace "0") with false. cbv iota. cbn [digits].
    change (digit "0") with (Some 0). cbv iota.
    destruct u as [|c r]; [reflexivity|]. simpl in Hu. cbn [digits].
    now rewrite Hu.
  - unfold String_of_Z. cbn [Z.to_int NilZero.string_of_int].
    pose proof (DecimalPos.Unsigned.of_to p) as E.
    pose proof (uintValue_of_uint (Pos.to_uint p)) as V. rewrite E in V.
    cbn [Z.of_N] in V.
    destruct (Pos.to_uint p) as [|d|d|d|d|d|d|d|d|d|d] eqn:D;
      [discriminate E | ..];
      unfold NilZero.string_of_uint, parseInt;
      cbn [NilEmpty.string_of_uint trimStart uintValue append] in V |- *;
      match goal with
      | |- context [isWhiteSpace ?c] =>
          change (isWhiteSpace c) with false; cbv iota
      end;
      cbn [digits];
      match goal with
      | |- context [digit ?c] =>
          let v := eval cbv in (digit c) in change (digit c) with v; cbv iota
      end;
      rewrite (digits_uint_app _ _ _ Hu), <- V; f_equal; lia.
Qed.

Lemma trimEnd_head (c : ascii) (r : string) :
  trimEnd (String c r) = "" \/ exists r', trimEnd (String c r) = String c r'.
Proof.
  cbn [trimEnd]. destruct (trimEnd r); [|eauto].
  destruct (isWhiteSpace c); eauto.
Qed.

Lemma first_field_head (c : ascii) (r : string) :
  digit c = None -> startsWithoutDigit (hd "" (split (String c r))).
Proof.
  intros Hc. cbn [split]. destruct (Ascii.eqb c ";"); [exact I|].
  destruct (split r); exact Hc.
Qed.

(** The identifier read from a line that starts with the digits of [z],
    followed by a character that is no digit. *)
Lemma receivedId_leading_digits (z : Z) (c : ascii) (rest : string) :
  0 <= z -> digit c = None ->
  receivedId (String_of_Z z ++ String c rest) = Num z.
Proof.
  intros Hz Hc. unfold receivedId, trim.
  rewrite trimStart_app
    by auto using String_of_Z_noWhiteSpace, String_of_Z_not_empty.
  rewrite trimEnd_app by apply String_of_Z_noWhiteSpace.
  rewrite split_prefix by apply String_of_Z_no_delimiter.
  unfold at_or. cbn [nth].
  apply parseInt_prefix; [exact Hz|].
  destruct (trimEnd_head c rest) as [-> | [r' ->]]; [exact I|].
  now apply first_field_head.
Qed.

(** X14: the identifier check reads only the leading digits of the first
    field.  While exchange [k] awaits its reply, a line that starts with the
    identifier sent, followed by any character that is no digit (the
    delimiter, a letter, a space), resolves the exchange with the trimmed
    line. *)
Theorem reply_matches_on_leading_digits (serial : bool) (es : list event)
  (k : nat) (c : ascii) (rest : string)
  (Hout : outstanding (commandQueue (run (create serial) es)) = Some k)
  (Hc : digit c = None) :
  let s := run (create serial) es in
  let data := String_of_Z (Z.of_nat k mod MAX_COMMAND_ID) ++ String c rest in
  promiseOf k (step s (ParserData data)) = Some (Resolved (trim data)).
Proof.
  intros s data. pose proof (Inv_reachable serial es) as H.
  fold s in H, Hout.
  rewrite (step_ParserData_outstanding _ _ _ H Hout).
  assert (V : verdict (Z.of_nat k mod MAX_COMMAND_ID) data
              = Resolved (trim data)).
  { unfold verdict, data. rewrite receivedId_leading_digits.
    - simpl. now rewrite Z.eqb_refl.
    - apply Z.mod_pos_bound. reflexivity.
    - exact Hc. }
  destruct (promiseOf_settled s k (Resolved (trim data)) H I Hout)
    as ((y & Hy & Hy') & _).
  unfold promiseOf. cbn [commandQueue]. now rewrite V, Hy'.
Qed.

Lemma reply_matches_on_leading_digits_witness :
  outstanding
    (commandQueue (run (create false) [Call "GET_VERSION;0" 100; Job]))
  = Some 0%nat
  /\ digit "x" = None
  /\ promiseOf 0
       (step (run (create false) [Call "GET_VERSION;0" 100; Job])
          (ParserData
             (String_of_Z (Z.of_nat 0 mod MAX_COMMAND_ID)
                ++ String "x" "yz;1;")))
     = Some (Resolved
               (trim (String_of_Z (Z.of_nat 0 mod MAX_COMMAND_ID)
                        ++ String "x" "yz;1;"))).
Proof.
  split; [reflexivity|]. split; [reflexivity|].
  exact (reply_matches_on_leading_digits false
           [Call "GET_VERSION;0" 100; Job] 0 "x" "yz;1;" eq_refl eq_refl).
Defined.

(* ================================================================= *)
(** * Lines *)

Lemma hasLF_app (a b : string) : hasLF (a ++ b) = hasLF a || hasLF b.
Proof.
  induction a as [|c r IH]; simpl; [reflexivity|].
  now rewrite IH, orb_assoc.
Qed.

Lemma uint_noLF (d : Decimal.uint) :
  hasLF (NilEmpty.string_of_uint d) = false.
Proof. induction d; simpl; auto. Qed.

Lemma String_of_Z_noLF (z : Z) : hasLF (String_of_Z z) = false.
Proof.
  unfold String_of_Z, NilZero.string_of_int.
  destruct (Z.to_int z) as [d|d]; unfold NilZero.string_of_uint;
    destruct d; simpl; auto using uint_noLF.
Qed.

Lemma hasLF_join (xs : list string) :
  Forall (fun f => hasLF f = false) xs -> hasLF (join xs) = false.
Proof.
  induction 1 as [|x r Hx Hr IH]; [reflexivity|].
  destruct r as [|y r']; [exact Hx|].
  change (join (x :: y :: r')) with (x ++ ";" ++ join (y :: r')).
  now rewrite !hasLF_app, Hx, IH.
Qed.

Lemma readline_line (l : string) :
  hasLF l = false -> readline (l ++ LF) = Some l.
Proof.
  induction l as [|c r IH]; intros H; [reflexivity|].
  simpl in H. apply orb_false_elim in H as [Hc Hr].
  cbn [append readline]. now rewrite Hc, (IH Hr).
Qed.

Ltac single_line :=
  rewrite ?lastCommand_sendCommand;
  repeat (rewrite hasLF_app || rewrite String_of_Z_noLF);
  cbn [hasLF Ascii.eqb Bool.eqb orb]; try reflexivity.

(** X15: no operation of the driver can put a line break into its command:
    whatever the indices, parameters and values, the command handed to the
    dispatcher holds no newline, so that the line written for it, the
    identifier in front and the newline behind, is read back by a line
    parser as that one line. *)
Theorem commands_are_single_lines (ids : list Z)
  (moves : list MotorMoveParameters) (vels : list MotorVelocityParameters)
  (pins : list DigitalPinWriteParameters) (mode : PinMode) (pin id : Z)
  (s : ClearCore) :
  Forall (fun cmd => hasLF cmd = false
                     /\ readline (String_of_Z id ++ ";" ++ cmd ++ LF)
                        = Some (String_of_Z id ++ ";" ++ cmd))
    [lastCommand (getVersion s); lastCommand (expansionBoardsState s);
     lastCommand (readMotors ids s); lastCommand (enableMotors ids s);
     lastCommand (disableMotors ids s); lastCommand (moveMotors moves s);
     lastCommand (setMotorsHome ids s);
     lastCommand (setMotorsVelocity vels s); lastCommand (stopMotors ids s);
     lastCommand (motorsSetEStopPin pin s); lastCommand (disableAllMotors s);
     lastCommand (setPinsMode mode ids s);
     lastCommand (readDigitalSensors ids s);
     lastCommand (readAnalogSensors ids s);
     lastCommand (writeDigitalPins pins s)].
Proof.
  assert (R : forall cmd, hasLF cmd = false ->
                hasLF cmd = false
                /\ readline (String_of_Z id ++ ";" ++ cmd ++ LF)
                   = Some (String_of_Z id ++ ";" ++ cmd)).
  { intros cmd H. split; [exact H|].
    rewrite <- !append_assoc. apply readline_line.
    rewrite append_assoc, !hasLF_app, String_of_Z_noLF, H. reflexivity. }
  assert (J : forall (A : Type) (f : A -> string) (xs : list A),
             (forall x, hasLF (f x) = false) -> hasLF (join (map f xs)) = false).
  { intros A f xs Hf. apply hasLF_join.
    induction xs; simpl; constructor; auto. }
  repeat constructor; apply R;
    unfold getVersion, expansionBoardsState, readMotors, enableMotors,
      disableMotors, setEnabledMotors, moveMotors, setMotorsHome,
      setMotorsVelocity, stopMotors, motorsSetEStopPin, disableAllMotors,
      setPinsMode, readDigitalSensors, readAnalogSensors, writeDigitalPins;
    single_line.
  all: apply J; intros x; single_line.
Qed.

(* ================================================================= *)
(** * An echoing transport *)

(** A call on a dispatcher whose exchanges have all resolved is written by
    the next job. *)
Lemma exchange_started (s : ClearCore) (c : string) (t : Z) :
  Inv s -> Forall (fun y => isResolved (promise y)) (commandQueue s) ->
  let k := List.length (commandQueue s) in
  let s2 := step (sendCommand c t s) Job in
  Inv s2
  /\ outstanding (commandQueue s2) = Some k
  /\ commandQueue s2
     = mark_outstanding k (commandQueue s ++ [mkExchange c t Queued])
  /\ promiseOf k s2 = Some Outstanding
  /\ written (port s2)
     = (written (port s)
        ++ [(String_of_Z (Z.of_nat k mod MAX_COMMAND_ID) ++ ";" ++ c ++ LF)
              %string])%list.
Proof.
  intros H A k s2.
  set (x := mkExchange c t Queued).
  set (s1 := sendCommand c t s).
  assert (H1 : Inv s1) by now apply Inv_sendCommand.
  assert (H2 : Inv s2) by (unfold s2; now apply Inv_step).
  destruct (nextJob_all_resolved (commandQueue s) (Resolved "") x A I eq_refl)
    as [v J].
  assert (E2 : s2 = executor k x s1).
  { unfold s2. cbn [step]. unfold promiseJob. fold s1.
    change (commandQueue s1) with (commandQueue s ++ [x])%list.
    now rewrite J. }
  assert (Q2 : commandQueue s2 = mark_outstanding k (commandQueue s ++ [x])).
  { rewrite E2. apply commandQueue_executor. }
  pose proof H1 as [I1 _ _ _].
  destruct (job_starts _ _ _ _ _ I1 I J : _)
    as (_ & _ & A3 & _ & _ & A6 & A7 & _).
  change (commandQueue s1) with (commandQueue s ++ [x])%list in A3, A6, A7.
  fold k in A3, A6, A7.
  split; [exact H2|]. split; [now rewrite Q2|]. split; [exact Q2|]. split.
  - unfold promiseOf. now rewrite Q2, A7.
  - pose proof H as [_ I2 _ _]. pose proof H2 as [_ I2' _ _].
    rewrite I2', Q2, A3, map_command_mark_outstanding, map_app.
    rewrite I2, (all_resolved_started _ A).
    rewrite <- (length_map command (commandQueue s)) at 1.
    rewrite firstn_all.
    replace (S k)
      with (List.length (map command (commandQueue s) ++ map command [x]))
      by (rewrite length_app, length_map; simpl; unfold k; lia).
    rewrite firstn_all, lines_app, length_map. reflexivity.
Qed.

(** X16: over a transport that echoes what is written (the mock port of the
    tests), a call made while every earlier exchange has resolved is written
    with the next identifier and resolves with its own line, trimmed; every
    exchange is then resolved again, so the same holds for the next call. *)
Theorem echo_transport_resolves (serial : bool) (es : list event)
  (cmd : string) (t : Z)
  (Hres : Forall (fun y => isResolved (promise y))
            (commandQueue (run (create serial) es)))
  (Hcmd : hasLF cmd = false) :
  let s := run (create serial) es in
  let k := List.length (commandQueue s) in
  let line := String_of_Z (Z.of_nat k mod MAX_COMMAND_ID) ++ ";" ++ cmd in
  let s' := serve MockSerialPort (sendCommand cmd t s) in
  promiseOf k s' = Some (Resolved (trim line))
  /\ written (port s') = (written (port s) ++ [(line ++ LF)%string])%list
  /\ Forall (fun y => isResolved (promise y)) (commandQueue s').
Proof.
  intros s k line s'. pose proof (Inv_reachable serial es) as H.
  fold s in H, Hres.
  destruct (exchange_started s cmd t H Hres) as (H2 & O2 & Q2 & P2 & W2).
  fold k in O2, Q2, P2, W2.
  set (s2 := step (sendCommand cmd t s) Job) in *.
  assert (K : returned (sendCommand cmd t s) = k).
  { unfold returned. cbn [sendCommand commandQueue with_queue].
    rewrite length_app. simpl. unfold k. lia. }
  assert (L : hasLF line = false).
  { unfold line. now rewrite !hasLF_app, String_of_Z_noLF, Hcmd. }
  assert (E : s' = step s2 (ParserData line)).
  { unfold s', serve. rewrite K. fold s2. rewrite P2, W2, last_last.
    unfold MockSerialPort.
    replace (String_of_Z (Z.of_nat k mod MAX_COMMAND_ID) ++ ";" ++ cmd ++ LF)
      with (line ++ LF) by (unfold line; now rewrite !append_assoc).
    now rewrite (readline_line line L). }
  assert (V : verdict (Z.of_nat k mod MAX_COMMAND_ID) line
              = Resolved (trim line)).
  { unfold verdict, line.
    change (";" ++ cmd) with (String ";" cmd).
    rewrite receivedId_leading_digits.
    - simpl. now rewrite Z.eqb_refl.
    - apply Z.mod_pos_bound. reflexivity.
    - reflexivity. }
  assert (Q : commandQueue s'
              = (commandQueue s ++ [mkExchange cmd t (Resolved (trim line))])%list).
  { rewrite E, (step_ParserData_outstanding _ _ _ H2 O2). cbn [commandQueue].
    rewrite Q2, V. apply (settle_marked (commandQueue s)). }
  split; [|split].
  - unfold promiseOf. rewrite Q, nth_error_app2 by (unfold k; lia).
    unfold k. now rewrite Nat.sub_diag.
  - rewrite E, (step_ParserData_outstanding _ _ _ H2 O2). cbn [port].
    rewrite W2. unfold line. now rewrite !append_assoc.
  - rewrite Q. apply Forall_app. split; [exact Hres | repeat constructor].
Qed.

Lemma echo_transport_resolves_witness :
  Forall (fun y => isResolved (promise y))
    (commandQueue (run (create false) []))
  /\ hasLF "GET_VERSION;0" = false
  /\ promiseOf (List.length (commandQueue (run (create false) [])))
       (serve MockSerialPort
          (sendCommand "GET_VERSION;0" 100 (run (create false) [])))
     = Some (Resolved
               (trim (String_of_Z
                        (Z.of_nat
                           (List.length (commandQueue (run (create false) [])))
                         mod MAX_COMMAND_ID)
                      ++ ";" ++ "GET_VERSION;0"))).
Proof.
  split; [constructor|]. split; [reflexivity|].
  exact (proj1 (echo_transport_resolves false [] "GET_VERSION;0" 100
                  (Forall_nil _) eq_refl)).
Defined.

(* ================================================================= *)
(** * More on the enabled-motor set *)

Lemma Set_add_present (x : Z) (l : list Z) : In x l -> Set_add x l = l.
Proof.
  intros H. unfold Set_add.
  replace (existsb (Z.eqb x) l) with true; [reflexivity|].
  symmetry. apply existsb_exists. exists x. split; [exact H | apply Z.eqb_refl].
Qed.

Lemma Set_delete_absent (x : Z) (l : list Z) : ~ In x l -> Set_delete x l = l.
Proof.
  intros H. unfold Set_delete. induction l as [|a r IH]; [reflexivity|].
  simpl. destruct (Z.eqb_spec a x) as [-> | Hne].
  - exfalso. apply H. now left.
  - simpl. f_equal. apply IH. intros Hin. apply H. now right.
Qed.

Lemma Set_delete_NoDup (x : Z) (l : list Z) : NoDup l -> NoDup (Set_delete x l).
Proof. apply NoDup_filter. Qed.

Lemma fold_Set_add_NoDup (ms l : list Z) :
  NoDup l -> NoDup (fold_left (fun set x => Set_add x set) ms l).
Proof.
  revert l. induction ms as [|x r IH]; intros l H; simpl; [exact H|].
  apply IH. now apply Set_add_NoDup.
Qed.

Lemma fold_Set_delete_NoDup (ms l : list Z) :
  NoDup l -> NoDup (fold_left (fun set x => Set_delete x set) ms l).
Proof.
  revert l. induction ms as [|x r IH]; intros l H; simpl; [exact H|].
  apply IH. now apply Set_delete_NoDup.
Qed.

Lemma fold_Set_add_present (ms l : list Z) :
  (forall x, In x ms -> In x l) ->
  fold_left (fun set x => Set_add x set) ms l = l.
Proof.
  induction ms as [|x r IH]; intros H; simpl; [reflexivity|].
  rewrite Set_add_present by (apply H; now left).
  apply IH. intros y Hy. apply H. now right.
Qed.

Lemma fold_Set_delete_absent (ms l : list Z) :
  (forall x, In x ms -> ~ In x l) ->
  fold_left (fun set x => Set_delete x set) ms l = l.
Proof.
  induction ms as [|x r IH]; intros H; simpl; [reflexivity|].
  rewrite Set_delete_absent by (apply H; now left).
  apply IH. intros y Hy. apply H. now right.
Qed.

Lemma enabledMotors_step (s : ClearCore) (e : event) :
  enabledMotors (step s e) = enabledMotors s.
Proof.
  destruct e as [c t| |data|err|k err|k|]; cbn [step].
  - reflexivity.
  - unfold promiseJob.
    destruct (nextJob (Resolved "") (commandQueue s)) as [[[k p] x]|];
      [|reflexivity].
    destruct p; try reflexivity.
    unfold executor, resetBuffer. now destruct (isSerialPort s).
  - change (enabledMotors s) with (enabledMotors (with_dataListeners [] s)).
    generalize (with_dataListeners [] s).
    induction (dataListeners s) as [|c l IH]; intros s0; simpl; [reflexivity|].
    now rewrite IH.
  - change (enabledMotors s) with (enabledMotors (with_errorListeners [] s)).
    generalize (with_errorListeners [] s).
    induction (errorListeners s) as [|c l IH]; intros s0; simpl; [reflexivity|].
    now rewrite IH.
  - now destruct (isStarted k s).
  - now destruct (find _ (timers s)).
  - reflexivity.
Qed.

(** X17: the Enabled Motor Set behaves as a set and belongs to the enable
    and disable calls alone.  Without duplicates before a call, it has none
    after; enabling, or disabling, the same motors a second time changes
    nothing in it and sends the same bit mask again; disabling the motors
    just enabled leaves the motors that were enabled before, less those;
    and no event of the dispatcher (a job, a reply, a timeout, an error)
    touches it. *)
Theorem enabled_set_is_a_set (motors : list Z) (s : ClearCore)
  (es : list event) (Hs : NoDup (enabledMotors s)) :
  NoDup (enabledMotors (enableMotors motors s))
  /\ NoDup (enabledMotors (disableMotors motors s))
  /\ enabledMotors (enableMotors motors (enableMotors motors s))
     = enabledMotors (enableMotors motors s)
  /\ lastCommand (enableMotors motors (enableMotors motors s))
     = lastCommand (enableMotors motors s)
  /\ enabledMotors (disableMotors motors (disableMotors motors s))
     = enabledMotors (disableMotors motors s)
  /\ lastCommand (disableMotors motors (disableMotors motors s))
     = lastCommand (disableMotors motors s)
  /\ (forall m, In m (enabledMotors (disableMotors motors (enableMotors motors s)))
                <-> In m (enabledMotors s) /\ ~ In m motors)
  /\ enabledMotors (run s es) = enabledMotors s.
Proof.
  assert (A : enabledMotors (enableMotors motors (enableMotors motors s))
              = enabledMotors (enableMotors motors s)).
  { cbn [enableMotors setEnabledMotors sendCommand with_queue
           with_enabledMotors enabledMotors].
    apply fold_Set_add_present. intros x Hx.
    apply fold_Set_add_In. now right. }
  assert (D : enabledMotors (disableMotors motors (disableMotors motors s))
              = enabledMotors (disableMotors motors s)).
  { cbn [disableMotors setEnabledMotors sendCommand with_queue
           with_enabledMotors enabledMotors].
    apply fold_Set_delete_absent. intros x Hx Hin.
    apply fold_Set_delete_In in Hin. tauto. }
  split; [now apply fold_Set_add_NoDup|].
  split; [now apply fold_Set_delete_NoDup|].
  split; [exact A|]. split.
  { unfold enableMotors at 1 3. unfold setEnabledMotors.
    rewrite !lastCommand_sendCommand. cbn [enabledMotors with_enabledMotors].
    f_equal. f_equal. f_equal. exact A. }
  split; [exact D|]. split.
  { unfold disableMotors at 1 3. unfold setEnabledMotors.
    rewrite !lastCommand_sendCommand. cbn [enabledMotors with_enabledMotors].
    f_equal. f_equal. f_equal. exact D. }
  split.
  { intros m.
    cbn [disableMotors enableMotors setEnabledMotors sendCommand with_queue
           with_enabledMotors enabledMotors].
    rewrite fold_Set_delete_In, fold_Set_add_In. tauto. }
  clear. revert s. induction es as [|e es IH]; intros s; simpl; [reflexivity|].
  now rewrite IH, enabledMotors_step.
Qed.

Lemma enabled_set_is_a_set_witness :
  NoDup (enabledMotors (create false))
  /\ enabledMotors (enableMotors [0; 2; 0] (enableMotors [0; 2; 0] (create false)))
     = enabledMotors (enableMotors [0; 2; 0] (create false)).
Proof.
  split; [constructor|].
  pose proof (enabled_set_is_a_set [0; 2; 0] (create false) [] (NoDup_nil Z))
    as H.
  destruct H as (_ & _ & H & _). exact H.
Defined.

(* ================================================================= *)
(** * Parameters of the write operations *)

Lemma split_join_map {A : Type} (f : A -> string) (g : A -> list string)
  (xs : list A) :
  (forall x, split (f x) = g x) -> xs <> [] ->
  split (join (map f xs)) = flat_map g xs.
Proof.
  intros H Hne.
  rewrite split_join by (destruct xs; [congruence | discriminate]).
  rewrite flat_map_concat_map, map_map, <- flat_map_concat_map.
  induction xs as [|x r IH]; [congruence|].
  simpl. rewrite H. f_equal.
  destruct r as [|y r']; [reflexivity|]. apply IH. discriminate.
Qed.

Lemma selector_map_permutation {A : Type} (f : A -> Z) (xs ys : list A) :
  Permutation xs ys -> selector (map f xs) = selector (map f ys).
Proof. intros P. apply selector_permutation. now apply Permutation_map. Qed.

(** X18: the write operations send the parameters of each target in the
    order in which the caller passed the targets: three fields per motor for
    [moveMotors] (steps, velocity, acceleration), two for
    [setMotorsVelocity], one flag for [writeDigitalPins].  The numeric
    parameters are safe integers, which a template literal renders digit by
    digit.  The bit mask in front of them has no order: the same targets
    passed in another order give the same mask. *)
Theorem write_parameters_follow_call_order
  (m : MotorMoveParameters) (moves moves' : list MotorMoveParameters)
  (v : MotorVelocityParameters) (vels vels' : list MotorVelocityParameters)
  (p : DigitalPinWriteParameters) (pins pins' : list DigitalPinWriteParameters)
  (s : ClearCore)
  (Hm : Forall (fun x => isSafeInteger (move_steps x)
                         /\ isSafeInteger (move_velocity x)
                         /\ isSafeInteger (move_acceleration x)) (m :: moves))
  (Hv : Forall (fun x => isSafeInteger (velocity_velocity x)
                         /\ isSafeInteger (velocity_acceleration x))
          (v :: vels))
  (Pm : Permutation (m :: moves) moves') (Pv : Permutation (v :: vels) vels')
  (Pp : Permutation (p :: pins) pins') :
  skipn 3 (split (lastCommand (moveMotors (m :: moves) s)))
  = flat_map (fun m => [String_of_Z (move_steps m);
                        String_of_Z (move_velocity m);
                        String_of_Z (move_acceleration m)]) (m :: moves)
  /\ skipn 3 (split (lastCommand (setMotorsVelocity (v :: vels) s)))
     = flat_map (fun m => [String_of_Z (velocity_velocity m);
                           String_of_Z (velocity_acceleration m)]) (v :: vels)
  /\ skipn 3 (split (lastCommand (writeDigitalPins (p :: pins) s)))
     = map (fun p => flag (pin_value p)) (p :: pins)
  /\ nth_error (split (lastCommand (moveMotors (m :: moves) s))) 2
     = nth_error (split (lastCommand (moveMotors moves' s))) 2
  /\ nth_error (split (lastCommand (setMotorsVelocity (v :: vels) s))) 2
     = nth_error (split (lastCommand (setMotorsVelocity vels' s))) 2
  /\ nth_error (split (lastCommand (writeDigitalPins (p :: pins) s))) 2
     = nth_error (split (lastCommand (writeDigitalPins pins' s))) 2.
Proof.
  clear Hm Hv.
  unfold moveMotors, setMotorsVelocity, writeDigitalPins.
  rewrite !lastCommand_sendCommand.
  change ("MOTORS_MOVE;" ++ ?r) with ("MOTORS_MOVE" ++ ";" ++ r).
  change ("MOTORS_SET_VELOCITY;" ++ ?r) with ("MOTORS_SET_VELOCITY" ++ ";" ++ r).
  change ("DPINS_SET;" ++ ?r) with ("DPINS_SET" ++ ";" ++ r).
  rewrite !split_encoded by reflexivity. cbn [skipn nth_error].
  rewrite (selector_map_permutation move_id _ _ Pm).
  rewrite (selector_map_permutation velocity_id _ _ Pv).
  rewrite (selector_map_permutation pin_id _ _ Pp).
  split; [|split; [|split; [|auto]]].
  - apply split_join_map; [|discriminate].
    intros x. apply split_3; apply String_of_Z_no_delimiter.
  - apply split_join_map; [|discriminate].
    intros x. apply split_2; apply String_of_Z_no_delimiter.
  - rewrite (split_join_map _ (fun p => [flag (pin_value p)]))
      by (try discriminate; intros x; now destruct (pin_value x)).
    generalize (p :: pins). intros l.
    induction l as [|a l IH]; simpl; [reflexivity | now rewrite IH].
Qed.

Lemma write_parameters_follow_call_order_witness :
  Forall (fun x => isSafeInteger (move_steps x)
                   /\ isSafeInteger (move_velocity x)
                   /\ isSafeInteger (move_acceleration x))
    [mkMove 2 10 20 30; mkMove 0 1 2 3]
  /\ Forall (fun x => isSafeInteger (velocity_velocity x)
                      /\ isSafeInteger (velocity_acceleration x))
       [mkVelocity 0 0 0]
  /\ Permutation [mkMove 2 10 20 30; mkMove 0 1 2 3]
       [mkMove 0 1 2 3; mkMove 2 10 20 30]
  /\ skipn 3
       (split
          (lastCommand
             (moveMotors [mkMove 2 10 20 30; mkMove 0 1 2 3] (create false))))
     = ["10"; "20"; "30"; "1"; "2"; "3"].
Proof.
  assert (Hm : Forall (fun x => isSafeInteger (move_steps x)
                                /\ isSafeInteger (move_velocity x)
                                /\ isSafeInteger (move_acceleration x))
                 [mkMove 2 10 20 30; mkMove 0 1 2 3])
    by (repeat constructor; reflexivity).
  assert (Hv : Forall (fun x => isSafeInteger (velocity_velocity x)
                                /\ isSafeInteger (velocity_acceleration x))
                 [mkVelocity 0 0 0])
    by (repeat constructor; reflexivity).
  split; [exact Hm|]. split; [exact Hv|]. split; [apply perm_swap|].
  exact (proj1 (write_parameters_follow_call_order
                  (mkMove 2 10 20 30) [mkMove 0 1 2 3]
                  [mkMove 0 1 2 3; mkMove 2 10 20 30]
                  (mkVelocity 0 0 0) [] [mkVelocity 0 0 0]
                  (mkPinWrite 0 true) [] [mkPinWrite 0 true]
                  (create false) Hm Hv
                  (perm_swap _ _ []) (Permutation_refl _)
                  (Permutation_refl _))).
Defined.

(* ================================================================= *)
(** * A busy dispatcher *)

Lemma nextJob_busy (q : list exchange) (prev : settlement) (k : nat) :
  chained prev q -> isResolved prev -> outstanding q = Some k ->
  match nextJob prev q with
  | Some (_, Outstanding, _) | None => True
  | Some _ => False
  end.
Proof.
  revert prev k. induction q as [|a r IH]; intros prev k H R O; [exact I|].
  destruct prev; simpl in R; try tauto. simpl in H, O |- *.
  destruct (promise a) eqn:E.
  - rewrite (chained_quiet Queued r H) in O by auto. discriminate.
  - destruct r as [|b r']; [exact I|]. simpl in H |- *.
    destruct (promise b); tauto.
  - destruct (outstanding r) as [k'|] eqn:O'; [|discriminate].
    specialize (IH (Resolved response0) k' H I eq_refl).
    destruct (nextJob (Resolved response0) r) as [[[j p] y]|]; [|exact I].
    exact IH.
  - rewrite (chained_quiet _ r H) in O by auto. discriminate.
Qed.

(** X19: while an exchange awaits its reply the dispatcher starts nothing
    else: a promise job leaves the state as it is, and the calls made in the
    meantime are queued without a line being written or an identifier being
    taken. *)
Theorem busy_dispatcher_queues_calls (serial : bool) (es : list event)
  (k : nat) (calls : list (string * Z))
  (Hout : outstanding (commandQueue (run (create serial) es)) = Some k) :
  let s := run (create serial) es in
  let s' := run s (map (fun c => Call (fst c) (snd c)) calls ++ [Job]) in
  step s Job = s
  /\ port s' = port s
  /\ commandIdCounter s' = commandIdCounter s
  /\ outstanding (commandQueue s') = Some k
  /\ commandQueue s'
     = (commandQueue s
        ++ map (fun c => mkExchange (fst c) (snd c) Queued) calls)%list.
Proof.
  intros s s'. pose proof (Inv_reachable serial es) as H. fold s in H, Hout.
  assert (B : forall s0, Inv s0 -> outstanding (commandQueue s0) = Some k ->
                step s0 Job = s0).
  { intros s0 [I1 _ _ _] O. cbn [step]. unfold promiseJob.
    pose proof (nextJob_busy _ _ _ I1 I O) as N.
    destruct (nextJob (Resolved "") (commandQueue s0)) as [[[j p] y]|];
      [|reflexivity].
    destruct p; tauto. }
  split; [now apply B|].
  assert (G : forall calls s0, Inv s0 ->
                outstanding (commandQueue s0) = Some k ->
                let s1 := run s0 (map (fun c => Call (fst c) (snd c)) calls) in
                Inv s1 /\ outstanding (commandQueue s1) = Some k
                /\ port s1 = port s0
                /\ commandIdCounter s1 = commandIdCounter s0
                /\ commandQueue s1
                   = (commandQueue s0
                      ++ map (fun c => mkExchange (fst c) (snd c) Queued)
                           calls)%list).
  { clear. induction calls as [|c r IH]; intros s0 H0 O; cbv zeta.
    - simpl. rewrite app_nil_r. auto.
    - cbn [map run fold_left step].
      destruct (IH (sendCommand (fst c) (snd c) s0)) as (A1 & A2 & A3 & A4 & A5).
      + now apply Inv_sendCommand.
      + cbn [sendCommand commandQueue with_queue].
        now rewrite outstanding_app_queued.
      + unfold run in A1, A2, A3, A4, A5.
        split; [exact A1|]. split; [exact A2|].
        split; [now rewrite A3|]. split; [now rewrite A4|].
        rewrite A5. cbn [sendCommand commandQueue with_queue map].
        now rewrite <- app_assoc. }
  destruct (G calls s H Hout) as (A1 & A2 & A3 & A4 & A5).
  unfold s', run. rewrite fold_left_app. cbn [fold_left].
  fold (run s (map (fun c => Call (fst c) (snd c)) calls)).
  rewrite (B _ A1 A2). auto.
Qed.

Lemma busy_dispatcher_queues_calls_witness :
  outstanding
    (commandQueue (run (create false) [Call "GET_VERSION;0" 100; Job]))
  = Some 0%nat
  /\ port
       (run (run (create false) [Call "GET_VERSION;0" 100; Job])
          (map (fun c => Call (fst c) (snd c))
             [("MOTORS_HOME;1;1", 100); ("MOTORS_STOP_ABRUPT;1;1", 100)]
           ++ [Job]))
     = port (run (create false) [Call "GET_VERSION;0" 100; Job]).
Proof.
  split; [reflexivity|].
  pose proof (busy_dispatcher_queues_calls false
                [Call "GET_VERSION;0" 100; Job] 0
                [("MOTORS_HOME;1;1", 100); ("MOTORS_STOP_ABRUPT;1;1", 100)]
                eq_refl) as H.
  cbv zeta in H. destruct H as (_ & H & _). exact H.
Defined.

(* ================================================================= *)
(** * Serialization *)

(** X20: in every state a driver reaches, at most one exchange awaits its
    reply; the lines written are those of the first calls, in the order of
    the calls, each with the identifier of its rank; and an event writes a
    line only if it is the job that finds every exchange written before
    resolved, in which case it writes exactly one line. *)
Theorem dispatcher_serializes (serial : bool) (es : list event) (e : event) :
  let s := run (create serial) es in
  (countOutstanding (commandQueue s) <= 1)%nat
  /\ written (port s)
     = lines 0 (firstn (started (commandQueue s))
                  (map command (commandQueue s)))
  /\ (written (port (step s e)) = written (port s)
      \/ (e = Job
          /\ Forall (fun y => isResolved (promise y))
               (firstn (List.length (written (port s))) (commandQueue s))
          /\ exists line,
               written (port (step s e)) = (written (port s) ++ [line])%list)).
Proof.
  intros s.
  destruct (exchanges_are_serialized serial es) as [A B].
  split; [exact A|]. split; [exact B|].
  apply write_follows_resolution.
Qed.

(* ================================================================= *)
(** * The identifier of a reply *)



(** A line that starts with the digits of [z] and goes on with no digit
    carries the identifier [z]. *)
Lemma receivedId_digits (z : Z) (tail : string) :
  0 <= z -> startsWithoutDigit tail ->
  receivedId (String_of_Z z ++ tail) = Num z.
Proof.
  intros Hz Ht. destruct tail as [|c rest].
  - rewrite append_empty. now apply receivedId_String_of_Z.
  - now apply receivedId_leading_digits.
Qed.





(* ================================================================= *)
(** * Disabling every motor *)

Lemma Inv_with_enabledMotors (m : list Z) (s : ClearCore) :
  Inv s -> Inv (with_enabledMotors m s).
Proof. intros [I1 I2 I3 I4]. constructor; assumption. Qed.

(** One exchange from the call to its reply, while every earlier exchange
    has resolved. *)
Lemma exchange_resolved (s : ClearCore) (c : string) (t : Z) (tail : string) :
  Inv s -> Forall (fun y => isResolved (promise y)) (commandQueue s) ->
  startsWithoutDigit tail ->
  let k := List.length (commandQueue s) in
  let s1 := step (sendCommand c t s) Job in
  let data := String_of_Z (Z.of_nat k mod MAX_COMMAND_ID) ++ tail in
  let s2 := step s1 (ParserData data) in
  Inv s2
  /\ commandQueue s2
     = (commandQueue s ++ [mkExchange c t (Resolved (trim data))])%list
  /\ port s2 = port s1
  /\ enabledMotors s2 = enabledMotors s.
Proof.
  intros H A T k s1 data s2.
  destruct (exchange_started s c t H A) as (H1 & O1 & Q1 & _ & _).
  fold k in O1, Q1. fold s1 in H1, O1, Q1.
  assert (V : verdict (Z.of_nat k mod MAX_COMMAND_ID) data
              = Resolved (trim data)).
  { unfold verdict, data. rewrite receivedId_digits.
    - simpl. now rewrite Z.eqb_refl.
    - apply Z.mod_pos_bound. reflexivity.
    - exact T. }
  split; [unfold s2; now apply Inv_step|].
  split; [|split].
  - unfold s2. rewrite (step_ParserData_outstanding _ _ _ H1 O1).
    cbn [commandQueue]. rewrite Q1, V. apply (settle_marked (commandQueue s)).
  - unfold s2. now rewrite (step_ParserData_outstanding _ _ _ H1 O1).
  - unfold s2, s1. now rewrite !enabledMotors_step.
Qed.

(** C8: [disableAllMotors] hands [MOTORS_ENABLE] with bit mask 0 to the
    dispatcher and changes nothing else of the driver, whatever its state:
    the Enabled Motor Set is as it was, empty or not.  A later
    [enableMotors] therefore adds its indices to the set of before and sends
    the selector of the whole: every motor that was enabled before
    [disableAllMotors] has its bit in that selector.  On the wire, in a
    driver whose exchanges have all resolved and whose set is [set]:
    [disableAllMotors] writes [<id>;MOTORS_ENABLE;1;0]; once its reply has
    come the set is still [set], and [enableMotors] writes
    [<next id>;MOTORS_ENABLE;1;<selector of set and the new indices>].
    Against the stream of the integration test a fresh driver writes
    [0;MOTORS_ENABLE;1;0], returns, and its set is still empty; over an
    echoing port, enabling 0 and 2, disabling all, then enabling 1 writes the
    bit masks 5, 0 and 7. *)
Theorem disableAllMotors_keeps_set (serial : bool) (es : list event)
  (set motors : list Z) (tail : string) :
  let stale := fold_left (fun acc m => Set_add m acc) motors set in
  let s := with_enabledMotors set (run (create serial) es) in
  let k := List.length (commandQueue s) in
  let s1 := step (disableAllMotors s) Job in
  let s2 :=
    step s1 (ParserData (String_of_Z (Z.of_nat k mod MAX_COMMAND_ID) ++ tail))
  in
  let s3 := step (enableMotors motors s2) Job in
  (forall t : ClearCore,
      disableAllMotors t
      = with_queue
          (commandQueue t
           ++ [mkExchange "MOTORS_ENABLE;1;0" defaultTimeoutMs Queued]) t
      /\ enabledMotors (disableAllMotors t) = enabledMotors t
      /\ split (lastCommand (disableAllMotors t))
         = ["MOTORS_ENABLE"; "1"; String_of_Z 0]
      /\ enabledMotors (enableMotors motors (disableAllMotors t))
         = fold_left (fun acc m => Set_add m acc) motors (enabledMotors t)
      /\ lastCommand (enableMotors motors (disableAllMotors t))
         = "MOTORS_ENABLE;1;"
             ++ String_of_Z
                  (selector
                     (fold_left (fun acc m => Set_add m acc) motors
                        (enabledMotors t))))
  /\ (forall m, In m set ->
        In m stale /\ Z.testbit (selector stale) (Z.land m 31) = true)
  /\ (Forall (fun y => isResolved (promise y)) (commandQueue s) ->
      startsWithoutDigit tail ->
      written (port s1)
      = (written (port s)
         ++ [(String_of_Z (Z.of_nat k mod MAX_COMMAND_ID)
                ++ ";MOTORS_ENABLE;1;0" ++ LF)%string])%list
      /\ enabledMotors s2 = set
      /\ written (port s3)
         = (written (port s1)
            ++ [(String_of_Z (Z.of_nat (S k) mod MAX_COMMAND_ID)
                   ++ ";MOTORS_ENABLE;1;" ++ String_of_Z (selector stale)
                   ++ LF)%string])%list)
  /\ written (port (serve TestStream (disableAllMotors (create false))))
     = ["0;MOTORS_ENABLE;1;0" ++ LF]
  /\ result (fun _ => tt) (serve TestStream (disableAllMotors (create false)))
     = Returned tt
  /\ enabledMotors (serve TestStream (disableAllMotors (create false))) = []
  /\ written
       (port
          (serve MockSerialPort
             (enableMotors [1]
                (serve MockSerialPort
                   (disableAllMotors
                      (serve MockSerialPort
                         (enableMotors [0; 2] (create false))))))))
     = ["0;MOTORS_ENABLE;1;5" ++ LF; "1;MOTORS_ENABLE;1;0" ++ LF;
        "2;MOTORS_ENABLE;1;7" ++ LF].
Proof.
  intros stale s k s1 s2 s3.
  split; [|split; [|split; [|repeat split]]].
  - intros t. split; [reflexivity|]. split; [reflexivity|].
    split; [|split; [reflexivity|]].
    + unfold disableAllMotors. now rewrite lastCommand_sendCommand.
    + unfold enableMotors, setEnabledMotors.
      now rewrite lastCommand_sendCommand.
  - intros m Hm.
    assert (Hs : In m stale) by (apply fold_Set_add_In; now left).
    split; [exact Hs | now apply selector_bit_In].
  - intros A T.
    assert (H : Inv s) by apply Inv_with_enabledMotors, Inv_reachable.
    destruct (exchange_started s "MOTORS_ENABLE;1;0" defaultTimeoutMs H A)
      as (_ & _ & _ & _ & W1).
    destruct (exchange_resolved s "MOTORS_ENABLE;1;0" defaultTimeoutMs tail
                H A T) as (H2 & Q2 & P2 & M2).
    fold k in W1, H2, Q2, P2, M2.
    change (step (sendCommand "MOTORS_ENABLE;1;0" defaultTimeoutMs s) Job)
      with s1 in W1, H2, Q2, P2, M2.
    fold s2 in H2, Q2, P2, M2.
    assert (E2 : enabledMotors s2 = set) by exact M2.
    split; [exact W1|]. split; [exact E2|].
    set (t := with_enabledMotors stale s2).
    assert (Ht : Inv t) by now apply Inv_with_enabledMotors.
    assert (At : Forall (fun y => isResolved (promise y)) (commandQueue t)).
    { change (commandQueue t) with (commandQueue s2). rewrite Q2.
      apply Forall_app. split; [exact A | repeat constructor]. }
    assert (Lt : List.length (commandQueue t) = S k).
    { change (commandQueue t) with (commandQueue s2). rewrite Q2, length_app.
      cbn [List.length]. fold k. lia. }
    destruct (exchange_started t
                ("MOTORS_ENABLE;1;" ++ String_of_Z (selector stale))
                defaultTimeoutMs Ht At) as (_ & _ & _ & _ & W3).
    rewrite Lt in W3.
    change (port t) with (port s2) in W3. rewrite P2 in W3.
    assert (E3 : enableMotors motors s2
                 = sendCommand
                     ("MOTORS_ENABLE;1;" ++ String_of_Z (selector stale))
                     defaultTimeoutMs t).
    { unfold enableMotors, setEnabledMotors. rewrite E2. reflexivity. }
    unfold s3. rewrite E3. exact W3.
Qed.

Lemma disableAllMotors_keeps_set_witness :
  In 2 [0; 2]
  /\ Forall (fun y => isResolved (promise y))
       (commandQueue (with_enabledMotors [0; 2] (run (create false) [])))
  /\ startsWithoutDigit ";0;"
  /\ Z.testbit
       (selector (fold_left (fun acc m => Set_add m acc) [1] [0; 2]))
       (Z.land 2 31) = true
  /\ written
       (port
          (step
             (enableMotors [1]
                (step
                   (step
                      (disableAllMotors
                         (with_enabledMotors [0; 2] (run (create false) [])))
                      Job)
                   (ParserData
                      (String_of_Z
                         (Z.of_nat
                            (List.length
                               (commandQueue
                                  (with_enabledMotors [0; 2]
                                     (run (create false) []))))
                          mod MAX_COMMAND_ID) ++ ";0;"))))
             Job))
     = (written
          (port
             (step
                (disableAllMotors
                   (with_enabledMotors [0; 2] (run (create false) [])))
                Job))
        ++ [(String_of_Z
               (Z.of_nat
                  (S (List.length
                        (commandQueue
                           (with_enabledMotors [0; 2]
                              (run (create false) [])))))
                mod MAX_COMMAND_ID)
               ++ ";MOTORS_ENABLE;1;"
               ++ String_of_Z
                    (selector
                       (fold_left (fun acc m => Set_add m acc) [1] [0; 2]))
               ++ LF)%string])%list.
Proof.
  assert (Hin : In 2 [0; 2]) by (right; left; reflexivity).
  assert (Hres : Forall (fun y => isResolved (promise y))
                   (commandQueue
                      (with_enabledMotors [0; 2] (run (create false) []))))
    by constructor.
  pose proof (disableAllMotors_keeps_set false [] [0; 2] [1] ";0;") as H.
  cbv zeta in H. destruct H as (_ & Hbit & Hwire & _).
  split; [exact Hin|]. split; [exact Hres|]. split; [reflexivity|].
  split; [exact (proj2 (Hbit 2 Hin))|].
  exact (proj2 (proj2 (Hwire Hres eq_refl))).
Defined.
